(** * Verification of the w4h ETL pipeline (main.py, utils.py)

    A shallow embedding of the forecast pipeline: the update gate and status
    document, the retention cutoff, the merge with retained history, the
    integer encoding of (utci, wbgt, hour offset), the chunked upload loop and
    the hour-angle buckets of the charting stage.

    Conventions.
    - A float is idealised as a rational; NaN is [None].  Module [Binary64]
      has the rounding of float64 arithmetic, to compare the two where the
      encoding rounds.
    - Timestamps and durations are integers in nanoseconds (pandas
      [Timestamp] / [Timedelta] values).
    - Latitude and longitude labels of a grid are integers in hundredths of a
      degree (the resolution of the document key "lat,lon").
    - Database calls run in a state-and-exception monad over a [World] that
      holds the status document, the forecast collection and a script of the
      faults the connection will raise. *)

From Stdlib Require Import ZArith QArith Qround Reals Lia Lra String List Sorted.
From Stdlib Require Lqa.
From Stdlib Require Import Ascii Qabs.
From stdpp Require Import gmap strings list fin_maps pretty sorting.
Local Open Scope Z_scope.

(* ===================================================================== *)
(** * Part I: the model                                                   *)
(* ===================================================================== *)

(** ** Numbers: rounding, casts and wrap-around *)

Module Numeric.

(** A float, NaN being [None]. *)
Definition float : Type := option Q.

Definition fadd (x : float) (c : Q) : float := option_map (fun q => (q + c)%Q) x.
Definition fmul (x : float) (c : Q) : float := option_map (fun q => (q * c)%Q) x.

(** [numpy.round]: to the nearest integer, ties to the even one. *)
Definition round_half_even (q : Q) : Z :=
  let f := Qfloor q in
  match Qcompare (q - inject_Z f) (1 # 2) with
  | Lt => f
  | Eq => if Z.even f then f else f + 1
  | Gt => f + 1
  end.

Definition fround (x : float) : float :=
  option_map (fun q => inject_Z (round_half_even q)) x.

(** Conversion of a float to an integer drops the fraction (toward zero). *)
Definition Qtruncate (q : Q) : Z := Z.quot (Qnum q) (Zpos (Qden q)).

(** Two's complement wrap-around of [bits]-bit integer arithmetic. *)
Definition wrap (bits : Z) (z : Z) : Z :=
  (z + 2 ^ (bits - 1)) mod 2 ^ bits - 2 ^ (bits - 1).
Definition wrap32 : Z -> Z := wrap 32.
Definition wrap64 : Z -> Z := wrap 64.

Definition in_int32 (z : Z) : bool := (- 2 ^ 31 <=? z) && (z <? 2 ^ 31).

(** [.astype(np.int32)] of a float array element.  What the cast yields for
    NaN and for values outside the int32 range depends on the platform; it is
    the parameter [invalid_cast]. *)
Definition astype_int32 (invalid_cast : Z) (x : float) : Z :=
  match x with
  | None => invalid_cast
  | Some q => let z := Qtruncate q in if in_int32 z then z else invalid_cast
  end.

(** [round(x, 1)]: one decimal, ties to even. *)
Definition round_1dp (x : Q) : Q := (inject_Z (round_half_even (x * 10)) / 10)%Q.

End Numeric.

(** ** Encoder (main.py, "Data Upload / Encoding") *)

Module Encoder.
Import Numeric.

Definition ns_per_second : Z := 1000000000.
Definition ns_per_day : Z := 86400 * ns_per_second.

Section Encode.
Variable invalid_cast : Z.

(** [((x + 100) * 10).round().astype(np.int32)] *)
Definition tenths (x : float) : Z :=
  astype_int32 invalid_cast (fround (fmul (fadd x 100) 10)).

(** [ds.time_offset] for one timestamp [t], given the first timestamp [t0] of
    the grid: [(dt.seconds / 3600 + dt.days * 24).round().astype(int)].  The
    accessors split the duration into whole days and the remaining whole
    seconds (in 0..86399). *)
Definition time_offset (t0 t : Z) : Z :=
  let td := t - t0 in
  let seconds := (td mod ns_per_day) / ns_per_second in
  let days := td / ns_per_day in
  round_half_even (inject_Z seconds / 3600 + inject_Z (days * 24))%Q.

(** One element of [ds.encoded_temp_times] after the three assignments.  The
    first two products and the sum are int32 arithmetic, the last sum is
    int64 (the offsets are int64). *)
Definition encoded_temp_times (utci wbgt : float) (offset : Z) : Z :=
  let e1 := tenths utci in
  let e2 := wrap32 (wrap32 (e1 * 2000) + tenths wbgt) in
  wrap64 (wrap32 (e2 * 200) + offset).

End Encode.

(** Modelled from the spec: the decoder is not part of this repository (the
    consumers of the forecast collection decode); section 4.6 gives it as
    successive integer division and modulo by 200, then by 2000. *)
Definition decode (code : Z) : Q * Q * Z :=
  let h := code mod 200 in
  let w := code / 200 in
  ((inject_Z (w / 2000) / 10 - 100)%Q, (inject_Z (w mod 2000) / 10 - 100)%Q, h).

End Encoder.


(** ** float64 arithmetic of the encoding (main.py, lines 257-262) *)

Module Binary64.
Import Numeric.

(** The position of the leading bit of a positive rational: the [e] with
    [2^e <= q < 2^(e+1)]. *)
Definition ilog2 (q : Q) : Z :=
  let e := Z.log2 (Qnum q) - Z.log2 (Zpos (Qden q)) in
  if Qle_bool (Qpower 2 e) q then e else e - 1.

(** IEEE 754 binary64 rounding of an exact result, for results in the normal
    range: the nearest number with a significand of 53 bits, ties to the even
    significand. *)
Definition round_binary64 (q : Q) : Q :=
  if Qeq_bool q 0 then 0%Q
  else
    let a := Qabs q in
    let ulp := Qpower 2 (ilog2 a - 52) in
    let r := (inject_Z (round_half_even (a / ulp)) * ulp)%Q in
    Qred (if Qle_bool 0 q then r else (- r)%Q).

(** [((x + 100) * 10).round().astype(np.int32)] as numpy computes it on a
    float64 element: the sum and the product are each rounded to binary64. *)
Definition tenths_binary64 (invalid_cast : Z) (x : float) : Z :=
  astype_int32 invalid_cast
    (fround (option_map (fun q => round_binary64 (round_binary64 (q + 100) * 10)) x)).

End Binary64.

(** ** ChartShifter: hour-angle buckets (main.py, "shift data according to
    hour angle") *)

Module ChartShifter.
Import Numeric.

(** [hour_angle = (ds.lon / 15).round().astype(int)], for one longitude in
    degrees. *)
Definition hour_angle (lon : Q) : Z := round_half_even (lon / 15)%Q.

(** [utc_hour_angle = xr.where(hour_angle > 12, hour_angle - 24, hour_angle)] *)
Definition utc_hour_angle (lon : Q) : Z :=
  let h := hour_angle lon in
  if h >? 12 then h - 24 else h.

End ChartShifter.

(** ** RetentionPlanner (main.py, "Times") *)

Module RetentionPlanner.

Definition ns_per_hour : Z := 3600 * Encoder.ns_per_second.

(** [pd.Timedelta(n, "h")] and [pd.Timedelta(n, "d")] *)
Definition hours (n : Z) : Z := n * ns_per_hour.
Definition days (n : Z) : Z := n * Encoder.ns_per_day.

(** [Timestamp.floor("d")] *)
Definition floor_day (t : Z) : Z := t / Encoder.ns_per_day * Encoder.ns_per_day.

Section Times.
(** [utc_now] is [pd.Timestamp.utcnow()], [first_time] is [ds.time[0]] of the
    newly computed grid. *)
Variables (utc_now first_time : Z).

Definition earliest_global_chart_to_update : Z := floor_day first_time.

Definition earliest_current_haa_utc_date : Z := floor_day (utc_now - hours 11).

Definition earliest_global_chart_date : Z := earliest_current_haa_utc_date - days 1.

Definition earliest_global_chart_data : Z :=
  earliest_global_chart_to_update - hours 12.

Definition earliest_forecast_time : Z := floor_day (utc_now - hours 25).

Definition earliest_necessary_data : Z :=
  Z.min earliest_forecast_time earliest_global_chart_data.

End Times.

(** [floor_to_day] as section 4.4 of the spec means it, said without the
    code's arithmetic, to compare [floor_day] with: [d] is [floor_to_day t]
    when [d] is a midnight (a whole number of days of 86,400,000,000,000 ns
    after the epoch) and [t] lies in the day that starts at [d]. *)
Definition is_floor_to_day (t d : Z) : Prop :=
  (exists k : Z, d = k * 86400000000000) /\ d <= t < d + 86400000000000.

End RetentionPlanner.

(** ** Merger (main.py, "merge old with new") *)

Module Merger.

(** An xarray dataset with the variables [utci] and [wbgt] over the
    dimensions (lat, lon, time).  The coordinate arrays are lists; an array
    of floats is a finite map from the labels of a cell to its value, a cell
    without entry being NaN. *)
Record Dataset : Type := mkDataset {
  lat : list Z;
  lon : list Z;
  time : list Z;
  utci : gmap (Z * Z * Z) Q;
  wbgt : gmap (Z * Z * Z) Q
}.

(** The two data variables, and the array of each. *)
Inductive variable : Type := Utci | Wbgt.

Definition values (v : variable) (ds : Dataset) : gmap (Z * Z * Z) Q :=
  match v with Utci => utci ds | Wbgt => wbgt ds end.

(** The timestamp of a cell key. *)
Definition key_time (k : Z * Z * Z) : Z := k.2.

(** [.sel(time=slice(cutoff, None))]: on an increasing time index the label
    slice keeps the timestamps from [cutoff] on, bounds included. *)
Definition sel_time_var (cutoff : Z) (a : gmap (Z * Z * Z) Q) : gmap (Z * Z * Z) Q :=
  filter (fun kv => cutoff <= key_time kv.1) a.

Definition sel_time (cutoff : Z) (ds : Dataset) : Dataset :=
  {| lat := lat ds;
     lon := lon ds;
     time := filter (fun t => cutoff <= t) (time ds);
     utci := sel_time_var cutoff (utci ds);
     wbgt := sel_time_var cutoff (wbgt ds) |}.

(** Outer join of two indexes, as the alignment of [combine_first] does it:
    equal indexes are kept as they are, an empty index gives the other one,
    and otherwise the union of the labels is sorted. *)
Fixpoint insert_sorted (x : Z) (l : list Z) : list Z :=
  match l with
  | [] => [x]
  | y :: l' =>
      if x <? y then x :: l
      else if x =? y then l
      else y :: insert_sorted x l'
  end.

Definition sort_unique (l : list Z) : list Z := foldr insert_sorted [] l.

Definition index_union (a b : list Z) : list Z :=
  if decide (a = b) then a
  else match a, b with
       | [], _ => b
       | _, [] => a
       | _, _ => sort_unique (a ++ b)
       end.

(** [ds.combine_first(other)]: the coordinates are joined, and every cell
    takes the value of [ds] unless that is NaN, then the one of [other]. *)
Definition combine_first (ds other : Dataset) : Dataset :=
  {| lat := index_union (lat ds) (lat other);
     lon := index_union (lon ds) (lon other);
     time := index_union (time ds) (time other);
     utci := utci ds ∪ utci other;
     wbgt := wbgt ds ∪ wbgt other |}.

(** The merge of the new grid with the persisted one from [cutoff] on. *)
Definition merge (new prior : Dataset) (cutoff : Z) : Dataset :=
  combine_first new (sel_time cutoff prior).

(** The merge as [main] runs it: the cutoff is [earliest_necessary_data],
    computed from the clock and from [ds.time[0]] (which raises on a grid
    without timestamps). *)
Definition merge_step (utc_now : Z) (ds prior : Dataset) : option Dataset :=
  match time ds with
  | [] => None
  | first_time :: _ =>
      Some (merge ds prior
              (RetentionPlanner.earliest_necessary_data utc_now first_time))
  end.

(** Invariant of a dataset: the time index increases strictly and every cell
    with a value lies on the coordinates. *)
Definition on_coords (ds : Dataset) (k : Z * Z * Z) : Prop :=
  k.1.1 ∈ lat ds /\ k.1.2 ∈ lon ds /\ k.2 ∈ time ds.

Definition wf (ds : Dataset) : Prop :=
  StronglySorted Z.lt (time ds) /\
  forall v, map_Forall (fun k _ => on_coords ds k) (values v ds).

(** Sample grids on one cell (25.00 N, 5.00 E), hourly timestamps.  The new
    grid has no UTCI value (NaN) at hour 0; the persisted grid covers the
    hours -1 and 0. *)
Definition hour (h : Z) : Z := RetentionPlanner.hours h.

Definition sample_new : Dataset :=
  {| lat := [2500]; lon := [500]; time := [hour 0; hour 1];
     utci := {[ (2500, 500, hour 1) := (215 # 10)%Q ]};
     wbgt := {[ (2500, 500, hour 0) := (180 # 10)%Q;
                (2500, 500, hour 1) := (185 # 10)%Q ]} |}.

Definition sample_prior : Dataset :=
  {| lat := [2500]; lon := [500]; time := [hour (-1); hour 0];
     utci := {[ (2500, 500, hour (-1)) := (190 # 10)%Q;
                (2500, 500, hour 0) := (200 # 10)%Q ]};
     wbgt := {[ (2500, 500, hour (-1)) := (170 # 10)%Q;
                (2500, 500, hour 0) := (175 # 10)%Q ]} |}.

End Merger.

(** ** UploadBatch (main.py, "Data Upload") *)

Module Publish.
Import Numeric Encoder Merger.

(** A document of the forecast collection, and the upsert that writes it:
    [ReplaceOne({"_id": mongo_id}, dict(...), upsert=True)].  [forecastStart]
    is a [datetime.datetime]: a count of whole microseconds since the epoch. *)
Record Document : Type := mkDocument {
  _id : string;
  forecastStart : Z;
  tempTimesEncoded : list Z
}.

(** [ds.time[0].to_dict()["data"]]: xarray casts the [datetime64[ns]] value to
    [datetime64[us]] before [tolist()] turns it into a [datetime.datetime];
    the cast drops the nanoseconds below the microsecond (it rounds down,
    also before the epoch). *)
Definition to_dict_data (t : Z) : Z := t / 1000.

Record ReplaceOne : Type := mkReplaceOne {
  filter_id : string;
  replacement : Document;
  upsert : bool
}.

(** [f"{x:.2f}"] for a coordinate held in hundredths of a degree. *)
Definition two_digits (n : Z) : string := pretty (n / 10) +:+ pretty (n mod 10).

Definition format_2f (x : Z) : string :=
  (if x <? 0 then "-" else "") +:+ pretty (Z.abs x / 100) +:+ "."
  +:+ two_digits (Z.abs x mod 100).

Definition mongo_id (lat lon : Z) : string := format_2f lat +:+ "," +:+ format_2f lon.

Section Uploads.
(** [invalid_cast] is the platform's result of casting NaN to int32;
    [near_land] is the mask of near_land_complete_globe.nc at a cell. *)
Variable invalid_cast : Z.
Variable near_land : Z -> Z -> bool.

(** The row of [ds.encoded_temp_times.values] of one cell: the encoding runs
    over the whole time axis of [ds], the offsets counting from
    [first_time = ds.time[0]]. *)
Definition encoded_series (ds : Dataset) (first_time lat lon : Z) : list Z :=
  map (fun t => encoded_temp_times invalid_cast
                  (utci ds !! (lat, lon, t)) (wbgt ds !! (lat, lon, t))
                  (time_offset first_time t))
      (time ds).

(** The list [uploads]: one upsert per near-land cell, rows of latitude
    outermost.  [ds.time[0]] raises on a grid without timestamps.  The
    encoding has counted the offsets from [ds.time[0]] itself (line 263);
    [forecast_start] is that timestamp as a [datetime.datetime] (line 287). *)
Definition build_uploads (ds : Dataset) : option (list ReplaceOne) :=
  match time ds with
  | [] => None
  | first_time :: _ =>
      let forecast_start := to_dict_data first_time in
      Some (flat_map (fun lat =>
              flat_map (fun lon =>
                if near_land lat lon
                then [ {| filter_id := mongo_id lat lon;
                          replacement :=
                            {| _id := mongo_id lat lon;
                               forecastStart := forecast_start;
                               tempTimesEncoded :=
                                 encoded_series ds first_time lat lon |};
                          upsert := true |} ]
                else [])
                (Merger.lon ds))
              (Merger.lat ds))
  end.

End Uploads.

(** A grid on one cell whose only timestamp is not a whole number of
    microseconds: 1500 ns after the epoch. *)
Definition sample_fine : Dataset :=
  {| lat := [2500]; lon := [500]; time := [1500];
     utci := {[ (2500, 500, 1500) := (215 # 10)%Q ]};
     wbgt := {[ (2500, 500, 1500) := (185 # 10)%Q ]} |}.

End Publish.

(** ** Database (utils.py) over a world of remote state *)

Module Store.
Import Merger Publish.

(** The status document, [{"_id": "status"}]. *)
Record StatusDocument : Type := mkStatus {
  isUpdating : bool;
  latestSuccessfulUpdateSource : string;
  globalCharts : gmap string string
}.

(** A field path with the value a [$set] gives it. *)
Inductive assignment : Type :=
  | SetIsUpdating (b : bool)
  | SetLatestSuccessfulUpdateSource (source : string)
  | SetGlobalChart (date label : string).

Definition apply_set (a : assignment) (doc : StatusDocument) : StatusDocument :=
  match a with
  | SetIsUpdating b =>
      mkStatus b (latestSuccessfulUpdateSource doc) (globalCharts doc)
  | SetLatestSuccessfulUpdateSource s =>
      mkStatus (isUpdating doc) s (globalCharts doc)
  | SetGlobalChart date label =>
      mkStatus (isUpdating doc) (latestSuccessfulUpdateSource doc)
               (<[date := label]> (globalCharts doc))
  end.

Definition apply_unset_chart (date : string) (doc : StatusDocument) : StatusDocument :=
  mkStatus (isUpdating doc) (latestSuccessfulUpdateSource doc)
           (delete date (globalCharts doc)).

(** Exceptions: the reconnect error the decorators retry on, and all others. *)
Inductive exn : Type :=
  | AutoReconnect
  | Error (message : string).

(** A failing database call: what it raises, and for an unordered bulk write
    which of its operations were applied all the same. *)
Record fault : Type := mkFault {
  raised : exn;
  applied : list bool
}.

(** What a run does to the outside, in order. *)
Inductive event : Type :=
  | EvFetchStatus (doc : StatusDocument)
  | EvScrape
  | EvSetStatus (a : assignment)
  | EvUnsetChart (date : string)
  | EvBulkWrite (ops : list ReplaceOne)
  | EvSaveBlob.

(** The world: the remote status document, forecast collection and persisted
    grid, the outcomes of the database calls to come (none left: they
    succeed), and the log of what happened. *)
Record World : Type := mkWorld {
  status : StatusDocument;
  forecasts : gmap string Document;
  blob : option Dataset;
  faults : list (option fault);
  trace : list event
}.

(** Computations that read and write the world and may raise. *)
Definition M (A : Type) : Type := World -> (A + exn) * World.

#[export] Instance M_ret : MRet M := fun A x w => (inl x, w).

#[export] Instance M_bind : MBind M := fun A B f m w =>
  match m w with
  | (inl x, w') => f x w'
  | (inr e, w') => (inr e, w')
  end.

Definition raise {A : Type} (e : exn) : M A := fun w => (inr e, w).

(** [try: body finally: cleanup] *)
Definition finally {A : Type} (body : M A) (cleanup : M unit) : M A := fun w =>
  let '(r, w1) := body w in
  match cleanup w1 with
  | (inl _, w2) => (r, w2)
  | (inr e, w2) => (inr e, w2)
  end.

Definition from_option {A : Type} (e : exn) (o : option A) : M A :=
  match o with Some x => mret x | None => raise e end.

Definition from_result {A : Type} (r : A + exn) : M A :=
  match r with inl x => mret x | inr e => raise e end.

Fixpoint for_each {A : Type} (l : list A) (f : A -> M unit) : M unit :=
  match l with
  | [] => mret tt
  | x :: l' => f x ;; for_each l' f
  end.

Definition log (ev : event) : M unit := fun w =>
  (inl tt, mkWorld (status w) (forecasts w) (blob w) (faults w) (trace w ++ [ev])).

Definition next_fault : M (option fault) := fun w =>
  match faults w with
  | [] => (inl None, w)
  | f :: fs => (inl f, mkWorld (status w) (forecasts w) (blob w) fs (trace w))
  end.

Definition modify_status (f : StatusDocument -> StatusDocument) : M unit := fun w =>
  (inl tt, mkWorld (f (status w)) (forecasts w) (blob w) (faults w) (trace w)).

Definition modify_forecasts
    (f : gmap string Document -> gmap string Document) : M unit := fun w =>
  (inl tt, mkWorld (status w) (f (forecasts w)) (blob w) (faults w) (trace w)).

(** *** The driver calls *)

(** [db.status.find_one({"_id": "status"})] *)
Definition find_one : M StatusDocument :=
  f ← next_fault;
  match f with
  | Some ft => raise (raised ft)
  | None => fun w => (log (EvFetchStatus (status w)) ;; mret (status w)) w
  end.

(** [db.status.update_one({"_id": "status"}, {"$set": {field: value}})] *)
Definition update_one_set (a : assignment) : M unit :=
  f ← next_fault;
  match f with
  | Some ft => raise (raised ft)
  | None => modify_status (apply_set a) ;; log (EvSetStatus a)
  end.

(** [db.status.update_one({"_id": "status"}, {"$unset": {field: ""}})] *)
Definition update_one_unset (date : string) : M unit :=
  f ← next_fault;
  match f with
  | Some ft => raise (raised ft)
  | None => modify_status (apply_unset_chart date) ;; log (EvUnsetChart date)
  end.

Definition apply_ops (ops : list ReplaceOne)
    (coll : gmap string Document) : gmap string Document :=
  foldl (fun c op => <[filter_id op := replacement op]> c) coll ops.

Definition applied_ops (mask : list bool) (ops : list ReplaceOne) : list ReplaceOne :=
  flat_map (fun p : ReplaceOne * bool => if p.2 then [p.1] else []) (zip ops mask).

(** [db.forecasts.bulk_write(operation, ordered=False)]; the driver refuses an
    empty list of operations. *)
Definition bulk_write (ops : list ReplaceOne) : M unit :=
  match ops with
  | [] => raise (Error "No operations to execute")
  | _ =>
      f ← next_fault;
      match f with
      | Some ft =>
          modify_forecasts (apply_ops (applied_ops (applied ft) ops)) ;;
          raise (raised ft)
      | None => modify_forecasts (apply_ops ops) ;; log (EvBulkWrite ops)
      end
  end.

(** *** The methods of [Database] *)

(** [@retry(AutoReconnect, tries=tries, delay=0)], for [tries] of at least
    one (the methods use 2): the call is made again on [AutoReconnect] while
    tries are left; the last failure, and any other exception, is raised. *)
Fixpoint retry {A : Type} (tries : nat) (call : M A) : M A :=
  match tries with
  | S (S _ as n) => fun w =>
      match call w with
      | (inr AutoReconnect, w') => retry n call w'
      | r => r
      end
  | _ => call
  end.

Definition upload_forecasts (operation : list ReplaceOne) : M unit :=
  retry 2 (bulk_write operation).

Definition set_status (a : assignment) : M unit := retry 2 (update_one_set a).

Definition fetch_status : M StatusDocument := retry 2 find_one.

Definition delete_from_status (date : string) : M unit :=
  retry 2 (update_one_unset date).

(** *** Frame conditions

    [preserves R m]: running [m] takes every world to one related by [R]. *)
Definition preserves (R : World -> World -> Prop) {A : Type} (m : M A) : Prop :=
  forall w, R w (m w).2.

(** A relation between worlds that is kept by every step which does not
    write [latestSuccessfulUpdateSource]. *)
Record frame (R : World -> World -> Prop) : Prop := mkFrame {
  frame_refl : forall w, R w w;
  frame_trans : forall w1 w2 w3, R w1 w2 -> R w2 w3 -> R w1 w3;
  frame_faults : forall w fs,
    R w (mkWorld (status w) (forecasts w) (blob w) fs (trace w));
  frame_trace : forall w ev,
    R w (mkWorld (status w) (forecasts w) (blob w) (faults w) (trace w ++ [ev]));
  frame_forecasts : forall w c,
    R w (mkWorld (status w) c (blob w) (faults w) (trace w));
  frame_blob : forall w b,
    R w (mkWorld (status w) (forecasts w) b (faults w) (trace w));
  frame_status : forall w doc,
    latestSuccessfulUpdateSource doc = latestSuccessfulUpdateSource (status w) ->
    R w (mkWorld doc (forecasts w) (blob w) (faults w) (trace w))
}.

Definition same_source (w w' : World) : Prop :=
  latestSuccessfulUpdateSource (status w') = latestSuccessfulUpdateSource (status w).

Definition trace_extends (w w' : World) : Prop :=
  exists evs, trace w' = trace w ++ evs.

Definition raises {A : Type} (r : A + exn) : Prop := exists e, r = inr e.

(** An assignment to a field other than [latestSuccessfulUpdateSource]. *)
Definition other_field (a : assignment) : Prop :=
  match a with SetLatestSuccessfulUpdateSource _ => False | _ => True end.

End Store.

(** ** UploadOrchestrator (main.py, the chunked upload loop) *)

Module Orchestrator.
Import Publish Store.

(** [np.array_split(ary, sections)]: the first [total mod sections] parts
    have one element more than the others. *)
Definition section_sizes (total sections : nat) : list nat :=
  repeat (total / sections + 1)%nat (total mod sections)%nat
  ++ repeat (total / sections)%nat (sections - total mod sections)%nat.

Fixpoint split_at_sizes {A : Type} (sizes : list nat) (l : list A) : list (list A) :=
  match sizes with
  | [] => []
  | n :: sizes' => take n l :: split_at_sizes sizes' (drop n l)
  end.

Definition array_split {A : Type} (l : list A) (sections : nat) : list (list A) :=
  split_at_sizes (section_sizes (length l) sections) l.

Definition candidates : list nat := [12; 13; 15; 20; 30; 50; 100]%nat.

(** The body of the [try]: every chunk is uploaded in turn; the first
    exception leaves the inner loop. *)
Definition upload_attempt (uploads : list ReplaceOne) (i : nat) : M unit :=
  for_each (array_split uploads i) upload_forecasts.

(** [for i in counts: try: ...; break / except Exception as err: if i == 100:
    raise err] *)
Fixpoint upload_loop_over (counts : list nat) (uploads : list ReplaceOne) : M unit :=
  match counts with
  | [] => mret tt
  | i :: rest => fun w =>
      match upload_attempt uploads i w with
      | (inl _, w') => (inl tt, w')
      | (inr err, w') =>
          if (i =? 100)%nat then (inr err, w')
          else upload_loop_over rest uploads w'
      end
  end.

Definition upload_loop (uploads : list ReplaceOne) : M unit :=
  upload_loop_over candidates uploads.

(** *** The escalation as section 4.7 of the spec words it

    [commits parts w r]: the parts are committed one after the other from
    world [w]; an exception abandons the remaining parts.  [escalates uploads
    counts w r]: the batch is split into the first count of parts and
    committed; success ends the escalation; on an exception the whole batch
    is tried again with the next count, and an exception at count 100 is
    fatal. *)
Inductive commits : list (list ReplaceOne) -> World -> (unit + exn) * World -> Prop :=
  | commits_done w :
      commits [] w (inl tt, w)
  | commits_part part parts w w1 r :
      upload_forecasts part w = (inl tt, w1) ->
      commits parts w1 r ->
      commits (part :: parts) w r
  | commits_abandon part parts w w1 err :
      upload_forecasts part w = (inr err, w1) ->
      commits (part :: parts) w (inr err, w1).

Inductive escalates (uploads : list ReplaceOne) :
    list nat -> World -> (unit + exn) * World -> Prop :=
  | escalates_success i rest w w1 :
      commits (array_split uploads i) w (inl tt, w1) ->
      escalates uploads (i :: rest) w (inl tt, w1)
  | escalates_retry i rest w w1 err r :
      commits (array_split uploads i) w (inr err, w1) ->
      i <> 100%nat ->
      escalates uploads rest w1 r ->
      escalates uploads (i :: rest) w r
  | escalates_fatal rest w w1 err :
      commits (array_split uploads 100) w (inr err, w1) ->
      escalates uploads (100%nat :: rest) w (inr err, w1).

End Orchestrator.

(** ** The run (main.py, [main]) *)

Module Main.
Import Merger Publish Store Orchestrator.

(** What a run finds outside the database: its configuration, the outcome of
    the link scraping, what other processes do to the status document while
    it scrapes, the grid the field pipeline computes from a source, the
    clock, the near-land mask, and the outcomes of the blob transfers and of
    the chart renderings (raising, or whether the upload answered 201). *)
Record Env : Type := mkEnv {
  DATA_SOURCE_URL : option string;
  scraped : string + exn;
  concurrent : StatusDocument -> StatusDocument;
  computed : string -> Dataset + exn;
  utc_now : Z;
  near_land : Z -> Z -> bool;
  invalid_cast : Z;
  download_fault : option exn;
  save_fault : option exn;
  source_label : string -> option string;
  stale_chart : string -> bool;
  charts : list (string * (bool + exn))
}.

(** [if not DATA_SOURCE_URL]: unset and empty both count as no override. *)
Definition source_override (env : Env) : option string :=
  match DATA_SOURCE_URL env with
  | Some url => if String.eqb url "" then None else Some url
  | None => None
  end.

(** The web scraping for the newest source.  It takes time: other processes
    may have written the status document when it returns. *)
Definition scrape (env : Env) : M string := fun w =>
  from_result (scraped env)
    (mkWorld (concurrent env (status w)) (forecasts w) (blob w) (faults w)
             (trace w ++ [EvScrape])).

(** Lines 31-75: the checks before the update.  [None]: the run exits;
    [Some (cached, data_source)]: it updates from [data_source], [cached]
    being [db.status]. *)
Definition gate (env : Env) : M (option (StatusDocument * string)) :=
  db_status ← fetch_status;
  if isUpdating db_status then mret None
  else
    match source_override env with
    | None =>
        let previous_data_source := latestSuccessfulUpdateSource db_status in
        data_source ← scrape env;
        if String.eqb data_source previous_data_source then mret None
        else
          db_status ← fetch_status;
          if isUpdating db_status then mret None
          else mret (Some (db_status, data_source))
    | Some data_source => mret (Some (db_status, data_source))
    end.

Definition download_previous (env : Env) : M Dataset :=
  match download_fault env with
  | Some e => raise e
  | None => fun w => from_option (Error "previous data not found") (blob w) w
  end.

Definition save_to_cloud (env : Env) (ds : Dataset) : M unit :=
  match save_fault env with
  | Some e => raise e
  | None => fun w =>
      (inl tt, mkWorld (status w) (forecasts w) (Some ds) (faults w)
                       (trace w ++ [EvSaveBlob]))
  end.

(** Lines 81-305: the grid is computed, merged with the persisted one and
    encoded into the list of uploads. *)
Definition compute_uploads (env : Env) (data_source : string) : M (Dataset * list ReplaceOne) :=
  ds ← from_result (computed env data_source);
  previous ← download_previous env;
  merged ← from_option (Error "index 0 is out of bounds")
             (merge_step (utc_now env) ds previous);
  uploads ← from_option (Error "index 0 is out of bounds")
              (build_uploads (invalid_cast env) (near_land env) merged);
  mret (merged, uploads).

(** Lines 79-305: the flag is set, then the uploads are computed. *)
Definition prepare (env : Env) (data_source : string) : M (Dataset * list ReplaceOne) :=
  set_status (SetIsUpdating true) ;;
  compute_uploads env data_source.

(** Lines 341-443: stale chart entries are removed from the status, then
    every chart whose upload answers 201 is recorded. *)
Definition charting (env : Env) (db_status : StatusDocument) (data_source : string) : M unit :=
  for_each (filter (fun date => stale_chart env date = true)
                   (map_to_list (globalCharts db_status)).*1)
           delete_from_status ;;
  label ← from_option (Error "'NoneType' object has no attribute 'groups'")
            (source_label env data_source);
  for_each (charts env) (fun chart =>
    match chart.2 with
    | inr e => raise e
    | inl created =>
        if created then set_status (SetGlobalChart chart.1 label) else mret tt
    end).

(** Lines 326-443: what follows the upload loop. *)
Definition after_upload (env : Env) (db_status : StatusDocument)
    (data_source : string) (merged : Dataset) : M unit :=
  set_status (SetLatestSuccessfulUpdateSource data_source) ;;
  save_to_cloud env merged ;;
  charting env db_status data_source.

(** The body of the [try]. *)
Definition etl (env : Env) (db_status : StatusDocument) (data_source : string) : M unit :=
  p ← prepare env data_source;
  upload_loop p.2 ;;
  after_upload env db_status data_source p.1.

Definition main (env : Env) : M unit :=
  g ← gate env;
  match g with
  | None => mret tt
  | Some (db_status, data_source) =>
      finally (etl env db_status data_source) (set_status (SetIsUpdating false))
  end.

(** The status reads of a run before it sets [isUpdating] to true, if it
    does. *)
Fixpoint checks_before_update (evs : list event) : option (list StatusDocument) :=
  match evs with
  | [] => None
  | EvSetStatus (SetIsUpdating true) :: _ => Some []
  | EvFetchStatus doc :: evs' => cons doc <$> checks_before_update evs'
  | _ :: evs' => checks_before_update evs'
  end.

(** *** Sample runs: the source is given by the configuration, the store
    holds the sample prior grid, the pipeline computes the sample new grid
    (one near-land cell) or a grid of twelve near-land cells. *)
Definition sample_source : string :=
  "http://nomads.ncep.noaa.gov:80/dods/gfs_0p25_1hr/gfs20230101/gfs_0p25_1hr_00z".

Definition sample_previous_source : string :=
  "http://nomads.ncep.noaa.gov:80/dods/gfs_0p25_1hr/gfs20221231/gfs_0p25_1hr_18z".

Definition sample_world (script : list (option fault)) : World :=
  mkWorld (mkStatus false sample_previous_source ∅) ∅ (Some sample_prior) script [].

Definition filled (lats lons times : list Z) (x : Q) : gmap (Z * Z * Z) Q :=
  list_to_map
    (flat_map (fun la => flat_map (fun lo => map (fun t => ((la, lo, t), x)) times) lons)
              lats).

Definition sample_wide : Dataset :=
  let lats := [2500; 2525; 2550] in
  let lons := [500; 525; 550; 575] in
  let times := [hour 0; hour 1] in
  mkDataset lats lons times (filled lats lons times (215 # 10)%Q)
            (filled lats lons times (185 # 10)%Q).

Definition sample_env (new : Dataset) (save : option exn) : Env :=
  {| DATA_SOURCE_URL := Some sample_source;
     scraped := inl sample_source;
     concurrent := fun doc => doc;
     computed := fun _ => inl new;
     utc_now := hour 30;
     near_land := fun _ _ => true;
     invalid_cast := - 2 ^ 31;
     download_fault := None;
     save_fault := save;
     source_label := fun _ => Some "2023-01-01_00z";
     stale_chart := fun _ => false;
     charts := [("2023-01-01", inl true)] |}.

End Main.

(** ** FieldPipeline, stage 5 (main.py, "Wind Speed") *)

Module FieldPipeline.

(** [np.hypot], on reals. *)
Definition hypot (x y : R) : R := sqrt (x * x + y * y).

(** The variables of the dataset by name, each array flattened.  Reading or
    dropping a variable that is not there raises ([None]). *)
Definition wind_speed_stage (ds : gmap string (list R)) : option (gmap string (list R)) :=
  ugrd10m ← ds !! "ugrd10m";
  _ ← ds !! "vgrd10m";
  let ds := <["wind_speed" := zip_with hypot ugrd10m ugrd10m]> ds in
  Some (delete "ugrd10m" (delete "vgrd10m" ds)).

End FieldPipeline.

(** ** ChartShifter: the shift of the time axis (main.py, the loop over
    [np.unique(utc_hour_angle)]) *)

Module HourAngleShift.
Import Numeric ChartShifter.

(** A cell of the array that is charted: its longitude and its values along
    time. *)
Definition cell : Type := (Q * list float)%type.

(** [ds.shift(time=k)] on the series of a cell: the values move [k] positions
    toward later times (earlier for a negative [k]); the positions left
    vacant are NaN. *)
Definition shift (k : Z) (s : list float) : list float :=
  let n := length s in
  if 0 <=? k
  then replicate (Nat.min (Z.to_nat k) n) None ++ take (n - Z.to_nat k) s
  else drop (Z.to_nat (- k)) s ++ replicate (Nat.min (Z.to_nat (- k)) n) None.

(** [ds.where(utc_hour_angle != offset, other=ds.shift(time=offset))] *)
Definition where_shift (offset : Z) (ds : list cell) : list cell :=
  map (fun c : cell =>
         if utc_hour_angle c.1 =? offset then (c.1, shift offset c.2) else c)
      ds.

(** [np.unique(utc_hour_angle)]: the distinct buckets, in increasing order. *)
Definition unique_offsets (ds : list cell) : list Z :=
  Merger.sort_unique (map (fun c : cell => utc_hour_angle c.1) ds).

(** [for offset in np.unique(utc_hour_angle): ds = ds.where(...)] *)
Definition shift_by_hour_angle (ds : list cell) : list cell :=
  foldl (fun d offset => where_shift offset d) ds (unique_offsets ds).

End HourAngleShift.

(** ** Characters of a document key *)

Module Text.

Fixpoint all_chars (P : ascii -> bool) (s : string) : bool :=
  match s with
  | EmptyString => true
  | String c s' => P c && all_chars P s'
  end.

Definition is_digit (c : ascii) : bool :=
  (48 <=? nat_of_ascii c)%nat && (nat_of_ascii c <=? 57)%nat.

Definition is_not (sep : ascii) (c : ascii) : bool := negb (Ascii.eqb c sep).

End Text.

(** ** What a sequence of upserts does to the collection *)

Module Collection.
Import Publish Store.

(** The replacement that the last upsert with key [k] in [ops] writes. *)
Fixpoint last_write (ops : list ReplaceOne) (k : string) : option Document :=
  match ops with
  | [] => None
  | op :: ops' =>
      match last_write ops' k with
      | Some d => Some d
      | None => if decide (filter_id op = k) then Some (replacement op) else None
      end
  end.

(** [upserted ops w w']: from [w] to [w'] the status document and the
    persisted grid are the same, and the collection has received upserts of
    [ops] only. *)
Definition upserted (ops : list ReplaceOne) (w w' : World) : Prop :=
  status w' = status w /\ blob w' = blob w /\
  exists sub, Forall (fun op => op ∈ ops) sub /\
              forecasts w' = apply_ops sub (forecasts w).

End Collection.

(** ** Observations on a run *)

Module Effects.
Import Merger Publish Store Main.

(** Events that read: the status reads and the scraping. *)
Definition reads_only (evs : list event) : Prop :=
  Forall (fun ev => match ev with
                    | EvFetchStatus _ | EvScrape => True
                    | _ => False
                    end) evs.

(** From [w] to [w'] the run has written nothing: the collection and the
    persisted grid are the same, the status document is as the store has it
    (other processes may have written it during the scraping), and only
    reads were logged. *)
Definition nothing_written (env : Env) (w w' : World) : Prop :=
  forecasts w' = forecasts w /\ blob w' = blob w /\
  (status w' = status w \/ status w' = concurrent env (status w)) /\
  exists evs, trace w' = trace w ++ evs /\ reads_only evs.

(** A relation between worlds that every step of a run keeps: the script of
    faults is only consumed from the front, everything else may change. *)
Record steps (R : World -> World -> Prop) : Prop := mkSteps {
  steps_refl : forall w, R w w;
  steps_trans : forall w1 w2 w3, R w1 w2 -> R w2 w3 -> R w1 w3;
  steps_pop : forall w f fs,
    faults w = f :: fs -> R w (mkWorld (status w) (forecasts w) (blob w) fs (trace w));
  steps_write : forall w st fc bl tr,
    R w (mkWorld st fc bl (faults w) tr)
}.

(** No fault is left in the script if none was. *)
Definition quiet (w w' : World) : Prop := faults w = [] -> faults w' = [].

(** The state of the stores in a world where no fault is left. *)
Definition settled (w : World) (st : StatusDocument)
    (fc : gmap string Document) (bl : option Dataset) : Prop :=
  faults w = [] /\ status w = st /\ forecasts w = fc /\ blob w = bl.

(** The chart entries of the status after the charting stage: the stale
    dates among those the run has read are removed, then every chart whose
    upload was answered with 201 is recorded under its date. *)
Definition charts_after (stale : string -> bool) (seen : gmap string string)
    (label : string) (charts : list (string * (bool + exn)))
    (g : gmap string string) : gmap string string :=
  foldl (fun g (c : string * (bool + exn)) =>
           match c.2 with inl true => <[c.1 := label]> g | _ => g end)
        (foldl (fun g date => delete date g) g
               (filter (fun date => stale date = true) (map_to_list seen).*1))
        charts.

End Effects.
(* ===================================================================== *)
(** * Part II: properties                                                 *)
(* ===================================================================== *)

Module NumericFacts.
Import Numeric.

Lemma round_half_even_floor (q : Q) :
  Qfloor q <= round_half_even q <= Qfloor q + 1.
Proof.
  unfold round_half_even.
  destruct (Qcompare _ _); [destruct (Z.even _)| |]; lia.
Qed.

Lemma round_half_even_inject (z : Z) : round_half_even (inject_Z z) = z.
Proof.
  unfold round_half_even. rewrite Qfloor_Z.
  assert (H : (inject_Z z - inject_Z z == 0)%Q) by ring.
  rewrite (Qcompare_comp _ _ H _ _ (Qeq_refl _)). reflexivity.
Qed.

Lemma round_half_even_comp (p q : Q) :
  (p == q)%Q -> round_half_even p = round_half_even q.
Proof.
  intros H. unfold round_half_even.
  rewrite (Qfloor_comp _ _ H).
  assert (H' : (p - inject_Z (Qfloor q) == q - inject_Z (Qfloor q))%Q)
    by (rewrite H; reflexivity).
  rewrite (Qcompare_comp _ _ H' _ _ (Qeq_refl _)). reflexivity.
Qed.

Lemma Qfloor_add_inject (q : Q) (k : Z) : Qfloor (q + inject_Z k) = Qfloor q + k.
Proof.
  destruct q as [n d]. unfold Qfloor, Qplus, inject_Z. simpl.
  rewrite Pos.mul_1_r, Z.mul_1_r.
  rewrite Z.div_add by lia. reflexivity.
Qed.

(** Shifting by an even integer commutes with rounding. *)
Lemma round_half_even_shift (q : Q) (k : Z) :
  round_half_even (q + inject_Z (2 * k)) = round_half_even q + 2 * k.
Proof.
  unfold round_half_even. rewrite Qfloor_add_inject.
  assert (H : (q + inject_Z (2 * k) - inject_Z (Qfloor q + 2 * k)
               == q - inject_Z (Qfloor q))%Q).
  { rewrite inject_Z_plus. ring. }
  rewrite (Qcompare_comp _ _ H _ _ (Qeq_refl _)).
  rewrite Z.even_add_mul_2.
  destruct (Qcompare _ _); [destruct (Z.even _)| |]; lia.
Qed.

Lemma round_half_even_bounds (q : Q) (a b : Z) :
  (inject_Z a <= q)%Q -> (q <= inject_Z b)%Q -> a <= round_half_even q <= b.
Proof.
  intros Ha Hb.
  pose proof (round_half_even_floor q) as [Hlo Hhi].
  assert (Hfa : a <= Qfloor q).
  { rewrite <- (Qfloor_Z a). apply Qfloor_resp_le. exact Ha. }
  assert (Hfb : Qfloor q <= b).
  { rewrite <- (Qfloor_Z b). apply Qfloor_resp_le. exact Hb. }
  split; [lia|].
  destruct (Z.eq_dec (Qfloor q) b) as [E|NE]; [|lia].
  unfold round_half_even.
  assert (Hlt : (q - inject_Z (Qfloor q) ?= 1 # 2)%Q = Lt).
  { apply Qlt_alt. rewrite E.
    apply Qle_lt_trans with (y := 0%Q); [|reflexivity].
    apply (Qplus_le_l _ _ (inject_Z b)). ring_simplify. exact Hb. }
  rewrite Hlt. lia.
Qed.

Lemma Qtruncate_inject (z : Z) : Qtruncate (inject_Z z) = z.
Proof. unfold Qtruncate. simpl. apply Z.quot_1_r. Qed.

Lemma wrap32_small (z : Z) : - 2 ^ 31 <= z < 2 ^ 31 -> wrap32 z = z.
Proof.
  intros H. unfold wrap32, wrap. simpl Z.sub.
  rewrite Z.mod_small; lia.
Qed.

Lemma wrap64_small (z : Z) : - 2 ^ 63 <= z < 2 ^ 63 -> wrap64 z = z.
Proof.
  intros H. unfold wrap64, wrap. simpl Z.sub.
  rewrite Z.mod_small; lia.
Qed.

Lemma astype_int32_round (invalid_cast : Z) (q : Q) :
  - 2 ^ 31 <= round_half_even q < 2 ^ 31 ->
  astype_int32 invalid_cast (fround (Some q)) = round_half_even q.
Proof.
  intros H. unfold astype_int32, fround. simpl.
  rewrite Qtruncate_inject. unfold in_int32.
  destruct (Z.leb_spec (- 2 ^ 31) (round_half_even q)); [|lia].
  destruct (Z.ltb_spec (round_half_even q) (2 ^ 31)); [|lia].
  reflexivity.
Qed.

End NumericFacts.

(** ** Encoder *)

Module EncoderFacts.
Import Numeric NumericFacts Encoder.

Lemma tenths_in_range (invalid_cast : Z) (x : Q) :
  (-100 <= x)%Q -> (x <= 999 # 10)%Q ->
  tenths invalid_cast (Some x) = round_half_even ((x + 100) * 10) /\
  0 <= round_half_even ((x + 100) * 10) <= 1999.
Proof.
  intros Hlo Hhi.
  assert (B : 0 <= round_half_even ((x + 100) * 10) <= 1999).
  { apply round_half_even_bounds.
    - change (inject_Z 0) with 0%Q.
      apply Qmult_le_0_compat; [|discriminate].
      apply (Qplus_le_l _ _ (-100)). ring_simplify. exact Hlo.
    - apply Qle_trans with (y := (((999 # 10) + 100) * 10)%Q); [|discriminate].
      apply Qmult_le_compat_r; [|discriminate].
      apply Qplus_le_l. exact Hhi. }
  split; [|exact B].
  unfold tenths, fmul, fadd. simpl option_map.
  apply astype_int32_round. lia.
Qed.

Lemma tenths_round_1dp (x : Q) :
  (inject_Z (round_half_even ((x + 100) * 10)) / 10 - 100 == round_1dp x)%Q.
Proof.
  unfold round_1dp.
  assert (E : ((x + 100) * 10 == x * 10 + inject_Z (2 * 500))%Q).
  { change (inject_Z (2 * 500)) with 1000%Q. ring. }
  rewrite (round_half_even_comp _ _ E), round_half_even_shift.
  rewrite inject_Z_plus. change (inject_Z (2 * 500)) with 1000%Q. field.
Qed.

(** C1. For every utci and wbgt in [-100, 99.9] (in particular every multiple
    of 0.1 there) and every hour offset in [0, 199], the encoded integer is
    (round((utci+100)*10) * 2000 + round((wbgt+100)*10)) * 200 + hourOffset,
    and decoding it by division and modulo by 200 and then by 2000 gives back
    (round(utci, 1), round(wbgt, 1), hourOffset). *)
Theorem encode_decode_roundtrip (invalid_cast : Z) (utci wbgt : Q) (h : Z) :
  (-100 <= utci)%Q -> (utci <= 999 # 10)%Q ->
  (-100 <= wbgt)%Q -> (wbgt <= 999 # 10)%Q ->
  0 <= h <= 199 ->
  let code := encoded_temp_times invalid_cast (Some utci) (Some wbgt) h in
  code = (round_half_even ((utci + 100) * 10) * 2000
          + round_half_even ((wbgt + 100) * 10)) * 200 + h /\
  (fst (fst (decode code)) == round_1dp utci)%Q /\
  (snd (fst (decode code)) == round_1dp wbgt)%Q /\
  snd (decode code) = h.
Proof.
  intros Hu1 Hu2 Hw1 Hw2 Hh code.
  destruct (tenths_in_range invalid_cast utci Hu1 Hu2) as [Eu Bu].
  destruct (tenths_in_range invalid_cast wbgt Hw1 Hw2) as [Ew Bw].
  set (a := round_half_even ((utci + 100) * 10)) in *.
  set (b := round_half_even ((wbgt + 100) * 10)) in *.
  assert (Ecode : code = (a * 2000 + b) * 200 + h).
  { unfold code, encoded_temp_times. rewrite Eu, Ew.
    rewrite (wrap32_small (a * 2000)) by lia.
    rewrite (wrap32_small (a * 2000 + b)) by lia.
    rewrite (wrap32_small ((a * 2000 + b) * 200)) by lia.
    apply wrap64_small. lia. }
  split; [exact Ecode|].
  assert (Eh : code mod 200 = h).
  { rewrite Ecode, Z.add_comm, Z.mod_add by lia. apply Z.mod_small. lia. }
  assert (Ew' : code / 200 = a * 2000 + b).
  { rewrite Ecode, Z.add_comm, Z.div_add by lia.
    rewrite Z.div_small by lia. lia. }
  assert (Ea : (a * 2000 + b) / 2000 = a).
  { rewrite Z.add_comm, Z.div_add by lia. rewrite Z.div_small by lia. lia. }
  assert (Eb : (a * 2000 + b) mod 2000 = b).
  { rewrite Z.add_comm, Z.mod_add by lia. apply Z.mod_small. lia. }
  unfold decode. simpl fst. simpl snd. rewrite Ew', Ea, Eb, Eh.
  repeat split; apply tenths_round_1dp.
Qed.

Lemma encode_decode_roundtrip_witness :
  let code := encoded_temp_times 0 (Some (-73 # 10)%Q) (Some (215 # 10)%Q) 42 in
  code = (round_half_even (((-73 # 10) + 100) * 10) * 2000
          + round_half_even (((215 # 10) + 100) * 10)) * 200 + 42 /\
  (fst (fst (decode code)) == round_1dp (-73 # 10))%Q /\
  (snd (fst (decode code)) == round_1dp (215 # 10))%Q /\
  snd (decode code) = 42.
Proof.
  apply (encode_decode_roundtrip 0 (-73 # 10)%Q (215 # 10)%Q 42);
    first [discriminate | lia].
Defined.

Example encode_sample :
  encoded_temp_times 0 (Some (-73 # 10)%Q) (Some (215 # 10)%Q) 42 = 371043042.
Proof. vm_compute. reflexivity. Qed.

Example time_offset_sample :
  time_offset 0 (30 * 3600 * ns_per_second) = 30.
Proof. vm_compute. reflexivity. Qed.

End EncoderFacts.

(** ** ChartShifter *)

Module ChartShifterFacts.
Import Numeric NumericFacts ChartShifter.

Example hour_angle_tie_to_even : hour_angle (75 # 10) = 0 /\ hour_angle (225 # 10) = 2.
Proof. split; vm_compute; reflexivity. Qed.

(** Every longitude of the grid (0 to 360 degrees, the cyclic point included)
    falls in a bucket from -11 to 12. *)
Lemma utc_hour_angle_range (lon : Q) :
  (0 <= lon)%Q -> (lon <= 360)%Q -> -11 <= utc_hour_angle lon <= 12.
Proof.
  intros Hlo Hhi.
  assert (B : 0 <= hour_angle lon <= 24).
  { unfold hour_angle. apply round_half_even_bounds.
    - change (inject_Z 0) with 0%Q. apply Qle_shift_div_l; [reflexivity|].
      ring_simplify. exact Hlo.
    - apply Qle_shift_div_r; [reflexivity|].
      apply Qle_trans with (y := 360%Q); [exact Hhi|discriminate]. }
  unfold utc_hour_angle.
  destruct (Z.gtb_spec (hour_angle lon) 12); lia.
Qed.

(** C2, as the spec states it, does not hold: longitude 180 is not in
    bucket -12 (and neither is longitude 190). *)
Lemma stated_buckets_fail :
  ~ (utc_hour_angle 180 = -12 /\ utc_hour_angle 0 = 0 /\ utc_hour_angle 190 = -12).
Proof. vm_compute. intros [H _]. discriminate H. Qed.

(** C2, amended. The bucket function (longitude divided by 15, rounded,
    values above 12 wrapped down by 24) maps longitude 180 to bucket 12,
    longitude 0 to bucket 0 and longitude 190 to bucket -11. *)
Theorem hour_angle_buckets :
  utc_hour_angle 180 = 12 /\ utc_hour_angle 0 = 0 /\ utc_hour_angle 190 = -11.
Proof. repeat split; vm_compute; reflexivity. Qed.

End ChartShifterFacts.

(** ** RetentionPlanner *)

Module RetentionPlannerFacts.
Import RetentionPlanner.

(** [floor_day t] is the start of the day of [t]: the largest multiple of a
    day that is at most [t]. *)
Lemma floor_day_spec (t : Z) :
  floor_day t mod Encoder.ns_per_day = 0 /\
  floor_day t <= t < floor_day t + Encoder.ns_per_day.
Proof.
  unfold floor_day.
  assert (Hd : 0 < Encoder.ns_per_day) by reflexivity.
  split; [apply Z.mod_mul; lia|].
  pose proof (Z.mul_div_le t _ Hd). pose proof (Z.mod_pos_bound t _ Hd).
  pose proof (Z.div_mod t Encoder.ns_per_day). lia.
Qed.

Example floor_day_before_epoch :
  floor_day (- hours 1) = - days 1.
Proof. vm_compute. reflexivity. Qed.

(** C4. For every wall-clock time [utc_now] and every first timestamp
    [first_time] of the new grid, the retention cutoff is
    min(floor_to_day(now - 25h), floor_to_day(first_time) - 12h), where
    floor_to_day is the start of the UTC day as the spec means it (a
    midnight, with the instant inside the day it starts) and the durations
    are written out in nanoseconds; and this is the cutoff the merge of
    [main] restricts the persisted grid with. *)
Theorem retention_cutoff_formula (utc_now first_time : Z) :
  exists local_day_start chart_day : Z,
    is_floor_to_day (utc_now - 25 * 3600 * 1000000000) local_day_start /\
    is_floor_to_day first_time chart_day /\
    earliest_necessary_data utc_now first_time
    = Z.min local_day_start (chart_day - 12 * 3600 * 1000000000) /\
    forall (lat lon rest : list Z) (utci wbgt : gmap (Z * Z * Z) Q)
           (prior : Merger.Dataset),
      let ds := Merger.mkDataset lat lon (first_time :: rest) utci wbgt in
      Merger.merge_step utc_now ds prior
      = Some (Merger.merge ds prior
                (Z.min local_day_start (chart_day - 12 * 3600 * 1000000000))).
Proof.
  assert (Hfloor : forall t, is_floor_to_day t (floor_day t)).
  { intros t. pose proof (floor_day_spec t) as [_ Hin].
    split; [|exact Hin]. exists (t / Encoder.ns_per_day). reflexivity. }
  exists (floor_day (utc_now - hours 25)), (floor_day first_time).
  split; [apply (Hfloor (utc_now - hours 25))|].
  split; [apply Hfloor|].
  split; reflexivity.
Qed.

(** C5. For every wall-clock time and every first timestamp of the new grid,
    the retention cutoff is at most that first timestamp. *)
Theorem cutoff_le_first_timestamp (utc_now first_time : Z) :
  earliest_necessary_data utc_now first_time <= first_time.
Proof.
  unfold earliest_necessary_data, earliest_global_chart_data,
    earliest_global_chart_to_update.
  pose proof (floor_day_spec first_time) as [_ [H _]].
  assert (0 <= hours 12) by (vm_compute; discriminate).
  lia.
Qed.

End RetentionPlannerFacts.

(** ** Merger *)

Module MergerFacts.
Import Merger.

(** *** The outer join of two indexes *)

Lemma elem_of_insert_sorted (x y : Z) (l : list Z) :
  y ∈ insert_sorted x l <-> y = x \/ y ∈ l.
Proof.
  induction l as [|z l IH]; simpl.
  - rewrite list_elem_of_singleton, elem_of_nil. tauto.
  - destruct (Z.ltb_spec x z); [rewrite (elem_of_cons (z :: l)); tauto|].
    destruct (Z.eqb_spec x z) as [->|Hne].
    + rewrite elem_of_cons. tauto.
    + rewrite !elem_of_cons, IH. tauto.
Qed.

Lemma insert_sorted_sorted (x : Z) (l : list Z) :
  StronglySorted Z.lt l -> StronglySorted Z.lt (insert_sorted x l).
Proof.
  induction l as [|z l IH]; simpl; intros Hs.
  - repeat constructor.
  - apply StronglySorted_cons in Hs as [Hall Hs].
    destruct (Z.ltb_spec x z) as [Hlt|Hge].
    + apply StronglySorted_cons. split.
      * constructor; [exact Hlt|].
        eapply Forall_impl; [exact Hall|]. intros w Hw. simpl in Hw. lia.
      * apply StronglySorted_cons. split; assumption.
    + destruct (Z.eqb_spec x z) as [->|Hne].
      * apply StronglySorted_cons. split; assumption.
      * apply StronglySorted_cons. split; [|apply IH; exact Hs].
        apply Forall_forall. intros w Hw.
        apply elem_of_insert_sorted in Hw as [->|Hw]; [lia|].
        rewrite Forall_forall in Hall. apply Hall. exact Hw.
Qed.

Lemma sort_unique_sorted (l : list Z) : StronglySorted Z.lt (sort_unique l).
Proof.
  induction l as [|x l IH]; simpl; [constructor|].
  apply insert_sorted_sorted. exact IH.
Qed.

Lemma elem_of_sort_unique (y : Z) (l : list Z) : y ∈ sort_unique l <-> y ∈ l.
Proof.
  induction l as [|x l IH]; simpl; [reflexivity|].
  rewrite elem_of_insert_sorted, IH, elem_of_cons. reflexivity.
Qed.

Lemma elem_of_index_union (y : Z) (a b : list Z) :
  y ∈ index_union a b <-> y ∈ a \/ y ∈ b.
Proof.
  unfold index_union. destruct (decide (a = b)) as [->|Hne]; [tauto|].
  destruct a as [|x a]; [rewrite elem_of_nil; tauto|].
  destruct b as [|z b]; [rewrite elem_of_nil; tauto|].
  rewrite elem_of_sort_unique, elem_of_app. reflexivity.
Qed.

Lemma index_union_sorted (a b : list Z) :
  StronglySorted Z.lt a -> StronglySorted Z.lt b ->
  StronglySorted Z.lt (index_union a b).
Proof.
  intros Ha Hb. unfold index_union.
  destruct (decide (a = b)); [exact Ha|].
  destruct a as [|x a]; [exact Hb|].
  destruct b as [|z b]; [exact Ha|].
  apply sort_unique_sorted.
Qed.

Lemma sorted_lt_NoDup (l : list Z) : StronglySorted Z.lt l -> NoDup l.
Proof.
  induction l as [|x l IH]; intros Hs; [constructor|].
  apply StronglySorted_cons in Hs as [Hall Hs].
  constructor; [|apply IH; exact Hs].
  intros Hin. rewrite Forall_forall in Hall. specialize (Hall x Hin). lia.
Qed.

Lemma sorted_lt_head_least (x : Z) (l : list Z) :
  StronglySorted Z.lt (x :: l) -> forall y, y ∈ x :: l -> x <= y.
Proof.
  intros Hs y Hy. apply StronglySorted_cons in Hs as [Hall _].
  apply elem_of_cons in Hy as [->|Hy]; [lia|].
  rewrite Forall_forall in Hall. specialize (Hall y Hy). lia.
Qed.

Lemma filter_sorted (P : Z -> Prop) `{forall t, Decision (P t)} (l : list Z) :
  StronglySorted Z.lt l -> StronglySorted Z.lt (filter P l).
Proof.
  induction l as [|x l IH]; intros Hs; [constructor|].
  apply StronglySorted_cons in Hs as [Hall Hs].
  rewrite filter_cons. destruct (decide (P x)); [|apply IH; exact Hs].
  apply StronglySorted_cons. split; [|apply IH; exact Hs].
  apply Forall_forall. intros w Hw. apply list_elem_of_filter in Hw as [_ Hw].
  rewrite Forall_forall in Hall. apply Hall. exact Hw.
Qed.

(** *** Cell values of the merge *)

Lemma values_sel_time (v : variable) (cutoff : Z) (ds : Dataset) :
  values v (sel_time cutoff ds) = sel_time_var cutoff (values v ds).
Proof. destruct v; reflexivity. Qed.

Lemma values_combine_first (v : variable) (ds other : Dataset) :
  values v (combine_first ds other) = values v ds ∪ values v other.
Proof. destruct v; reflexivity. Qed.

Lemma lookup_sel_time_var (cutoff : Z) (a : gmap (Z * Z * Z) Q) (k : Z * Z * Z) :
  sel_time_var cutoff a !! k
  = if decide (cutoff <= key_time k) then a !! k else None.
Proof.
  unfold sel_time_var. destruct (decide (cutoff <= key_time k)) as [Hle|Hlt].
  - destruct (a !! k) as [x|] eqn:E.
    + apply map_lookup_filter_Some. split; [exact E|exact Hle].
    + apply map_lookup_filter_None. left. exact E.
  - apply map_lookup_filter_None. right. intros x _. exact Hlt.
Qed.

Lemma lookup_merge (v : variable) (new prior : Dataset) (cutoff : Z) (k : Z * Z * Z) :
  values v (merge new prior cutoff) !! k
  = match values v new !! k with
    | Some x => Some x
    | None => if decide (cutoff <= key_time k) then values v prior !! k else None
    end.
Proof.
  unfold merge. rewrite values_combine_first, values_sel_time.
  destruct (values v new !! k) as [x|] eqn:E.
  - apply lookup_union_Some_l. exact E.
  - rewrite lookup_union_r by exact E. apply lookup_sel_time_var.
Qed.

Lemma elem_of_time_merge (new prior : Dataset) (cutoff t : Z) :
  t ∈ time (merge new prior cutoff)
  <-> t ∈ time new \/ (t ∈ time prior /\ cutoff <= t).
Proof.
  unfold merge, combine_first, sel_time. simpl.
  rewrite elem_of_index_union, list_elem_of_filter. tauto.
Qed.

Lemma time_merge_sorted (new prior : Dataset) (cutoff : Z) :
  wf new -> wf prior -> StronglySorted Z.lt (time (merge new prior cutoff)).
Proof.
  intros [Hn _] [Hp _]. unfold merge, combine_first, sel_time. simpl.
  apply index_union_sorted; [exact Hn|]. apply filter_sorted. exact Hp.
Qed.

(** The merge keeps the invariant, so the grid persisted by one run is a
    well-formed prior grid for the next. *)
Lemma merge_wf (new prior : Dataset) (cutoff : Z) :
  wf new -> wf prior -> wf (merge new prior cutoff).
Proof.
  intros Hn Hp. split; [apply time_merge_sorted; assumption|].
  intros v k y Hk. rewrite lookup_merge in Hk.
  destruct Hn as [_ Hn], Hp as [_ Hp].
  unfold on_coords. rewrite elem_of_time_merge.
  unfold merge, combine_first, sel_time. simpl. rewrite !elem_of_index_union.
  destruct (values v new !! k) as [x|] eqn:E.
  - destruct (Hn v k x E) as (H1 & H2 & H3). tauto.
  - destruct (decide (cutoff <= key_time k)) as [Hle|]; [|discriminate].
    destruct (Hp v k y Hk) as (H1 & H2 & H3). unfold key_time in Hle. tauto.
Qed.

Lemma off_time_no_value (v : variable) (ds : Dataset) (k : Z * Z * Z) :
  wf ds -> key_time k ∉ time ds -> values v ds !! k = None.
Proof.
  intros [_ Hwf] Hk. destruct (values v ds !! k) as [x|] eqn:E; [|reflexivity].
  destruct (Hwf v k x E) as (_ & _ & H3).
  exfalso. apply Hk. exact H3.
Qed.

(** *** The sample grids *)

Lemma sample_new_wf : wf sample_new.
Proof.
  split; [repeat constructor|].
  intros [|]; simpl.
  - apply map_Forall_singleton. vm_compute. repeat split; set_unfold; tauto.
  - apply map_Forall_insert_2; [|apply map_Forall_singleton];
      vm_compute; repeat split; set_unfold; tauto.
Qed.

Lemma sample_prior_wf : wf sample_prior.
Proof.
  split; [repeat constructor|].
  intros [|]; simpl;
    (apply map_Forall_insert_2; [|apply map_Forall_singleton]);
    vm_compute; repeat split; set_unfold; tauto.
Qed.

Example sample_merge_time :
  time (merge sample_new sample_prior (hour (-1))) = [hour (-1); hour 0; hour 1].
Proof. vm_compute. reflexivity. Qed.

Example sample_merge_cut :
  time (merge sample_new sample_prior (hour 0)) = [hour 0; hour 1].
Proof. vm_compute. reflexivity. Qed.

(** *** The merge guarantee *)

(** C8, as the spec states it, does not hold: the merged values are not the
    new grid's values at every timestamp of the new grid.  At hour 0 the
    sample new grid has no UTCI value (NaN) and the merge takes the
    persisted one. *)
Lemma merge_new_values_as_stated_fail :
  ~ (forall (new prior : Dataset) (cutoff : Z),
       wf new -> wf prior ->
       forall (v : variable) (k : Z * Z * Z),
         key_time k ∈ time new ->
         values v (merge new prior cutoff) !! k = values v new !! k).
Proof.
  intros H.
  specialize (H sample_new sample_prior (hour (-1)) sample_new_wf sample_prior_wf
                Utci (2500, 500, hour 0)).
  assert (Hin : key_time (2500, 500, hour 0) ∈ time sample_new).
  { simpl. apply elem_of_cons. left. reflexivity. }
  specialize (H Hin). vm_compute in H. discriminate H.
Qed.

(** C8, amended. For every well-formed new grid, prior grid and cutoff: the
    time coordinate of the merged grid holds the timestamps of the new grid
    and the timestamps of the prior grid from the cutoff on, in increasing
    order and without duplicates (when no new timestamp is before the cutoff,
    that is the union of both inputs' timestamps from the cutoff on); a cell
    has the new grid's value wherever the new grid has a value; a cell where
    the new grid has none (NaN, or a timestamp only the prior grid has) has
    the prior grid's value when its timestamp is at or after the cutoff, and
    none otherwise. *)
Theorem merge_guarantee (new prior : Dataset) (cutoff : Z) :
  wf new -> wf prior ->
  let m := merge new prior cutoff in
  (StronglySorted Z.lt (time m) /\ NoDup (time m)) /\
  (forall t, t ∈ time m <-> t ∈ time new \/ (t ∈ time prior /\ cutoff <= t)) /\
  ((forall t, t ∈ time new -> cutoff <= t) ->
   forall t, t ∈ time m <-> (t ∈ time new \/ t ∈ time prior) /\ cutoff <= t) /\
  (forall v k x, values v new !! k = Some x -> values v m !! k = Some x) /\
  (forall v k, values v new !! k = None ->
     values v m !! k
     = if decide (cutoff <= key_time k) then values v prior !! k else None) /\
  (forall v k, key_time k ∉ time new -> cutoff <= key_time k ->
     values v m !! k = values v prior !! k).
Proof.
  intros Hn Hp m.
  pose proof (time_merge_sorted new prior cutoff Hn Hp) as Hs.
  split; [split; [exact Hs|apply sorted_lt_NoDup; exact Hs]|].
  split; [intros t; apply elem_of_time_merge|].
  split.
  { intros Hcut t. unfold m. rewrite elem_of_time_merge.
    split; [intros [Ht|[Ht Hle]]|intros [[Ht|Ht] Hle]]; auto. }
  split.
  { intros v k x E. unfold m. rewrite lookup_merge, E. reflexivity. }
  split.
  { intros v k E. unfold m. rewrite lookup_merge, E. reflexivity. }
  intros v k Hk Hle. unfold m.
  rewrite lookup_merge, (off_time_no_value v new k Hn Hk).
  destruct (decide (cutoff <= key_time k)); [reflexivity|contradiction].
Qed.

Lemma merge_guarantee_witness :
  let m := merge sample_new sample_prior (hour (-1)) in
  (StronglySorted Z.lt (time m) /\ NoDup (time m)) /\
  (forall t, t ∈ time m
     <-> t ∈ time sample_new \/ (t ∈ time sample_prior /\ hour (-1) <= t)) /\
  ((forall t, t ∈ time sample_new -> hour (-1) <= t) ->
   forall t, t ∈ time m
     <-> (t ∈ time sample_new \/ t ∈ time sample_prior) /\ hour (-1) <= t) /\
  (forall v k x, values v sample_new !! k = Some x -> values v m !! k = Some x) /\
  (forall v k, values v sample_new !! k = None ->
     values v m !! k
     = if decide (hour (-1) <= key_time k)
       then values v sample_prior !! k else None) /\
  (forall v k, key_time k ∉ time sample_new -> hour (-1) <= key_time k ->
     values v m !! k = values v sample_prior !! k).
Proof.
  exact (merge_guarantee sample_new sample_prior (hour (-1))
           sample_new_wf sample_prior_wf).
Defined.

End MergerFacts.

(** ** UploadOrchestrator *)

Module OrchestratorFacts.
Import Publish Store Orchestrator.
Local Open Scope nat_scope.

(** *** [array_split] *)

Lemma section_sizes_length (total sections : nat) :
  0 < sections -> length (section_sizes total sections) = sections.
Proof.
  intros H. unfold section_sizes. rewrite length_app, !repeat_length.
  pose proof (Nat.mod_upper_bound total sections). lia.
Qed.

Lemma sum_list_repeat (x n : nat) : sum_list (repeat x n) = n * x.
Proof. induction n as [|n IH]; simpl; [reflexivity|]. rewrite IH. lia. Qed.

Lemma section_sizes_sum (total sections : nat) :
  0 < sections -> sum_list (section_sizes total sections) = total.
Proof.
  intros H. unfold section_sizes. rewrite sum_list_with_app, !sum_list_repeat.
  pose proof (Nat.mod_upper_bound total sections).
  pose proof (Nat.div_mod_eq total sections). nia.
Qed.

Lemma section_sizes_even (total sections : nat) :
  Forall (fun n => n = total / sections \/ n = total / sections + 1)
         (section_sizes total sections).
Proof.
  unfold section_sizes. apply Forall_app. split; apply Forall_forall;
    intros n Hn; apply list_elem_of_In, repeat_spec in Hn; auto.
Qed.

Lemma split_at_sizes_length {A : Type} (sizes : list nat) (l : list A) :
  length (split_at_sizes sizes l) = length sizes.
Proof.
  revert l. induction sizes as [|n sizes IH]; intros l; simpl; [reflexivity|].
  rewrite IH. reflexivity.
Qed.

Lemma split_at_sizes_concat {A : Type} (sizes : list nat) (l : list A) :
  concat (split_at_sizes sizes l) = take (sum_list sizes) l.
Proof.
  revert l. induction sizes as [|n sizes IH]; intros l; simpl.
  - rewrite take_0. reflexivity.
  - rewrite IH. apply take_take_drop.
Qed.

Lemma split_at_sizes_part_lengths {A : Type} (sizes : list nat) (l : list A) :
  sum_list sizes <= length l ->
  Forall2 (fun part n => length part = n) (split_at_sizes sizes l) sizes.
Proof.
  revert l. induction sizes as [|n sizes IH]; intros l Hsum; simpl in *.
  - constructor.
  - constructor.
    + rewrite length_take. lia.
    + apply IH. rewrite length_drop. lia.
Qed.

Lemma part_lengths_Forall {A : Type} (P : nat -> Prop)
    (parts : list (list A)) (sizes : list nat) :
  Forall2 (fun part n => length part = n) parts sizes ->
  Forall P sizes -> Forall (fun part => P (length part)) parts.
Proof.
  induction 1 as [|part n parts sizes Hp _ IH]; intros HE; [constructor|].
  apply Forall_cons in HE as [Hn HE].
  constructor; [rewrite Hp; exact Hn|apply IH; exact HE].
Qed.

(** The parts of [array_split]: as many as asked for, together the whole
    list in its order, and of sizes that differ by at most one. *)
Lemma array_split_parts {A : Type} (l : list A) (sections : nat) :
  0 < sections ->
  length (array_split l sections) = sections /\
  concat (array_split l sections) = l /\
  Forall (fun part => length part = length l / sections
                      \/ length part = length l / sections + 1)
         (array_split l sections).
Proof.
  intros H. unfold array_split. split; [|split].
  - rewrite split_at_sizes_length. apply section_sizes_length. exact H.
  - rewrite split_at_sizes_concat, section_sizes_sum by exact H.
    apply firstn_all.
  - pose proof (split_at_sizes_part_lengths (section_sizes (length l) sections) l) as HF.
    rewrite section_sizes_sum in HF by exact H. specialize (HF (le_n _)).
    apply (part_lengths_Forall
             (fun n => n = length l / sections \/ n = length l / sections + 1)
             _ _ HF).
    apply section_sizes_even.
Qed.

Example array_split_sample :
  array_split [1; 2; 3; 4; 5; 6; 7] 3 = [[1; 2; 3]; [4; 5]; [6; 7]].
Proof. reflexivity. Qed.

(** *** The loop *)

Lemma for_each_cons {A : Type} (x : A) (l : list A) (f : A -> M unit) (w : World) :
  for_each (x :: l) f w
  = match f x w with
    | (inl _, w') => for_each l f w'
    | (inr e, w') => (inr e, w')
    end.
Proof. reflexivity. Qed.

Lemma for_each_commits (parts : list (list ReplaceOne)) (w : World) :
  commits parts w (for_each parts upload_forecasts w).
Proof.
  revert w. induction parts as [|part parts IH]; intros w.
  - apply commits_done.
  - rewrite for_each_cons.
    destruct (upload_forecasts part w) as [[[]|err] w1] eqn:E.
    + eapply commits_part; [exact E|apply IH].
    + eapply commits_abandon. exact E.
Qed.

Lemma upload_attempt_commits (uploads : list ReplaceOne) (i : nat) (w : World) :
  commits (array_split uploads i) w (upload_attempt uploads i w).
Proof. apply for_each_commits. Qed.

Lemma upload_loop_over_cons (i : nat) (rest : list nat)
    (uploads : list ReplaceOne) (w : World) :
  upload_loop_over (i :: rest) uploads w
  = match upload_attempt uploads i w with
    | (inl _, w') => (inl tt, w')
    | (inr err, w') =>
        if i =? 100 then (inr err, w') else upload_loop_over rest uploads w'
    end.
Proof. reflexivity. Qed.

Lemma escalates_step (uploads : list ReplaceOne) (i : nat) (rest : list nat)
    (w : World) :
  (i <> 100 -> forall w1, escalates uploads rest w1 (upload_loop_over rest uploads w1)) ->
  escalates uploads (i :: rest) w (upload_loop_over (i :: rest) uploads w).
Proof.
  intros Hrest. rewrite upload_loop_over_cons.
  pose proof (upload_attempt_commits uploads i w) as E.
  destruct (upload_attempt uploads i w) as [[[]|err] w1].
  - apply escalates_success. exact E.
  - destruct (Nat.eqb_spec i 100) as [->|Hne].
    + eapply escalates_fatal. exact E.
    + eapply escalates_retry; [exact E|exact Hne|apply Hrest; exact Hne].
Qed.

Lemma upload_loop_escalates (uploads : list ReplaceOne) (w : World) :
  escalates uploads candidates w (upload_loop uploads w).
Proof.
  unfold upload_loop, candidates.
  do 6 (apply escalates_step; intros _; clear w; intros w).
  apply escalates_step. intros Hne. exfalso. apply Hne. reflexivity.
Qed.

(** A successful escalation has an attempt whose parts all committed. *)
Lemma escalates_success_inv (uploads : list ReplaceOne) (counts : list nat)
    (w w' : World) :
  escalates uploads counts w (inl tt, w') ->
  exists i w0, i ∈ counts /\ commits (array_split uploads i) w0 (inl tt, w').
Proof.
  intros H. remember (inl tt, w') as r eqn:Er.
  induction H as [i rest w w1 Hc|i rest w w1 err r Hc Hne H IH|rest w w1 err Hc].
  - inversion Er; subst. exists i, w. split; [left|exact Hc].
  - destruct (IH Er) as (j & w0 & Hj & Hc'). exists j, w0.
    split; [right; exact Hj|exact Hc'].
  - discriminate Er.
Qed.

(** C3. For every upload batch and from every world, the upload loop is the
    escalation over the chunk counts 12, 13, 15, 20, 30, 50, 100 in this
    order: each attempt splits the batch into that many parts (of sizes that
    differ by at most one, together the whole batch) and commits them one
    after the other; an exception abandons the remaining parts and the whole
    batch is tried again with the next count; success at a count ends the
    loop; an exception at count 100 is raised, nothing is tried after it. *)
Theorem upload_escalation (uploads : list ReplaceOne) (w : World) :
  escalates uploads [12; 13; 15; 20; 30; 50; 100] w (upload_loop uploads w) /\
  Forall (fun i =>
            length (array_split uploads i) = i /\
            concat (array_split uploads i) = uploads /\
            Forall (fun part => length part = length uploads / i
                                \/ length part = length uploads / i + 1)
                   (array_split uploads i))
         [12; 13; 15; 20; 30; 50; 100].
Proof.
  split; [apply upload_loop_escalates|].
  repeat (apply Forall_cons; split; [apply array_split_parts; lia|]).
  apply Forall_nil. exact I.
Qed.

End OrchestratorFacts.

(** ** Database and world: what the operations leave alone *)

Module StoreFacts.
Import Merger Publish Store Orchestrator Main.

Lemma bind_run {A B : Type} (m : M A) (f : A -> M B) (w : World) :
  (m ≫= f) w
  = match m w with
    | (inl x, w') => f x w'
    | (inr e, w') => (inr e, w')
    end.
Proof. reflexivity. Qed.

Lemma retry_step {A : Type} (n : nat) (call : M A) (w : World) :
  retry (S (S n)) call w
  = match call w with
    | (inr AutoReconnect, w') => retry (S n) call w'
    | r => r
    end.
Proof. reflexivity. Qed.

Section Frame.
Variable R : World -> World -> Prop.
Hypothesis HR : frame R.

Local Abbreviation R_refl := (frame_refl R HR).
Local Abbreviation R_trans := (frame_trans R HR).
Local Abbreviation R_faults := (frame_faults R HR).
Local Abbreviation R_trace := (frame_trace R HR).
Local Abbreviation R_forecasts := (frame_forecasts R HR).
Local Abbreviation R_blob := (frame_blob R HR).
Local Abbreviation R_status := (frame_status R HR).

Lemma preserves_ret {A : Type} (x : A) : preserves R (mret x).
Proof. intros w. apply R_refl. Qed.

Lemma preserves_raise {A : Type} (e : exn) : preserves R (@raise A e).
Proof. intros w. apply R_refl. Qed.

Lemma preserves_bind {A B : Type} (m : M A) (f : A -> M B) :
  preserves R m -> (forall x, preserves R (f x)) -> preserves R (m ≫= f).
Proof.
  intros Hm Hf w. rewrite bind_run. specialize (Hm w).
  destruct (m w) as [[x|e] w1]; simpl in Hm.
  - eapply R_trans; [exact Hm|apply Hf].
  - exact Hm.
Qed.

Lemma preserves_retry {A : Type} (tries : nat) (call : M A) :
  preserves R call -> preserves R (retry tries call).
Proof.
  intros Hc. induction tries as [|t IH]; [exact Hc|].
  destruct t as [|n]; [exact Hc|].
  intros w. rewrite retry_step. specialize (Hc w).
  destruct (call w) as [[x|[|msg]] w1]; simpl in Hc |- *; try exact Hc.
  eapply R_trans; [exact Hc|apply IH].
Qed.

Lemma preserves_for_each {A : Type} (l : list A) (f : A -> M unit) :
  (forall x, preserves R (f x)) -> preserves R (for_each l f).
Proof.
  intros Hf. induction l as [|x l IH]; simpl.
  - apply preserves_ret.
  - apply preserves_bind; [apply Hf|intros _; exact IH].
Qed.

Lemma preserves_finally {A : Type} (body : M A) (cleanup : M unit) :
  preserves R body -> preserves R cleanup -> preserves R (finally body cleanup).
Proof.
  intros Hb Hc w. unfold finally. specialize (Hb w).
  destruct (body w) as [r w1]. simpl in Hb. specialize (Hc w1).
  destruct (cleanup w1) as [[u|e] w2]; simpl in Hc |- *;
    eapply R_trans; eassumption.
Qed.

Lemma preserves_from_option {A : Type} (e : exn) (o : option A) :
  preserves R (from_option e o).
Proof. destruct o; [apply preserves_ret|apply preserves_raise]. Qed.

Lemma preserves_from_result {A : Type} (r : A + exn) : preserves R (from_result r).
Proof. destruct r; [apply preserves_ret|apply preserves_raise]. Qed.

Lemma preserves_next_fault : preserves R next_fault.
Proof.
  intros w. unfold next_fault. destruct (faults w); simpl;
    [apply R_refl|apply R_faults].
Qed.

Lemma preserves_log (ev : event) : preserves R (log ev).
Proof. intros w. apply R_trace. Qed.

Lemma preserves_modify_forecasts (f : gmap string Document -> gmap string Document) :
  preserves R (modify_forecasts f).
Proof. intros w. apply R_forecasts. Qed.

Lemma preserves_modify_status (f : StatusDocument -> StatusDocument) :
  (forall doc, latestSuccessfulUpdateSource (f doc) = latestSuccessfulUpdateSource doc) ->
  preserves R (modify_status f).
Proof. intros Hf w. apply R_status. apply Hf. Qed.

Lemma preserves_find_one : preserves R find_one.
Proof.
  apply preserves_bind; [apply preserves_next_fault|].
  intros [ft|]; [apply preserves_raise|].
  intros w. apply (preserves_bind (log _) (fun _ => mret (status w)));
    [apply preserves_log|intros _; apply preserves_ret].
Qed.

Lemma preserves_fetch_status : preserves R fetch_status.
Proof. apply preserves_retry, preserves_find_one. Qed.

Lemma preserves_set_status (a : assignment) :
  other_field a -> preserves R (set_status a).
Proof.
  intros Ha. apply preserves_retry.
  apply preserves_bind; [apply preserves_next_fault|].
  intros [ft|]; [apply preserves_raise|].
  apply preserves_bind; [|intros _; apply preserves_log].
  apply preserves_modify_status. intros doc. destruct a; simpl in *; tauto.
Qed.

Lemma preserves_delete_from_status (date : string) :
  preserves R (delete_from_status date).
Proof.
  apply preserves_retry.
  apply preserves_bind; [apply preserves_next_fault|].
  intros [ft|]; [apply preserves_raise|].
  apply preserves_bind; [|intros _; apply preserves_log].
  apply preserves_modify_status. intros doc. reflexivity.
Qed.

Lemma preserves_upload_forecasts (ops : list ReplaceOne) :
  preserves R (upload_forecasts ops).
Proof.
  apply preserves_retry. unfold bulk_write.
  destruct ops as [|op ops]; [apply preserves_raise|].
  apply preserves_bind; [apply preserves_next_fault|].
  intros [ft|].
  - apply preserves_bind; [apply preserves_modify_forecasts|].
    intros _. apply preserves_raise.
  - apply preserves_bind; [apply preserves_modify_forecasts|].
    intros _. apply preserves_log.
Qed.

Lemma preserves_upload_loop (uploads : list ReplaceOne) :
  preserves R (upload_loop uploads).
Proof.
  unfold upload_loop. generalize candidates. intros counts.
  induction counts as [|i rest IH]; [apply preserves_ret|].
  intros w. rewrite OrchestratorFacts.upload_loop_over_cons.
  pose proof (preserves_for_each (array_split uploads i) upload_forecasts
                preserves_upload_forecasts w) as Ha.
  fold (upload_attempt uploads i) in Ha.
  destruct (upload_attempt uploads i w) as [[u|err] w1]; simpl in Ha |- *.
  - exact Ha.
  - destruct (i =? 100)%nat; simpl; [exact Ha|].
    eapply R_trans; [exact Ha|apply IH].
Qed.

Lemma preserves_download_previous (env : Env) : preserves R (download_previous env).
Proof.
  unfold download_previous. destruct (download_fault env); [apply preserves_raise|].
  intros w. apply preserves_from_option.
Qed.

Lemma preserves_save_to_cloud (env : Env) (ds : Dataset) :
  preserves R (save_to_cloud env ds).
Proof.
  unfold save_to_cloud. destruct (save_fault env); [apply preserves_raise|].
  intros w. simpl.
  eapply R_trans; [apply (R_blob w (Some ds))|].
  apply (R_trace (mkWorld (status w) (forecasts w) (Some ds) (faults w) (trace w))).
Qed.

Lemma preserves_compute_uploads (env : Env) (data_source : string) :
  preserves R (compute_uploads env data_source).
Proof.
  unfold compute_uploads.
  apply preserves_bind; [apply preserves_from_result|intros ds].
  apply preserves_bind; [apply preserves_download_previous|intros previous].
  apply preserves_bind; [apply preserves_from_option|intros merged].
  apply preserves_bind; [apply preserves_from_option|intros uploads].
  apply preserves_ret.
Qed.

Lemma preserves_prepare (env : Env) (data_source : string) :
  preserves R (prepare env data_source).
Proof.
  unfold prepare.
  apply preserves_bind; [apply preserves_set_status; exact I|intros _].
  apply preserves_compute_uploads.
Qed.

Lemma preserves_charting (env : Env) (db_status : StatusDocument) (data_source : string) :
  preserves R (charting env db_status data_source).
Proof.
  unfold charting.
  apply preserves_bind;
    [apply preserves_for_each; intros date; apply preserves_delete_from_status|intros _].
  apply preserves_bind; [apply preserves_from_option|intros label].
  apply preserves_for_each. intros [date [[|]|e]]; simpl.
  - apply preserves_set_status. exact I.
  - apply preserves_ret.
  - apply preserves_raise.
Qed.

End Frame.

(** *** The two instances: the source field, and the log *)

Lemma same_source_frame : frame same_source.
Proof.
  split; unfold same_source; simpl; intros; congruence.
Qed.

Lemma trace_extends_frame : frame trace_extends.
Proof.
  split; unfold trace_extends; simpl; intros;
    try (exists []; symmetry; apply app_nil_r).
  - destruct H as [e1 H1], H0 as [e2 H2]. exists (e1 ++ e2).
    rewrite H2, H1. symmetry. apply app_assoc.
  - eexists. reflexivity.
Qed.

End StoreFacts.

(** ** The run *)

Module MainFacts.
Import Merger Publish Store Orchestrator Main StoreFacts OrchestratorFacts.

Lemma bind_assoc {A B C : Type} (m : M A) (f : A -> M B) (g : B -> M C) (w : World) :
  ((m ≫= f) ≫= g) w = (m ≫= (fun x => f x ≫= g)) w.
Proof. rewrite !bind_run. destruct (m w) as [[x|e] w1]; reflexivity. Qed.

Ltac run_calls :=
  unfold update_one_set, update_one_unset, find_one, next_fault, modify_status,
    modify_forecasts, log, raise, mbind, M_bind, mret, M_ret;
  simpl.

(** A status write either succeeds, and is then applied and logged, or
    raises and leaves the document and the log as they were. *)
Lemma set_status_outcome (a : assignment) (w : World) :
  match set_status a w with
  | (inl _, w') =>
      status w' = apply_set a (status w) /\ trace w' = trace w ++ [EvSetStatus a]
  | (inr _, w') => status w' = status w /\ trace w' = trace w
  end.
Proof.
  destruct w as [st fc bl fs tr]. unfold set_status. rewrite retry_step.
  destruct fs as [|[[[|msg] m]|] rest]; run_calls; auto.
  destruct rest as [|[[e2 m2]|] rest]; run_calls; auto.
Qed.

(** A status read either returns the document as it is in the store, and is
    logged, or raises. *)
Lemma fetch_status_outcome (w : World) :
  match fetch_status w with
  | (inl doc, w') =>
      doc = status w /\ status w' = status w
      /\ trace w' = trace w ++ [EvFetchStatus (status w)]
  | (inr _, w') => status w' = status w /\ trace w' = trace w
  end.
Proof.
  destruct w as [st fc bl fs tr]. unfold fetch_status. rewrite retry_step.
  destruct fs as [|[[[|msg] m]|] rest]; run_calls; auto.
  destruct rest as [|[[e2 m2]|] rest]; run_calls; auto.
Qed.

Lemma set_status_trace_extends (a : assignment) : preserves trace_extends (set_status a).
Proof.
  intros w. pose proof (set_status_outcome a w) as H.
  destruct (set_status a w) as [[u|e] w1]; simpl; destruct H as [_ H].
  - eexists. exact H.
  - exists []. rewrite H. symmetry. apply app_nil_r.
Qed.

(** *** The gate *)

(** What the checks before the update have read and found when the run goes
    on, and that a run which exits there has written nothing. *)
Lemma gate_outcome (env : Env) (w : World) :
  match gate env w with
  | (inl (Some _), wg) =>
      isUpdating (status w) = false /\
      match source_override env with
      | None =>
          isUpdating (concurrent env (status w)) = false /\
          trace wg = trace w ++ [EvFetchStatus (status w); EvScrape;
                                 EvFetchStatus (concurrent env (status w))]
      | Some _ => trace wg = trace w ++ [EvFetchStatus (status w)]
      end
  | (_, wg) =>
      exists evs, trace wg = trace w ++ evs /\ checks_before_update evs = None
  end.
Proof.
  unfold gate. rewrite bind_run.
  pose proof (fetch_status_outcome w) as H1.
  destruct (fetch_status w) as [[d1|e1] w1].
  2:{ destruct H1 as [_ H1]. exists []. rewrite H1, app_nil_r. split; reflexivity. }
  destruct H1 as (-> & Hs1 & Ht1).
  destruct (isUpdating (status w)) eqn:Eu.
  { simpl. exists [EvFetchStatus (status w)]. split; [exact Ht1|reflexivity]. }
  destruct (source_override env) as [url|].
  { simpl. split; [reflexivity|exact Ht1]. }
  rewrite bind_run. unfold scrape.
  destruct (scraped env) as [data_source|e2]; simpl.
  2:{ exists [EvFetchStatus (status w); EvScrape]. rewrite Ht1, <- app_assoc.
      split; reflexivity. }
  destruct (String.eqb data_source (latestSuccessfulUpdateSource (status w))).
  { simpl. exists [EvFetchStatus (status w); EvScrape]. rewrite Ht1, <- app_assoc.
    split; reflexivity. }
  rewrite bind_run.
  match goal with |- context [fetch_status ?w2] =>
    pose proof (fetch_status_outcome w2) as H2;
    destruct (fetch_status w2) as [[d2|e3] w3]
  end; simpl in H2.
  2:{ destruct H2 as [_ H2]. exists [EvFetchStatus (status w); EvScrape].
      rewrite H2, Ht1, <- app_assoc. split; reflexivity. }
  destruct H2 as (-> & Hs3 & Ht3). rewrite Hs1 in *.
  destruct (isUpdating (concurrent env (status w))) eqn:Eu2; simpl.
  { eexists. rewrite Ht3, Ht1, <- !app_assoc. split; reflexivity. }
  split; [reflexivity|]. split; [reflexivity|].
  rewrite Ht3, Ht1, <- !app_assoc. reflexivity.
Qed.

(** The guarded block logs the write of [isUpdating = true] first, or does
    not log such a write at all. *)
Lemma block_trace (env : Env) (db_status : StatusDocument) (data_source : string)
    (w : World) :
  exists evs,
    trace (finally (etl env db_status data_source)
                   (set_status (SetIsUpdating false)) w).2 = trace w ++ evs /\
    (checks_before_update evs = None
     \/ exists rest, evs = EvSetStatus (SetIsUpdating true) :: rest).
Proof.
  unfold finally, etl, prepare. rewrite bind_assoc, bind_run.
  pose proof (set_status_outcome (SetIsUpdating true) w) as H1.
  destruct (set_status (SetIsUpdating true) w) as [[u|e] w1].
  - destruct H1 as [_ Ht1].
    match goal with |- context [(?m ≫= ?f) w1] =>
      assert (Hrest : trace_extends w1 ((m ≫= f) w1).2);
      [|destruct ((m ≫= f) w1) as [r w2]]
    end.
    { apply (preserves_bind _ trace_extends_frame);
        [apply (preserves_compute_uploads _ trace_extends_frame)|intros p].
      apply (preserves_bind _ trace_extends_frame);
        [apply (preserves_upload_loop _ trace_extends_frame)|intros _].
      unfold after_upload.
      apply (preserves_bind _ trace_extends_frame);
        [apply set_status_trace_extends|intros _].
      apply (preserves_bind _ trace_extends_frame);
        [apply (preserves_save_to_cloud _ trace_extends_frame)|intros _].
      apply (preserves_charting _ trace_extends_frame). }
    destruct Hrest as [e2 Ht2]. simpl in Ht2.
    pose proof (set_status_trace_extends (SetIsUpdating false) w2) as [e3 Ht3].
    destruct (set_status (SetIsUpdating false) w2) as [[u3|e4] w3]; simpl in Ht3 |- *;
      (exists (EvSetStatus (SetIsUpdating true) :: e2 ++ e3);
       split; [|right; eexists; reflexivity];
       rewrite Ht3, Ht2, Ht1, <- !app_assoc; reflexivity).
  - destruct H1 as [_ Ht1].
    pose proof (set_status_outcome (SetIsUpdating false) w1) as H3.
    destruct (set_status (SetIsUpdating false) w1) as [[u3|e4] w3];
      destruct H3 as [_ Ht3]; simpl.
    + exists [EvSetStatus (SetIsUpdating false)]. rewrite Ht3, Ht1.
      split; [reflexivity|left; reflexivity].
    + exists []. rewrite Ht3, Ht1, app_nil_r. split; [reflexivity|left; reflexivity].
Qed.

(** C6, as the spec states it, does not hold in every run: when the source
    is given by the configuration, the status is read once before the flag
    is set, not twice. *)
Lemma gate_two_checks_as_stated_fail :
  ~ (forall (env : Env) (w : World) (evs : list event) (docs : list StatusDocument),
       trace (main env w).2 = trace w ++ evs ->
       checks_before_update evs = Some docs ->
       length docs = 2%nat /\ Forall (fun doc => isUpdating doc = false) docs).
Proof.
  intros H.
  destruct (H (sample_env sample_new None) (sample_world [])
              (trace (main (sample_env sample_new None) (sample_world [])).2)
              [status (sample_world [])]) as [Hlen _].
  - reflexivity.
  - vm_compute. reflexivity.
  - discriminate Hlen.
Qed.

(** C6, amended. In every run that sets [isUpdating] to true, every read of
    the status before that write is a fresh read of the store showing
    [isUpdating = false], and the write follows the last read directly.  When
    the source is searched for, there are two reads: one before the
    scraping, and one after it, of the document as other processes have left
    it meanwhile.  When the configuration gives the source, there is the one
    read only. *)
Theorem gate_checks (env : Env) (w : World) :
  exists evs,
    trace (main env w).2 = trace w ++ evs /\
    match checks_before_update evs with
    | None => True
    | Some docs =>
        Forall (fun doc => isUpdating doc = false) docs /\
        match source_override env with
        | None =>
            docs = [status w; concurrent env (status w)] /\
            exists rest,
              evs = EvFetchStatus (status w) :: EvScrape
                    :: EvFetchStatus (concurrent env (status w))
                    :: EvSetStatus (SetIsUpdating true) :: rest
        | Some _ =>
            docs = [status w] /\
            exists rest,
              evs = EvFetchStatus (status w)
                    :: EvSetStatus (SetIsUpdating true) :: rest
        end
    end.
Proof.
  unfold main. rewrite bind_run.
  pose proof (gate_outcome env w) as Hg.
  destruct (gate env w) as [[[[db_status data_source]|]|e] wg].
  - destruct Hg as [Hu1 Hg].
    destruct (block_trace env db_status data_source wg) as (evb & Htb & Hb).
    destruct (source_override env) as [url|].
    + exists (EvFetchStatus (status w) :: evb).
      split; [rewrite Htb, Hg, <- app_assoc; reflexivity|].
      simpl. destruct Hb as [Hnone|[rest ->]]; [rewrite Hnone; exact I|].
      simpl. split; [repeat constructor; exact Hu1|].
      split; [reflexivity|]. exists rest. reflexivity.
    + destruct Hg as [Hu2 Hg].
      exists (EvFetchStatus (status w) :: EvScrape
              :: EvFetchStatus (concurrent env (status w)) :: evb).
      split; [rewrite Htb, Hg, <- app_assoc; reflexivity|].
      simpl. destruct Hb as [Hnone|[rest ->]]; [rewrite Hnone; exact I|].
      simpl. split; [repeat constructor; assumption|].
      split; [reflexivity|]. exists rest. reflexivity.
  - destruct Hg as (evs & Ht & Hnone). exists evs. split; [exact Ht|].
    rewrite Hnone. exact I.
  - destruct Hg as (evs & Ht & Hnone). exists evs. split; [exact Ht|].
    rewrite Hnone. exact I.
Qed.

(** Both cases of the gate occur: a run that searches for its source and
    finds a new one reads the status twice before it sets the flag. *)
Example run_scrapes :
  let env := mkEnv None (inl sample_source) (fun doc => doc)
               (fun _ => inl sample_wide) (hour 30) (fun _ _ => true) (- 2 ^ 31)
               None None (fun _ => Some "2023-01-01_00z"%string) (fun _ => false) [] in
  let r := main env (sample_world []) in
  r.1 = inl tt /\
  checks_before_update (trace r.2)
  = Some [status (sample_world []); status (sample_world [])].
Proof. vm_compute. repeat split. Qed.

(** Another process has set the flag while this run was scraping: the second
    read sees it and the run exits without a write. *)
Example run_yields :
  let env := mkEnv None (inl sample_source)
               (fun doc => mkStatus true (latestSuccessfulUpdateSource doc)
                                    (globalCharts doc))
               (fun _ => inl sample_wide) (hour 30) (fun _ _ => true) (- 2 ^ 31)
               None None (fun _ => Some "2023-01-01_00z"%string) (fun _ => false) [] in
  let r := main env (sample_world []) in
  r.1 = inl tt /\ checks_before_update (trace r.2) = None /\
  forecasts r.2 = ∅.
Proof. vm_compute. repeat split. Qed.

(** *** The source field *)

Lemma finally_outcome {A : Type} (body : M A) (cleanup : M unit) (w w1 : World)
    (r : A + exn) :
  preserves same_source cleanup ->
  body w = (r, w1) ->
  same_source w1 (finally body cleanup w).2 /\
  (raises r -> raises (finally body cleanup w).1).
Proof.
  intros Hc Hb. unfold finally. rewrite Hb. specialize (Hc w1).
  destruct (cleanup w1) as [[u|e] w2]; simpl in *.
  - split; [exact Hc|auto].
  - split; [exact Hc|]. intros _. exists e. reflexivity.
Qed.

Lemma release_same_source : preserves same_source (set_status (SetIsUpdating false)).
Proof. apply (preserves_set_status _ same_source_frame). exact I. Qed.

(** C9. A run that passes the gate is the guarded block, and for it:
    when the preparation or the upload loop raises (the upload has failed
    at all chunk counts), the run ends with an exception and
    [latestSuccessfulUpdateSource] as it was; when the upload loop returns,
    every part of one attempt has committed and the write of the field to
    the new source is the next step: once that write has returned, the field
    is the new source at the end of the run, whatever the later stages (blob
    save, charting, release of the flag) do; if the write itself raises, the
    run ends with an exception and the field as it was.  A run that stops at
    the gate leaves the world as the gate did. *)
Theorem source_field_atomicity (env : Env) (w : World) :
  match gate env w with
  | (inl (Some (db_status, data_source)), wg) =>
      let run := finally (etl env db_status data_source)
                         (set_status (SetIsUpdating false)) wg in
      main env w = run /\
      match prepare env data_source wg with
      | (inl (merged, uploads), w1) =>
          match upload_loop uploads w1 with
          | (inl _, w2) =>
              (exists i w0, i ∈ candidates /\
                 commits (array_split uploads i) w0 (inl tt, w2)) /\
              match set_status (SetLatestSuccessfulUpdateSource data_source) w2 with
              | (inl _, _) =>
                  latestSuccessfulUpdateSource (status run.2) = data_source
              | (inr _, _) => raises run.1 /\ same_source wg run.2
              end
          | (inr _, _) => raises run.1 /\ same_source wg run.2
          end
      | (inr _, _) => raises run.1 /\ same_source wg run.2
      end
  | (_, wg) => (main env w).2 = wg
  end.
Proof.
  unfold main. rewrite bind_run.
  destruct (gate env w) as [[[[db_status data_source]|]|e] wg]; try reflexivity.
  cbv zeta. split; [reflexivity|].
  pose proof (finally_outcome (etl env db_status data_source)
                (set_status (SetIsUpdating false)) wg) as Hfin.
  pose proof (preserves_prepare _ same_source_frame env data_source wg) as Hp.
  assert (Hetl : forall w', etl env db_status data_source w'
            = match prepare env data_source w' with
              | (inl p, w1) =>
                  match upload_loop p.2 w1 with
                  | (inl _, w2) => after_upload env db_status data_source p.1 w2
                  | (inr err, w2) => (inr err, w2)
                  end
              | (inr err, w1) => (inr err, w1)
              end).
  { intros w'. unfold etl. rewrite bind_run.
    destruct (prepare env data_source w') as [[p|err] w1]; [|reflexivity].
    rewrite bind_run. reflexivity. }
  specialize (Hetl wg).
  destruct (prepare env data_source wg) as [[[merged uploads]|err] w1]; simpl in Hp.
  2:{ destruct (Hfin w1 (inr err) release_same_source Hetl) as [Hs Hr].
      split; [apply Hr; eexists; reflexivity|].
      unfold same_source in *. congruence. }
  simpl in Hetl.
  pose proof (preserves_upload_loop _ same_source_frame uploads w1) as Hu.
  pose proof (upload_loop_escalates uploads w1) as He.
  destruct (upload_loop uploads w1) as [[[]|err] w2]; simpl in Hu.
  2:{ destruct (Hfin w2 (inr err) release_same_source Hetl) as [Hs Hr].
      split; [apply Hr; eexists; reflexivity|].
      unfold same_source in *. congruence. }
  split; [eapply escalates_success_inv; exact He|].
  unfold after_upload in Hetl. rewrite bind_run in Hetl.
  pose proof (set_status_outcome (SetLatestSuccessfulUpdateSource data_source) w2) as Hset.
  destruct (set_status (SetLatestSuccessfulUpdateSource data_source) w2)
    as [[u3|e3] w3]; destruct Hset as [Hset _].
  - assert (Hlater : same_source w3
              ((save_to_cloud env merged ;; charting env db_status data_source) w3).2).
    { apply (preserves_bind _ same_source_frame);
        [apply (preserves_save_to_cloud _ same_source_frame)|intros _].
      apply (preserves_charting _ same_source_frame). }
    destruct ((save_to_cloud env merged ;; charting env db_status data_source) w3)
      as [r4 w4]. simpl in Hlater.
    destruct (Hfin w4 r4 release_same_source Hetl) as [Hs _].
    unfold same_source in *. rewrite Hs, Hlater, Hset. reflexivity.
  - destruct (Hfin w3 (inr e3) release_same_source Hetl) as [Hs Hr].
    split; [apply Hr; eexists; reflexivity|].
    unfold same_source in *. rewrite Hs, Hset. congruence.
Qed.

(** Three runs.  With one near-land cell every attempt meets an empty part,
    which the driver refuses: the upload fails at all chunk counts and the
    field keeps the previous source.  With twelve cells the upload succeeds
    and the field is the new source, also when saving the grid fails. *)
Example run_upload_fails :
  let r := main (sample_env sample_new None) (sample_world []) in
  r.1 = inr (Error "No operations to execute") /\
  latestSuccessfulUpdateSource (status r.2) = sample_previous_source /\
  isUpdating (status r.2) = false.
Proof. vm_compute. repeat split. Qed.

Example run_completes :
  let r := main (sample_env sample_wide None) (sample_world []) in
  r.1 = inl tt /\
  latestSuccessfulUpdateSource (status r.2) = sample_source /\
  isUpdating (status r.2) = false /\
  size (forecasts r.2) = 12%nat /\
  (time <$> blob r.2) = Some [hour (-1); hour 0; hour 1].
Proof. vm_compute. repeat split. Qed.

Example run_save_fails :
  let r := main (sample_env sample_wide (Some (Error "upload timed out")))
                (sample_world []) in
  r.1 = inr (Error "upload timed out") /\
  latestSuccessfulUpdateSource (status r.2) = sample_source /\
  isUpdating (status r.2) = false.
Proof. vm_compute. repeat split. Qed.

(** A reconnect error on the first part is retried by the method itself and
    the attempt with 12 parts goes through. *)
Example run_retries_reconnect :
  let r := main (sample_env sample_wide None)
                (sample_world [None; None; Some (mkFault AutoReconnect [])]) in
  r.1 = inl tt /\ size (forecasts r.2) = 12%nat.
Proof. vm_compute. repeat split. Qed.

End MainFacts.

(** ** UploadBatch: the reference of [forecastStart] and of the offsets *)

Module PublishFacts.
Import Numeric NumericFacts Encoder Merger MergerFacts Publish.

Lemma time_offset_zero (t : Z) : time_offset t t = 0.
Proof. unfold time_offset. rewrite Z.sub_diag. vm_compute. reflexivity. Qed.

(** An hourly timestamp [n] hours after the first one has offset [n]. *)
Lemma time_offset_hours (t0 n : Z) :
  time_offset t0 (t0 + RetentionPlanner.hours n) = n.
Proof.
  unfold time_offset.
  replace (t0 + RetentionPlanner.hours n - t0) with (RetentionPlanner.hours n) by lia.
  unfold RetentionPlanner.hours, RetentionPlanner.ns_per_hour, ns_per_day.
  set (s := ns_per_second).
  assert (Hs : 0 < s) by reflexivity.
  pose proof (Z.div_mod n 24 ltac:(lia)) as Hn.
  pose proof (Z.mod_pos_bound n 24 ltac:(lia)) as Hb.
  set (d := n / 24) in *. set (h := n mod 24) in *. clearbody d h.
  assert (E : n * (3600 * s) = d * (86400 * s) + h * 3600 * s) by lia.
  rewrite E.
  assert (Hdays : (d * (86400 * s) + h * 3600 * s) / (86400 * s) = d).
  { rewrite Z.add_comm, Z.div_add by lia. rewrite Z.div_small by nia. lia. }
  assert (Hrem : (d * (86400 * s) + h * 3600 * s) mod (86400 * s) = h * 3600 * s).
  { rewrite Z.add_comm, Z.mod_add by lia. apply Z.mod_small. nia. }
  rewrite Hdays, Hrem, Z.div_mul by lia.
  assert (Eq : (inject_Z (h * 3600) / 3600 + inject_Z (d * 24) == inject_Z n)%Q).
  { rewrite Hn. rewrite !inject_Z_plus, !inject_Z_mult. field. }
  rewrite (round_half_even_comp _ _ Eq). apply round_half_even_inject.
Qed.

Lemma near_land_cells {B : Type} (f : Z -> Z -> B) (near_land : Z -> Z -> bool)
    (lats lons : list Z) :
  flat_map (fun la => flat_map (fun lo => if near_land la lo then [f la lo] else []) lons)
           lats
  = map (fun p : Z * Z => f p.1 p.2)
        (List.filter (fun p : Z * Z => near_land p.1 p.2) (list_prod lats lons)).
Proof.
  induction lats as [|la lats IH]; simpl; [reflexivity|].
  rewrite List.filter_app, map_app, IH. f_equal.
  clear IH. induction lons as [|lo lons IH]; simpl; [reflexivity|].
  destruct (near_land la lo); simpl; rewrite IH; reflexivity.
Qed.

Lemma build_uploads_cells (invalid_cast : Z) (near_land : Z -> Z -> bool)
    (ds : Dataset) (t0 : Z) (ts : list Z) :
  time ds = t0 :: ts ->
  build_uploads invalid_cast near_land ds
  = Some (map (fun p : Z * Z =>
                 mkReplaceOne (mongo_id p.1 p.2)
                   (mkDocument (mongo_id p.1 p.2) (to_dict_data t0)
                      (encoded_series invalid_cast ds t0 p.1 p.2))
                   true)
              (List.filter (fun p : Z * Z => near_land p.1 p.2)
                           (list_prod (lat ds) (lon ds)))).
Proof.
  intros Ht. unfold build_uploads. rewrite Ht. cbv zeta. f_equal.
  apply (near_land_cells
           (fun la lo => mkReplaceOne (mongo_id la lo)
                           (mkDocument (mongo_id la lo) (to_dict_data t0)
                              (encoded_series invalid_cast ds t0 la lo)) true)).
Qed.

(** The cast to microseconds rounds down: the datetime is the last whole
    microsecond at or before the timestamp. *)
Lemma to_dict_data_floor (t : Z) : 0 <= t - 1000 * to_dict_data t < 1000.
Proof.
  unfold to_dict_data. pose proof (Z.div_mod t 1000 ltac:(lia)).
  pose proof (Z.mod_pos_bound t 1000 ltac:(lia)). lia.
Qed.

Lemma sample_fine_wf : wf sample_fine.
Proof.
  split; [repeat constructor|].
  intros [|]; simpl; apply map_Forall_singleton;
    vm_compute; repeat split; set_unfold; tauto.
Qed.

(** C10, as the spec states it, does not hold: [forecastStart] is a
    datetime, which counts whole microseconds, and names the instant
    [1000 * forecastStart] in nanoseconds; the first timestamp of the sample
    grid is 1500 ns after the epoch, and the document carries 1 microsecond. *)
Lemma forecast_start_as_stated_fails :
  ~ (forall (invalid_cast : Z) (near_land : Z -> Z -> bool) (utc_now : Z)
            (new prior m : Dataset) (t0 : Z) (ops : list ReplaceOne),
       wf new -> wf prior ->
       merge_step utc_now new prior = Some m ->
       head (time m) = Some t0 ->
       build_uploads invalid_cast near_land m = Some ops ->
       forall op, op ∈ ops -> 1000 * forecastStart (replacement op) = t0).
Proof.
  intros H.
  specialize (H 0 (fun _ _ => true) (hour 30) sample_fine sample_fine sample_fine 1500
                [mkReplaceOne "25.00,5.00"
                   (mkDocument "25.00,5.00" 1 [486237000]) true]
                sample_fine_wf sample_fine_wf).
  assert (Hm : merge_step (hour 30) sample_fine sample_fine = Some sample_fine).
  { vm_compute. reflexivity. }
  specialize (H Hm eq_refl).
  assert (Hb : build_uploads 0 (fun _ _ => true) sample_fine
               = Some [mkReplaceOne "25.00,5.00"
                         (mkDocument "25.00,5.00" 1 [486237000]) true]).
  { vm_compute. reflexivity. }
  specialize (H Hb _ (list_elem_of_here _ _)). simpl in H. discriminate H.
Qed.

(** C10, amended. Let the new grid (first timestamp [first_new]) be merged
    with the persisted grid as [main] does it, and the uploads be built from
    the merged grid, whose first timestamp [t0] is the least of its
    timestamps.  Then there is one upload per near-land cell of the merged
    grid; [forecastStart] of every uploaded document is [t0] as a datetime,
    that is [t0] with the nanoseconds below the microsecond dropped, hence
    [t0] itself when [t0] is a whole number of microseconds; every encoded
    value of the document takes its hour offset from [t0] (the offset of
    [t0] itself being 0); and [t0] is before the first timestamp of the new
    grid as soon as the persisted grid has a timestamp between the cutoff
    and it. *)
Theorem forecast_start_reference (invalid_cast : Z) (near_land : Z -> Z -> bool)
    (utc_now : Z) (new prior : Dataset) (first_new : Z) (rest : list Z) :
  wf new -> wf prior -> time new = first_new :: rest ->
  exists m t0 ops,
    merge_step utc_now new prior = Some m /\
    head (time m) = Some t0 /\
    (forall t, t ∈ time m -> t0 <= t) /\
    t0 <= first_new /\
    build_uploads invalid_cast near_land m = Some ops /\
    map filter_id ops
    = map (fun p : Z * Z => mongo_id p.1 p.2)
          (List.filter (fun p : Z * Z => near_land p.1 p.2)
                       (list_prod (lat m) (lon m))) /\
    (forall op, op ∈ ops ->
       0 <= t0 - 1000 * forecastStart (replacement op) < 1000 /\
       (t0 mod 1000 = 0 -> 1000 * forecastStart (replacement op) = t0) /\
       exists la lo,
         la ∈ lat m /\ lo ∈ lon m /\
         filter_id op = mongo_id la lo /\
         tempTimesEncoded (replacement op)
         = map (fun t => encoded_temp_times invalid_cast
                           (utci m !! (la, lo, t)) (wbgt m !! (la, lo, t))
                           (time_offset t0 t))
               (time m)) /\
    time_offset t0 t0 = 0 /\
    (forall t, t ∈ time prior ->
       RetentionPlanner.earliest_necessary_data utc_now first_new <= t ->
       t < first_new -> t0 < first_new).
Proof.
  intros Hn Hp Ht.
  set (cutoff := RetentionPlanner.earliest_necessary_data utc_now first_new).
  set (m := merge new prior cutoff).
  assert (Hin : first_new ∈ time m).
  { apply elem_of_time_merge. left. rewrite Ht. apply elem_of_cons. left. reflexivity. }
  pose proof (time_merge_sorted new prior cutoff Hn Hp) as Hs. fold m in Hs.
  destruct (time m) as [|t0 ts] eqn:Etm; [apply elem_of_nil in Hin; contradiction|].
  pose proof (sorted_lt_head_least t0 ts Hs) as Hleast.
  exists m, t0. eexists.
  split; [unfold merge_step; rewrite Ht; reflexivity|].
  split; [rewrite Etm; reflexivity|].
  split; [rewrite Etm; exact Hleast|].
  split; [apply Hleast; exact Hin|].
  split; [apply (build_uploads_cells invalid_cast near_land m t0 ts Etm)|].
  split; [rewrite map_map; reflexivity|].
  split.
  { intros op Hop. apply list_elem_of_In, in_map_iff in Hop as ([la lo] & <- & Hcell).
    apply filter_In in Hcell as [Hcell _]. apply in_prod_iff in Hcell as [Hla Hlo].
    cbn [replacement forecastStart tempTimesEncoded filter_id fst snd].
    pose proof (to_dict_data_floor t0) as Hfl.
    split; [exact Hfl|]. split.
    { intros Hus. unfold to_dict_data.
      pose proof (Z.div_mod t0 1000 ltac:(lia)). lia. }
    exists la, lo. rewrite <- !list_elem_of_In in *.
    split; [exact Hla|]. split; [exact Hlo|]. split; [reflexivity|].
    unfold encoded_series. rewrite Etm. reflexivity. }
  split; [apply time_offset_zero|].
  intros t Hpt Hcut Hlt.
  assert (Htm : t ∈ t0 :: ts).
  { rewrite <- Etm. apply elem_of_time_merge. right. split; assumption. }
  specialize (Hleast t Htm). lia.
Qed.

Lemma forecast_start_reference_witness :
  exists m t0 ops,
    merge_step (hour 30) sample_new sample_prior = Some m /\
    head (time m) = Some t0 /\
    (forall t, t ∈ time m -> t0 <= t) /\
    t0 <= hour 0 /\
    build_uploads (- 2 ^ 31) (fun _ _ => true) m = Some ops /\
    map filter_id ops
    = map (fun p : Z * Z => mongo_id p.1 p.2)
          (List.filter (fun p : Z * Z => (fun _ _ => true) p.1 p.2)
                       (list_prod (lat m) (lon m))) /\
    (forall op, op ∈ ops ->
       0 <= t0 - 1000 * forecastStart (replacement op) < 1000 /\
       (t0 mod 1000 = 0 -> 1000 * forecastStart (replacement op) = t0) /\
       exists la lo,
         la ∈ lat m /\ lo ∈ lon m /\
         filter_id op = mongo_id la lo /\
         tempTimesEncoded (replacement op)
         = map (fun t => encoded_temp_times (- 2 ^ 31)
                           (utci m !! (la, lo, t)) (wbgt m !! (la, lo, t))
                           (time_offset t0 t))
               (time m)) /\
    time_offset t0 t0 = 0 /\
    (forall t, t ∈ time sample_prior ->
       RetentionPlanner.earliest_necessary_data (hour 30) (hour 0) <= t ->
       t < hour 0 -> t0 < hour 0).
Proof.
  apply (forecast_start_reference (- 2 ^ 31) (fun _ _ => true) (hour 30)
           sample_new sample_prior (hour 0) [hour 1]
           sample_new_wf sample_prior_wf).
  reflexivity.
Defined.

(** On the sample grids the merged grid starts an hour before the new one,
    and so does [forecastStart] (in microseconds). *)
Example sample_forecast_start :
  (merge_step (hour 30) sample_new sample_prior
     ≫= build_uploads (- 2 ^ 31) (fun _ _ => true))
  = Some [ mkReplaceOne "25.00,5.00"
             (mkDocument "25.00,5.00" (hour (-1) / 1000)
                [476234000; 480236001; 486237002])
             true ].
Proof. vm_compute. reflexivity. Qed.

Example format_2f_samples :
  format_2f 2575 = "25.75" /\ format_2f (-50) = "-0.50" /\ format_2f 35975 = "359.75".
Proof. vm_compute. repeat split. Qed.

End PublishFacts.

(** ** FieldPipeline, stage 5 *)

Module FieldPipelineFacts.
Import FieldPipeline.
Local Open Scope R_scope.

Lemma hypot_same (x : R) : hypot x x = Rabs x * sqrt 2.
Proof.
  unfold hypot.
  replace (x * x + x * x) with (Rsqr x * 2) by (unfold Rsqr; ring).
  rewrite sqrt_mult; [|apply Rle_0_sqr|lra].
  rewrite sqrt_Rsqr_abs. reflexivity.
Qed.

Lemma zip_with_hypot_same (u : list R) :
  zip_with hypot u u = map (fun x => Rabs x * sqrt 2) u.
Proof.
  induction u as [|x u IH]; simpl; [reflexivity|].
  rewrite hypot_same, IH. reflexivity.
Qed.

(** C7. In stage 5 the wind speed is the hypotenuse of the u component with
    itself, |u| * sqrt 2 in every cell; the v component is read, not used,
    and dropped with u: the outcome of the stage is the same whatever the v
    component holds. *)
Theorem wind_speed_from_u_only (ds : gmap string (list R)) (u v : list R) :
  ds !! "ugrd10m"%string = Some u ->
  ds !! "vgrd10m"%string = Some v ->
  exists ds',
    wind_speed_stage ds = Some ds' /\
    ds' !! "wind_speed"%string = Some (zip_with hypot u u) /\
    zip_with hypot u u = map (fun x => Rabs x * sqrt 2) u /\
    ds' !! "ugrd10m"%string = None /\
    ds' !! "vgrd10m"%string = None /\
    forall v', wind_speed_stage (<["vgrd10m"%string := v']> ds) = Some ds'.
Proof.
  intros Hu Hv. unfold wind_speed_stage. rewrite Hu, Hv. simpl.
  eexists. split; [reflexivity|].
  split.
  { rewrite !lookup_delete_ne by (intros Hne; discriminate Hne).
    apply lookup_insert_eq. }
  split; [apply zip_with_hypot_same|].
  split; [apply lookup_delete_eq|].
  split.
  { rewrite lookup_delete_ne by (intros Hne; discriminate Hne). apply lookup_delete_eq. }
  intros v'.
  rewrite (lookup_insert_ne ds "vgrd10m"%string "ugrd10m"%string)
    by (intros Hne; discriminate Hne).
  rewrite Hu, lookup_insert_eq. simpl.
  f_equal. f_equal.
  rewrite (insert_insert_ne _ "wind_speed"%string "vgrd10m"%string)
    by (intros Hne; discriminate Hne).
  rewrite delete_insert_eq. reflexivity.
Qed.

Lemma wind_speed_from_u_only_witness :
  exists ds',
    wind_speed_stage {[ "ugrd10m"%string := [3]; "vgrd10m"%string := [4] ]} = Some ds' /\
    ds' !! "wind_speed"%string = Some (zip_with hypot [3] [3]) /\
    zip_with hypot [3] [3] = map (fun x => Rabs x * sqrt 2) [3] /\
    ds' !! "ugrd10m"%string = None /\
    ds' !! "vgrd10m"%string = None /\
    forall v',
      wind_speed_stage
        (<["vgrd10m"%string := v']> {[ "ugrd10m"%string := [3]; "vgrd10m"%string := [4] ]})
      = Some ds'.
Proof.
  apply (wind_speed_from_u_only
           {[ "ugrd10m"%string := [3]; "vgrd10m"%string := [4] ]} [3] [4]);
    reflexivity.
Defined.

End FieldPipelineFacts.

(* ===================================================================== *)
(** * Part III: further properties of the code                            *)
(* ===================================================================== *)

(** ** Rounding *)

Module RoundingFacts.
Import Numeric NumericFacts.

(** The rounded value is within one half of the number. *)
Lemma round_half_even_near (q : Q) :
  (inject_Z (round_half_even q) - (1 # 2) <= q)%Q /\
  (q <= inject_Z (round_half_even q) + (1 # 2))%Q.
Proof.
  unfold round_half_even.
  pose proof (Qfloor_le q) as Hlo. pose proof (Qlt_floor q) as Hhi.
  rewrite inject_Z_plus in Hhi. change (inject_Z 1) with 1%Q in Hhi.
  destruct (Qcompare (q - inject_Z (Qfloor q)) (1 # 2)) eqn:E.
  - apply Qeq_alt in E.
    destruct (Z.even (Qfloor q)); [|rewrite inject_Z_plus; change (inject_Z 1) with 1%Q];
      split; Lqa.lra.
  - apply Qlt_alt in E. split; Lqa.lra.
  - apply Qgt_alt in E. rewrite inject_Z_plus. change (inject_Z 1) with 1%Q.
    split; Lqa.lra.
Qed.

End RoundingFacts.

(** ** Encoder: range, injectivity, overflow, offsets *)

Module EncoderMore.
Import Numeric NumericFacts RoundingFacts Encoder EncoderFacts.

(** The tenths of a multiple of 0.1. *)
Lemma tenths_of_tenth (invalid_cast k : Z) :
  - 2 ^ 31 <= k + 1000 < 2 ^ 31 ->
  tenths invalid_cast (Some (inject_Z k / 10)%Q) = k + 1000.
Proof.
  intros Hk. unfold tenths, fmul, fadd. simpl option_map.
  assert (E : ((inject_Z k / 10 + 100) * 10 == inject_Z (k + 1000))%Q).
  { rewrite inject_Z_plus. change (inject_Z 1000) with 1000%Q. field. }
  assert (R : round_half_even ((inject_Z k / 10 + 100) * 10) = k + 1000).
  { rewrite (round_half_even_comp _ _ E). apply round_half_even_inject. }
  rewrite astype_int32_round; rewrite R; [reflexivity|exact Hk].
Qed.

Lemma tenths_comp (invalid_cast : Z) (x y : Q) :
  (x == y)%Q -> tenths invalid_cast (Some x) = tenths invalid_cast (Some y).
Proof.
  intros H. unfold tenths, fmul, fadd, fround, astype_int32. simpl option_map.
  assert (E : ((x + 100) * 10 == (y + 100) * 10)%Q) by (rewrite H; reflexivity).
  rewrite (round_half_even_comp _ _ E). reflexivity.
Qed.

(** The packed value of multiples of 0.1 in range, without the wrap-around:
    none of the int32 products and sums reaches it. *)
Lemma encoded_of_tenths (invalid_cast k j h : Z) :
  -1000 <= k <= 999 -> -1000 <= j <= 999 -> 0 <= h <= 199 ->
  encoded_temp_times invalid_cast (Some (inject_Z k / 10)%Q) (Some (inject_Z j / 10)%Q) h
  = ((k + 1000) * 2000 + (j + 1000)) * 200 + h.
Proof.
  intros Hk Hj Hh. unfold encoded_temp_times.
  rewrite !tenths_of_tenth by lia.
  rewrite (wrap32_small ((k + 1000) * 2000)) by lia.
  rewrite (wrap32_small ((k + 1000) * 2000 + (j + 1000))) by lia.
  rewrite (wrap32_small (((k + 1000) * 2000 + (j + 1000)) * 200)) by lia.
  apply wrap64_small. lia.
Qed.

(** On the values the encoding is made for (utci and wbgt multiples of 0.1
    from -100.0 to 99.9, offsets from 0 to 199) a code is below 800,000,000,
    so no product or sum of the encoding wraps, and two codes are equal only
    if the two utci, the two wbgt and the two offsets are equal: the packing
    loses nothing there. *)
Theorem encoding_injective (invalid_cast : Z) (k1 j1 k2 j2 h1 h2 : Z) :
  -1000 <= k1 <= 999 -> -1000 <= j1 <= 999 ->
  -1000 <= k2 <= 999 -> -1000 <= j2 <= 999 ->
  0 <= h1 <= 199 -> 0 <= h2 <= 199 ->
  0 <= encoded_temp_times invalid_cast (Some (inject_Z k1 / 10)%Q)
         (Some (inject_Z j1 / 10)%Q) h1 < 800000000 /\
  (encoded_temp_times invalid_cast (Some (inject_Z k1 / 10)%Q)
     (Some (inject_Z j1 / 10)%Q) h1
   = encoded_temp_times invalid_cast (Some (inject_Z k2 / 10)%Q)
       (Some (inject_Z j2 / 10)%Q) h2 ->
   k1 = k2 /\ j1 = j2 /\ h1 = h2).
Proof.
  intros Hk1 Hj1 Hk2 Hj2 Hh1 Hh2.
  rewrite (encoded_of_tenths invalid_cast k1 j1 h1 Hk1 Hj1 Hh1).
  rewrite (encoded_of_tenths invalid_cast k2 j2 h2 Hk2 Hj2 Hh2).
  split; [lia|]. intros Heq. lia.
Qed.

Lemma encoding_injective_witness :
  0 <= encoded_temp_times 0 (Some (inject_Z (-73) / 10)%Q)
         (Some (inject_Z 215 / 10)%Q) 42 < 800000000 /\
  (encoded_temp_times 0 (Some (inject_Z (-73) / 10)%Q) (Some (inject_Z 215 / 10)%Q) 42
   = encoded_temp_times 0 (Some (inject_Z 215 / 10)%Q) (Some (inject_Z (-73) / 10)%Q) 42 ->
   -73 = 215 /\ 215 = -73 /\ 42 = 42).
Proof. apply (encoding_injective 0 (-73) 215 215 (-73) 42 42); lia. Defined.

(** One step above the range is not refused: a wbgt of 100.0 is stored as
    the next utci with wbgt -100.0, and an hour offset of 200 as the next
    wbgt with offset 0. *)
Theorem out_of_range_carries (invalid_cast k h : Z) :
  -1000 <= k <= 998 -> 0 <= h <= 199 ->
  encoded_temp_times invalid_cast (Some (inject_Z k / 10)%Q) (Some 100%Q) h
  = encoded_temp_times invalid_cast (Some (inject_Z (k + 1) / 10)%Q) (Some (-100)%Q) h
  /\
  encoded_temp_times invalid_cast (Some 0%Q) (Some (inject_Z k / 10)%Q) 200
  = encoded_temp_times invalid_cast (Some 0%Q) (Some (inject_Z (k + 1) / 10)%Q) 0.
Proof.
  intros Hk Hh.
  assert (T100 : tenths invalid_cast (Some 100%Q) = 2000).
  { rewrite (tenths_comp invalid_cast 100 (inject_Z 1000 / 10)) by reflexivity.
    rewrite (tenths_of_tenth invalid_cast 1000) by lia. reflexivity. }
  assert (Tm100 : tenths invalid_cast (Some (-100)%Q) = 0).
  { rewrite (tenths_comp invalid_cast (-100) (inject_Z (-1000) / 10)) by reflexivity.
    rewrite (tenths_of_tenth invalid_cast (-1000)) by lia. reflexivity. }
  assert (T0 : tenths invalid_cast (Some 0%Q) = 1000).
  { rewrite (tenths_comp invalid_cast 0 (inject_Z 0 / 10)) by reflexivity.
    rewrite (tenths_of_tenth invalid_cast 0) by lia. reflexivity. }
  unfold encoded_temp_times.
  rewrite T100, Tm100, T0, !tenths_of_tenth by lia.
  split.
  - rewrite !(wrap32_small (_ * 2000)) by lia.
    rewrite !(wrap32_small (_ * 2000 + _)) by lia.
    rewrite !(wrap32_small (_ * 200)) by lia.
    rewrite !wrap64_small by lia. lia.
  - rewrite !(wrap32_small (1000 * 2000)) by lia.
    rewrite !(wrap32_small (1000 * 2000 + _)) by lia.
    rewrite !(wrap32_small (_ * 200)) by lia.
    rewrite !wrap64_small by lia. lia.
Qed.

Lemma out_of_range_carries_witness :
  encoded_temp_times 0 (Some (inject_Z 215 / 10)%Q) (Some 100%Q) 7
  = encoded_temp_times 0 (Some (inject_Z (215 + 1) / 10)%Q) (Some (-100)%Q) 7
  /\
  encoded_temp_times 0 (Some 0%Q) (Some (inject_Z 215 / 10)%Q) 200
  = encoded_temp_times 0 (Some 0%Q) (Some (inject_Z (215 + 1) / 10)%Q) 0.
Proof. apply (out_of_range_carries 0 215 7); lia. Defined.

(** The whole seconds of a duration, as the accessors give them. *)
Lemma whole_seconds (td : Z) :
  td / ns_per_day * 86400 + td mod ns_per_day / ns_per_second = td / ns_per_second.
Proof.
  unfold ns_per_day. set (s := ns_per_second).
  assert (Hs : 0 < s) by reflexivity.
  rewrite (Z.div_mod td (86400 * s)) at 3 by lia.
  rewrite (Z.mul_comm (86400 * s)), Z.mul_assoc, Z.div_add_l by lia. reflexivity.
Qed.

Lemma time_offset_within_half_hour (t0 t : Z) :
  -1800 <= 3600 * time_offset t0 t - (t - t0) / ns_per_second <= 1800.
Proof.
  unfold time_offset. set (td := t - t0).
  set (q := (inject_Z (td mod ns_per_day / ns_per_second) / 3600
             + inject_Z (td / ns_per_day * 24))%Q).
  pose proof (round_half_even_near q) as [Hlo Hhi].
  set (r := round_half_even q) in *.
  assert (Eq : (q == inject_Z (td / ns_per_second) / 3600)%Q).
  { unfold q. rewrite <- (whole_seconds td), inject_Z_plus, !inject_Z_mult.
    change (inject_Z 24) with 24%Q. change (inject_Z 86400) with 86400%Q. field. }
  rewrite Eq in Hlo, Hhi.
  set (total := td / ns_per_second) in *.
  unfold Qdiv in Hlo, Hhi. change (/ 3600)%Q with (1 # 3600)%Q in Hlo, Hhi.
  assert (H1 : (inject_Z (3600 * r - 1800) <= inject_Z total)%Q).
  { replace (3600 * r - 1800) with (3600 * r + -1800) by lia.
    rewrite inject_Z_plus, inject_Z_mult.
    change (inject_Z 3600) with 3600%Q. change (inject_Z (-1800)) with (-1800)%Q.
    Lqa.lra. }
  assert (H2 : (inject_Z total <= inject_Z (3600 * r + 1800))%Q).
  { rewrite inject_Z_plus, inject_Z_mult.
    change (inject_Z 3600) with 3600%Q. change (inject_Z 1800) with 1800%Q. Lqa.lra. }
  rewrite <- Zle_Qle in H1, H2. lia.
Qed.

(** The offset is the number of whole seconds between the two timestamps,
    in hours, rounded to the nearest integer: it is within half an hour of
    the duration, never a truncation. *)
Theorem time_offset_nearest_hour (t0 t : Z) :
  -1800 <= 3600 * time_offset t0 t - (t - t0) / ns_per_second <= 1800.
Proof. apply time_offset_within_half_hour. Qed.

Lemma time_offset_bounds (t0 t : Z) :
  0 <= t - t0 <= RetentionPlanner.hours 199 -> 0 <= time_offset t0 t <= 199.
Proof.
  intros [Hlo Hhi].
  pose proof (time_offset_within_half_hour t0 t) as Hn.
  assert (Hs : 0 < ns_per_second) by reflexivity.
  assert (H0 : 0 <= (t - t0) / ns_per_second) by (apply Z.div_pos; lia).
  assert (H1 : (t - t0) / ns_per_second <= 199 * 3600).
  { apply Z.div_le_upper_bound; [lia|].
    unfold RetentionPlanner.hours, RetentionPlanner.ns_per_hour in Hhi. lia. }
  lia.
Qed.

End EncoderMore.

(** ** The rounding of the encoding in float64 arithmetic *)

Module Binary64Facts.
Import Numeric Encoder EncoderMore Binary64.

(** On the values the encoding is made for, float64 arithmetic and exact
    arithmetic round alike: for the float64 number nearest to a multiple
    [k/10] of 0.1 from -100.0 to 99.9, numpy's rounding of [(x + 100) * 10]
    is [k + 1000], which is what the exact computation gives for [k/10]. *)
Theorem tenths_exact_on_grid (invalid_cast k : Z) :
  -1000 <= k <= 999 ->
  tenths_binary64 invalid_cast (Some (round_binary64 (inject_Z k / 10))) = k + 1000 /\
  tenths invalid_cast (Some (inject_Z k / 10)%Q) = k + 1000.
Proof.
  intros Hk. split; [|apply tenths_of_tenth; lia].
  assert (H : forallb (fun k => tenths_binary64 invalid_cast
                                  (Some (round_binary64 (inject_Z k / 10)))
                                =? k + 1000)
                      (seqZ (-1000) 2000) = true).
  { vm_compute. reflexivity. }
  rewrite forallb_forall in H.
  apply Z.eqb_eq, H, list_elem_of_In, elem_of_seqZ. lia.
Qed.

Lemma tenths_exact_on_grid_witness :
  tenths_binary64 0 (Some (round_binary64 (inject_Z (-73) / 10))) = -73 + 1000 /\
  tenths 0 (Some (inject_Z (-73) / 10)%Q) = -73 + 1000.
Proof. apply (tenths_exact_on_grid 0 (-73)). lia. Defined.

(** Off that grid the two can differ: the float64 number nearest to 0.15 is
    below 0.15, but the float64 sum and product bring it to 1001.5 exactly,
    which rounds to the even 1002. *)
Example tenths_differ_off_grid :
  tenths_binary64 0 (Some (round_binary64 (15 # 100))) = 1002 /\
  tenths 0 (Some (round_binary64 (15 # 100))) = 1001.
Proof. vm_compute. split; reflexivity. Qed.

End Binary64Facts.

(** ** ChartShifter: buckets and shifts *)

Module ChartShifterMore.
Import Numeric NumericFacts RoundingFacts ChartShifter HourAngleShift MergerFacts.

(** On the grid (longitudes from 0 to 360 degrees) a bucket lies between -11
    and 12, and 15 degrees times the bucket is within 7.5 degrees of the
    longitude, taken modulo 360. *)
Theorem bucket_nearest_hour (lon : Q) :
  (0 <= lon)%Q -> (lon <= 360)%Q ->
  -11 <= utc_hour_angle lon <= 12 /\
  let b := inject_Z (utc_hour_angle lon) in
  ((15 * b - (15 # 2) <= lon)%Q /\ (lon <= 15 * b + (15 # 2))%Q) \/
  ((15 * b - (15 # 2) <= lon - 360)%Q /\ (lon - 360 <= 15 * b + (15 # 2))%Q).
Proof.
  intros Hlo Hhi.
  pose proof (round_half_even_near (lon / 15)%Q) as [N1 N2].
  assert (B : 0 <= hour_angle lon <= 24).
  { unfold hour_angle. apply round_half_even_bounds.
    - change (inject_Z 0) with 0%Q. apply Qle_shift_div_l; [reflexivity|].
      ring_simplify. exact Hlo.
    - apply Qle_shift_div_r; [reflexivity|].
      apply Qle_trans with (y := 360%Q); [exact Hhi|discriminate]. }
  unfold utc_hour_angle. fold (hour_angle lon) in N1, N2.
  unfold Qdiv in N1, N2. change (/ 15)%Q with (1 # 15)%Q in N1, N2.
  destruct (Z.gtb_spec (hour_angle lon) 12) as [Hgt|Hle].
  - split; [lia|]. cbv zeta. right.
    replace (hour_angle lon - 24) with (hour_angle lon + -24) by lia.
    rewrite inject_Z_plus. change (inject_Z (-24)) with (-24)%Q.
    split; Lqa.lra.
  - split; [lia|]. cbv zeta. left. split; Lqa.lra.
Qed.

Lemma bucket_nearest_hour_witness :
  -11 <= utc_hour_angle (35975 # 100) <= 12 /\
  let b := inject_Z (utc_hour_angle (35975 # 100)) in
  ((15 * b - (15 # 2) <= 35975 # 100)%Q /\ (35975 # 100 <= 15 * b + (15 # 2))%Q) \/
  ((15 * b - (15 # 2) <= (35975 # 100) - 360)%Q
   /\ ((35975 # 100) - 360 <= 15 * b + (15 # 2))%Q).
Proof. apply (bucket_nearest_hour (35975 # 100)); discriminate. Defined.

(** *** The shift *)

Lemma shift_length (k : Z) (s : list float) : length (shift k s) = length s.
Proof.
  unfold shift, float in *. destruct (0 <=? k);
    rewrite length_app, length_replicate; [rewrite length_take|rewrite length_drop]; lia.
Qed.

Lemma shift_lookup (k : Z) (s : list float) (i : nat) :
  (i < length s)%nat ->
  shift k s !! i
  = if (0 <=? Z.of_nat i - k) && (Z.of_nat i - k <? Z.of_nat (length s))
    then s !! Z.to_nat (Z.of_nat i - k)
    else Some None.
Proof.
  intros Hi. unfold shift, float in *.
  destruct (Z.leb_spec 0 k) as [Hk|Hk].
  - destruct (Z.leb_spec 0 (Z.of_nat i - k)) as [H1|H1]; simpl.
    + destruct (Z.ltb_spec (Z.of_nat i - k) (Z.of_nat (length s))) as [H2|H2]; [|lia].
      rewrite lookup_app_r; rewrite length_replicate; [|lia].
      rewrite lookup_take_lt by lia. f_equal. lia.
    + rewrite lookup_app_l by (rewrite length_replicate; lia).
      apply lookup_replicate_2. lia.
  - destruct (Z.leb_spec 0 (Z.of_nat i - k)) as [H1|H1]; [|lia]. simpl.
    destruct (Z.ltb_spec (Z.of_nat i - k) (Z.of_nat (length s))) as [H2|H2].
    + rewrite lookup_app_l by (rewrite length_drop; lia).
      rewrite lookup_drop. f_equal. lia.
    + rewrite lookup_app_r; rewrite length_drop; [|lia].
      apply lookup_replicate_2. lia.
Qed.

Lemma foldl_where_shift (os : list Z) (ds : list cell) :
  NoDup os ->
  foldl (fun d offset => where_shift offset d) ds os
  = map (fun c : cell =>
           if decide (utc_hour_angle c.1 ∈ os)
           then (c.1, shift (utc_hour_angle c.1) c.2) else c)
        ds.
Proof.
  intros Hnd. revert ds. induction Hnd as [|o os Hno Hnd IH]; intros ds; simpl.
  - symmetry. erewrite map_ext; [apply map_id|].
    intros c. destruct (decide (utc_hour_angle c.1 ∈ [])) as [Hin|_]; [|reflexivity].
    apply elem_of_nil in Hin. contradiction.
  - rewrite IH. unfold where_shift. rewrite map_map. apply map_ext. intros c.
    destruct (Z.eqb_spec (utc_hour_angle c.1) o) as [E|NE]; simpl.
    + rewrite E. destruct (decide (o ∈ os)); [contradiction|].
      destruct (decide (o ∈ o :: os)) as [_|Hn]; [reflexivity|].
      exfalso. apply Hn. left.
    + destruct (decide (utc_hour_angle c.1 ∈ os)) as [Hin|Hnin];
        destruct (decide (utc_hour_angle c.1 ∈ o :: os)) as [Hin'|Hnin'];
        try reflexivity.
      * exfalso. apply Hnin'. right. exact Hin.
      * exfalso. apply elem_of_cons in Hin' as [?|?]; contradiction.
Qed.

(** After the loop over the distinct buckets every cell has been shifted
    once, by its own bucket: its value at a position is the value it had
    [bucket] positions earlier, or NaN where there is no such position. *)
Theorem every_cell_shifted_by_its_bucket (ds : list cell) :
  shift_by_hour_angle ds
  = map (fun c : cell => (c.1, shift (utc_hour_angle c.1) c.2)) ds /\
  forall k s,
    length (shift k s) = length s /\
    forall i, (i < length s)%nat ->
      shift k s !! i
      = if (0 <=? Z.of_nat i - k) && (Z.of_nat i - k <? Z.of_nat (length s))
        then s !! Z.to_nat (Z.of_nat i - k)
        else Some None.
Proof.
  split.
  - unfold shift_by_hour_angle.
    rewrite foldl_where_shift
      by (apply sorted_lt_NoDup, sort_unique_sorted).
    apply map_ext_in. intros c Hc.
    destruct (decide (utc_hour_angle c.1 ∈ unique_offsets ds)) as [_|Hn]; [reflexivity|].
    exfalso. apply Hn. unfold unique_offsets. apply elem_of_sort_unique.
    apply list_elem_of_In. apply (in_map (fun c : cell => utc_hour_angle c.1)). exact Hc.
  - intros k s. split; [apply shift_length|apply shift_lookup].
Qed.

Example shift_samples :
  shift 2 [Some 1%Q; Some 2%Q; Some 3%Q] = [None; None; Some 1%Q] /\
  shift (-1) [Some 1%Q; Some 2%Q; Some 3%Q] = [Some 2%Q; Some 3%Q; None] /\
  shift 5 [Some 1%Q; Some 2%Q; Some 3%Q] = [None; None; None].
Proof. repeat split. Qed.

End ChartShifterMore.

(** ** RetentionPlanner: where the cutoff lies *)

Module RetentionPlannerMore.
Import RetentionPlanner RetentionPlannerFacts.

Lemma floor_day_mono (a b : Z) : a <= b -> floor_day a <= floor_day b.
Proof.
  intros H. unfold floor_day.
  apply Z.mul_le_mono_nonneg_r; [vm_compute; discriminate|].
  apply Z.div_le_mono; [reflexivity|exact H].
Qed.

(** The cutoff never moves back: a later clock and a later first timestamp
    give a cutoff that is not earlier. *)
Theorem cutoff_monotone (utc_now utc_now' first_time first_time' : Z) :
  utc_now <= utc_now' -> first_time <= first_time' ->
  earliest_necessary_data utc_now first_time
  <= earliest_necessary_data utc_now' first_time'.
Proof.
  intros Hn Hf.
  unfold earliest_necessary_data, earliest_forecast_time, earliest_global_chart_data,
    earliest_global_chart_to_update.
  pose proof (floor_day_mono (utc_now - hours 25) (utc_now' - hours 25) ltac:(lia)).
  pose proof (floor_day_mono first_time first_time' Hf).
  lia.
Qed.

Lemma cutoff_monotone_witness :
  earliest_necessary_data (hours 30) (hours 0)
  <= earliest_necessary_data (hours 36) (hours 6).
Proof. apply (cutoff_monotone (hours 30) (hours 36) (hours 0) (hours 6)); vm_compute; discriminate. Defined.


End RetentionPlannerMore.

(** ** Merger: idempotence, invariant, retention *)

Module MergerMore.
Import Merger MergerFacts RetentionPlanner RetentionPlannerFacts.

Lemma sorted_lt_unique (l1 l2 : list Z) :
  StronglySorted Z.lt l1 -> StronglySorted Z.lt l2 ->
  (forall x, x ∈ l1 <-> x ∈ l2) -> l1 = l2.
Proof.
  intros H1 H2 Hel.
  apply (StronglySorted_unique_strong Z.lt); try assumption.
  - intros x1 x2 _ _ Ha Hb. lia.
  - apply NoDup_Permutation; [apply sorted_lt_NoDup; exact H1
                             |apply sorted_lt_NoDup; exact H2|exact Hel].
Qed.

Lemma index_union_absorb (l l' : list Z) :
  StronglySorted Z.lt l -> (forall x, x ∈ l' -> x ∈ l) -> index_union l l' = l.
Proof.
  intros Hs Hsub. apply sorted_lt_unique; [|exact Hs|].
  - unfold index_union. destruct (decide (l = l')); [exact Hs|].
    destruct l as [|x l]; [|destruct l' as [|y l']; [exact Hs|apply sort_unique_sorted]].
    destruct l' as [|y l']; [exact Hs|].
    specialize (Hsub y ltac:(left)). apply elem_of_nil in Hsub. contradiction.
  - intros x. rewrite elem_of_index_union. split; [intros [H|H]; auto|auto].
Qed.

Lemma union_sel_time_var (cutoff : Z) (a : gmap (Z * Z * Z) Q) :
  a ∪ sel_time_var cutoff a = a.
Proof.
  apply map_eq. intros k.
  destruct (a !! k) as [x|] eqn:E.
  - apply lookup_union_Some_l. exact E.
  - rewrite lookup_union_r by exact E. rewrite lookup_sel_time_var, E.
    destruct (decide _); reflexivity.
Qed.

(** Merging a grid with itself gives the grid back, at any cutoff. *)
Theorem merge_idempotent (ds : Dataset) (cutoff : Z) :
  wf ds -> merge ds ds cutoff = ds.
Proof.
  intros [Hs _]. destruct ds as [la lo ti u w]. simpl in Hs.
  unfold merge, combine_first, sel_time. simpl. f_equal.
  - unfold index_union. destruct (decide (la = la)); [reflexivity|contradiction].
  - unfold index_union. destruct (decide (lo = lo)); [reflexivity|contradiction].
  - apply index_union_absorb; [exact Hs|].
    intros x Hx. apply list_elem_of_filter in Hx as [_ Hx]. exact Hx.
  - apply union_sel_time_var.
  - apply union_sel_time_var.
Qed.

Lemma merge_idempotent_witness :
  merge sample_prior sample_prior (hour 0) = sample_prior.
Proof. apply (merge_idempotent sample_prior (hour 0)). exact sample_prior_wf. Defined.

Lemma merge_wf_witness : wf (merge sample_new sample_prior (hour (-1))).
Proof. exact (merge_wf sample_new sample_prior (hour (-1)) sample_new_wf sample_prior_wf). Defined.

(** The merge of [main] keeps every timestamp of the new grid and nothing
    from before the cutoff: no timestamp of the merged grid is earlier, and
    no cell with an earlier timestamp has a value. *)
Theorem merge_step_retention (utc_now : Z) (new prior : Dataset)
    (first_time : Z) (rest : list Z) :
  wf new -> wf prior -> time new = first_time :: rest ->
  exists m,
    merge_step utc_now new prior = Some m /\
    (forall t, t ∈ time new -> t ∈ time m) /\
    (forall t, t ∈ time m -> earliest_necessary_data utc_now first_time <= t) /\
    (forall v k, key_time k < earliest_necessary_data utc_now first_time ->
       values v m !! k = None).
Proof.
  intros Hn Hp Ht.
  set (cutoff := earliest_necessary_data utc_now first_time).
  assert (Hc : cutoff <= first_time).
  { unfold cutoff, earliest_necessary_data, earliest_global_chart_data,
      earliest_global_chart_to_update.
    pose proof (floor_day_spec first_time) as [_ [H _]].
    assert (0 <= hours 12) by (vm_compute; discriminate). lia. }
  assert (Hnew : forall t, t ∈ time new -> cutoff <= t).
  { intros t Hin. destruct Hn as [Hs _]. rewrite Ht in Hs, Hin.
    pose proof (sorted_lt_head_least first_time rest Hs t Hin). lia. }
  exists (merge new prior cutoff).
  split; [unfold merge_step; rewrite Ht; reflexivity|].
  split; [intros t Hin; apply elem_of_time_merge; left; exact Hin|].
  split.
  { intros t Hin. apply elem_of_time_merge in Hin as [Hin|[_ Hle]]; [apply Hnew; exact Hin|exact Hle]. }
  intros v k Hk. rewrite lookup_merge.
  destruct (values v new !! k) as [x|] eqn:E.
  - destruct Hn as [_ Hn]. destruct (Hn v k x E) as (_ & _ & H3).
    specialize (Hnew _ H3). unfold key_time in Hk. lia.
  - destruct (decide (cutoff <= key_time k)); [lia|reflexivity].
Qed.

Lemma merge_step_retention_witness :
  exists m,
    merge_step (hour 30) sample_new sample_prior = Some m /\
    (forall t, t ∈ time sample_new -> t ∈ time m) /\
    (forall t, t ∈ time m -> earliest_necessary_data (hour 30) (hour 0) <= t) /\
    (forall v k, key_time k < earliest_necessary_data (hour 30) (hour 0) ->
       values v m !! k = None).
Proof.
  apply (merge_step_retention (hour 30) sample_new sample_prior (hour 0) [hour 1]
           sample_new_wf sample_prior_wf).
  reflexivity.
Defined.

End MergerMore.

(** ** The offsets of the merged grid stay in the range of the encoding *)

Module OffsetRange.
Import Encoder EncoderMore Merger MergerFacts RetentionPlanner RetentionPlannerFacts.

(** When the new grid starts at most 31 hours after the clock and neither
    grid reaches further than 119 hours after that start, every hour offset
    of the merged grid of [main] lies between 0 and 199, the range the
    encoding has room for. *)
Theorem merged_offsets_in_range (utc_now : Z) (new prior : Dataset)
    (first_time : Z) (rest : list Z) :
  wf new -> wf prior -> time new = first_time :: rest ->
  first_time <= utc_now + hours 31 ->
  (forall t, t ∈ time new -> t <= first_time + hours 119) ->
  (forall t, t ∈ time prior -> t <= first_time + hours 119) ->
  exists m t0,
    merge_step utc_now new prior = Some m /\
    head (time m) = Some t0 /\
    forall t, t ∈ time m -> 0 <= time_offset t0 t <= 199.
Proof.
  intros Hn Hp Ht Hnow Hnew Hprior.
  set (cutoff := earliest_necessary_data utc_now first_time).
  set (m := merge new prior cutoff).
  assert (Hc : Z.min (utc_now - hours 49) (first_time - hours 36) < cutoff <= first_time).
  { unfold cutoff, earliest_necessary_data, earliest_forecast_time,
      earliest_global_chart_data, earliest_global_chart_to_update.
    pose proof (floor_day_spec (utc_now - hours 25)) as (_ & L1 & U1).
    pose proof (floor_day_spec first_time) as (_ & L2 & U2).
    assert (H49 : hours 49 = hours 25 + Encoder.ns_per_day) by reflexivity.
    assert (H36 : hours 36 = hours 12 + Encoder.ns_per_day) by reflexivity.
    assert (0 <= hours 12) by (vm_compute; discriminate). lia. }
  assert (Hin : first_time ∈ time m).
  { apply elem_of_time_merge. left. rewrite Ht. left. }
  assert (Hall : forall t, t ∈ time m -> cutoff <= t <= first_time + hours 119).
  { intros t Hm. apply elem_of_time_merge in Hm as [Hm|[Hm Hle]].
    - split; [|apply Hnew; exact Hm].
      destruct Hn as [Hs _]. rewrite Ht in Hs, Hm.
      pose proof (sorted_lt_head_least first_time rest Hs t Hm). lia.
    - split; [exact Hle|apply Hprior; exact Hm]. }
  pose proof (time_merge_sorted new prior cutoff Hn Hp) as Hs. fold m in Hs.
  destruct (time m) as [|t0 ts] eqn:Etm; [apply elem_of_nil in Hin; contradiction|].
  exists m, t0.
  split; [unfold merge_step; rewrite Ht; reflexivity|].
  split; [rewrite Etm; reflexivity|].
  intros t Hm. apply time_offset_bounds. rewrite Etm in Hm.
  pose proof (sorted_lt_head_least t0 ts Hs t Hm) as Hle.
  destruct (Hall t Hm) as [_ Hup].
  destruct (Hall t0 ltac:(left)) as [Hlow _].
  assert (H199 : hours 199 = hours 119 + hours 31 + hours 49) by reflexivity.
  assert (H36 : hours 36 + hours 119 <= hours 199) by (vm_compute; discriminate).
  lia.
Qed.

Lemma merged_offsets_in_range_witness :
  exists m t0,
    merge_step (hour 30) sample_new sample_prior = Some m /\
    head (time m) = Some t0 /\
    forall t, t ∈ time m -> 0 <= time_offset t0 t <= 199.
Proof.
  apply (merged_offsets_in_range (hour 30) sample_new sample_prior (hour 0) [hour 1]
           sample_new_wf sample_prior_wf).
  - reflexivity.
  - vm_compute. discriminate.
  - intros t Hin. simpl in Hin.
    repeat (apply elem_of_cons in Hin as [->|Hin]; [vm_compute; discriminate|]).
    apply elem_of_nil in Hin. contradiction.
  - intros t Hin. simpl in Hin.
    repeat (apply elem_of_cons in Hin as [->|Hin]; [vm_compute; discriminate|]).
    apply elem_of_nil in Hin. contradiction.
Defined.

End OffsetRange.

(** ** UploadBatch: shape of the list and of the keys *)

Module PublishMore.
Import Numeric Encoder Merger MergerFacts Publish PublishFacts Text.

(** *** Decimal strings *)

Lemma all_chars_app (P : ascii -> bool) (s t : string) :
  all_chars P (s +:+ t) = all_chars P s && all_chars P t.
Proof.
  induction s as [|c s IH]; simpl; [reflexivity|].
  rewrite IH. apply andb_assoc.
Qed.

Lemma all_chars_impl (P Q : ascii -> bool) (s : string) :
  (forall c, P c = true -> Q c = true) -> all_chars P s = true -> all_chars Q s = true.
Proof.
  intros H. induction s as [|c s IH]; simpl; [reflexivity|].
  intros Hs. apply andb_true_iff in Hs as [Hc Hs].
  rewrite (H c Hc), (IH Hs). reflexivity.
Qed.

Lemma pretty_N_char_digit (x : N) : is_digit (pretty_N_char x) = true.
Proof. unfold pretty_N_char. repeat case_match; reflexivity. Qed.

Lemma pretty_N_go_digits (x : N) (s : string) :
  all_chars is_digit s = true -> all_chars is_digit (pretty_N_go x s) = true.
Proof.
  revert s. induction (N.lt_wf_0 x) as [x _ IH]; intros s Hs.
  assert (x = 0 \/ 0 < x)%N as [->|Hx] by lia.
  - rewrite pretty_N_go_0. exact Hs.
  - rewrite pretty_N_go_step by exact Hx. apply IH.
    + apply N.div_lt; [exact Hx|reflexivity].
    + simpl. rewrite pretty_N_char_digit, Hs. reflexivity.
Qed.

Lemma pretty_N_digits (x : N) : all_chars is_digit (pretty x) = true.
Proof.
  unfold pretty, pretty_N. destruct (decide (x = 0%N)); [reflexivity|].
  apply pretty_N_go_digits. reflexivity.
Qed.

Lemma pretty_Z_digits (x : Z) : 0 <= x -> all_chars is_digit (pretty x) = true.
Proof.
  intros Hx. destruct x as [|p|p]; [reflexivity| |lia].
  apply (pretty_N_digits (Npos p)).
Qed.

Lemma pretty_Z_nonempty (x : Z) : pretty x <> "".
Proof.
  intros H. assert (E : pretty x = pretty 0) ; [|].
  2:{ apply (inj pretty) in E. subst x. discriminate H. }
  exfalso. destruct x as [|p|p]; [discriminate H| |discriminate H].
  unfold pretty, pretty_Z, pretty, pretty_positive, pretty, pretty_N in H.
  destruct (decide (Npos p = 0%N)); [discriminate|].
  assert (Hlen : ¬ (String.length (pretty_N_go (Npos p) "") < 1)%nat).
  { rewrite pretty_N_go_step by lia.
    assert (G : forall x s, (String.length s <= String.length (pretty_N_go x s))%nat).
    { intros x. induction (N.lt_wf_0 x) as [x _ IH]; intros s.
      assert (x = 0 \/ 0 < x)%N as [->|Hx] by lia; [rewrite pretty_N_go_0; lia|].
      rewrite pretty_N_go_step by exact Hx.
      etransitivity; [|apply IH, N.div_lt; [exact Hx|reflexivity]]. simpl. lia. }
    specialize (G (N.pos p `div` 10)%N (String (pretty_N_char (N.pos p `mod` 10)) "")).
    simpl in G. lia. }
  rewrite H in Hlen. simpl in Hlen. lia.
Qed.

(** A digit for each number below ten. *)
Lemma pretty_digit (n : Z) :
  0 <= n < 10 -> pretty n = String (pretty_N_char (Z.to_N n)) "".
Proof.
  intros Hn. replace n with (Z.of_nat (Z.to_nat n)) by lia.
  assert (Hk : (Z.to_nat n < 10)%nat) by lia.
  revert Hk. generalize (Z.to_nat n). intros k Hk.
  do 10 (destruct k as [|k]; [reflexivity|]). lia.
Qed.

(** Two strings with the same separator after a prefix without it. *)
Lemma split_at_separator (sep : ascii) (a a' b b' : string) :
  all_chars (is_not sep) a = true -> all_chars (is_not sep) a' = true ->
  a +:+ String sep b = a' +:+ String sep b' -> a = a' /\ b = b'.
Proof.
  revert a'. induction a as [|c a IH]; intros [|c' a'] Ha Ha' H; simpl in *.
  - inversion H. auto.
  - inversion H; subst. unfold is_not in Ha'. rewrite Ascii.eqb_refl in Ha'. discriminate.
  - inversion H; subst. unfold is_not in Ha. rewrite Ascii.eqb_refl in Ha. discriminate.
  - inversion H; subst. apply andb_true_iff in Ha as [_ Ha], Ha' as [_ Ha'].
    destruct (IH a' Ha Ha' H2) as [-> ->]. auto.
Qed.

Lemma digit_is_not (sep : ascii) :
  is_digit sep = false -> forall c, is_digit c = true -> is_not sep c = true.
Proof.
  intros Hsep c Hc. unfold is_not. destruct (Ascii.eqb_spec c sep) as [->|]; [|reflexivity].
  congruence.
Qed.

(** *** The keys *)

Lemma pretty_starts_with_digit (x : Z) :
  0 <= x -> exists c s, pretty x = String c s /\ is_digit c = true.
Proof.
  intros Hx. pose proof (pretty_Z_digits x Hx) as Hd.
  pose proof (pretty_Z_nonempty x) as Hne.
  destruct (pretty x) as [|c s]; [contradiction|].
  simpl in Hd. apply andb_true_iff in Hd as [Hc _]. eauto.
Qed.

Lemma two_digits_inj (d d' : Z) :
  0 <= d < 100 -> 0 <= d' < 100 -> two_digits d = two_digits d' -> d = d'.
Proof.
  intros Hd Hd' H. unfold two_digits in H.
  assert (B1 : 0 <= d / 10 < 10) by (split; [apply Z.div_pos|apply Z.div_lt_upper_bound]; lia).
  assert (B2 : 0 <= d' / 10 < 10) by (split; [apply Z.div_pos|apply Z.div_lt_upper_bound]; lia).
  pose proof (Z.mod_pos_bound d 10 ltac:(lia)) as B3.
  pose proof (Z.mod_pos_bound d' 10 ltac:(lia)) as B4.
  rewrite !pretty_digit in H by assumption. simpl in H. inversion H as [[H1 H2]].
  apply pretty_N_char_inj in H1; [|lia..]. apply pretty_N_char_inj in H2; [|lia..].
  pose proof (Z.div_mod d 10 ltac:(lia)). pose proof (Z.div_mod d' 10 ltac:(lia)). lia.
Qed.

Lemma unsigned_2f_inj (x y : Z) :
  0 <= x -> 0 <= y ->
  pretty (x / 100) +:+ "." +:+ two_digits (x mod 100)
  = pretty (y / 100) +:+ "." +:+ two_digits (y mod 100) -> x = y.
Proof.
  intros Hx Hy H.
  assert (Qx : 0 <= x / 100) by (apply Z.div_pos; lia).
  assert (Qy : 0 <= y / 100) by (apply Z.div_pos; lia).
  apply (split_at_separator "."%char) in H as [Hq Hd].
  - apply (inj pretty) in Hq.
    apply two_digits_inj in Hd; [|apply Z.mod_pos_bound; lia..].
    pose proof (Z.div_mod x 100 ltac:(lia)). pose proof (Z.div_mod y 100 ltac:(lia)). lia.
  - eapply all_chars_impl; [apply (digit_is_not "."%char); reflexivity|].
    apply pretty_Z_digits. exact Qx.
  - eapply all_chars_impl; [apply (digit_is_not "."%char); reflexivity|].
    apply pretty_Z_digits. exact Qy.
Qed.

Lemma format_2f_inj (x y : Z) : format_2f x = format_2f y -> x = y.
Proof.
  unfold format_2f. intros H.
  destruct (Z.ltb_spec x 0) as [Hx|Hx]; destruct (Z.ltb_spec y 0) as [Hy|Hy].
  - simpl in H. inversion H as [H']. apply unsigned_2f_inj in H'; lia.
  - exfalso. destruct (pretty_starts_with_digit (Z.abs y / 100)) as (c & s & E & Hc);
      [apply Z.div_pos; lia|].
    rewrite E in H. simpl in H. inversion H; subst. discriminate Hc.
  - exfalso. destruct (pretty_starts_with_digit (Z.abs x / 100)) as (c & s & E & Hc);
      [apply Z.div_pos; lia|].
    rewrite E in H. simpl in H. inversion H; subst. discriminate Hc.
  - simpl in H. apply unsigned_2f_inj in H; lia.
Qed.

Lemma format_2f_no_comma (x : Z) : all_chars (is_not ","%char) (format_2f x) = true.
Proof.
  unfold format_2f, two_digits. rewrite !all_chars_app.
  assert (D : forall n, 0 <= n -> all_chars (is_not ","%char) (pretty n) = true).
  { intros n Hn. eapply all_chars_impl; [apply (digit_is_not ","%char); reflexivity|].
    apply pretty_Z_digits. exact Hn. }
  pose proof (Z.mod_pos_bound (Z.abs x) 100 ltac:(lia)) as Hd.
  rewrite !D.
  - destruct (x <? 0); reflexivity.
  - apply Z.mod_pos_bound. lia.
  - apply Z.div_pos; lia.
  - apply Z.div_pos; lia.
Qed.

Lemma mongo_id_inj (lat lon lat' lon' : Z) :
  mongo_id lat lon = mongo_id lat' lon' -> lat = lat' /\ lon = lon'.
Proof.
  unfold mongo_id. intros H.
  apply (split_at_separator ","%char) in H as [H1 H2]; try apply format_2f_no_comma.
  split; apply format_2f_inj; assumption.
Qed.

(** Two cells have the same document key only if they are the same cell. *)
Theorem mongo_id_injective (lat lon lat' lon' : Z) :
  mongo_id lat lon = mongo_id lat' lon' -> lat = lat' /\ lon = lon'.
Proof. apply mongo_id_inj. Qed.

Lemma mongo_id_injective_witness :
  2575 = 2575 /\ 35975 = 35975.
Proof. apply (mongo_id_injective 2575 35975 2575 35975). reflexivity. Defined.

(** *** The list of uploads *)

Lemma NoDup_list_prod (l l' : list Z) : NoDup l -> NoDup l' -> NoDup (list_prod l l').
Proof.
  intros Hl Hl'. induction Hl as [|x l Hx Hl IH]; simpl; [constructor|].
  apply NoDup_app. split; [|split; [|exact IH]].
  - apply (NoDup_fmap_2 (pair x)). exact Hl'.
  - intros p Hp Hq. apply list_elem_of_In in Hp, Hq.
    apply in_map_iff in Hp as (y & <- & _). apply in_prod_iff in Hq as [Hq _].
    apply Hx. apply list_elem_of_In. exact Hq.
Qed.

Lemma NoDup_map_inj {A B : Type} (f : A -> B) (l : list A) :
  (forall x y, f x = f y -> x = y) -> NoDup l -> NoDup (map f l).
Proof.
  intros Hf Hl. induction Hl as [|x l Hx Hl IH]; simpl; constructor; [|exact IH].
  intros Hin. apply list_elem_of_In, in_map_iff in Hin as (y & Hy & Hin).
  apply Hf in Hy. subst y. apply Hx, list_elem_of_In. exact Hin.
Qed.

Lemma NoDup_bool_filter {A : Type} (f : A -> bool) (l : list A) :
  NoDup l -> NoDup (List.filter f l).
Proof.
  intros Hl. induction Hl as [|x l Hx Hl IH]; simpl; [constructor|].
  destruct (f x); [|exact IH]. constructor; [|exact IH].
  intros Hin. apply list_elem_of_In, filter_In in Hin as [Hin _].
  apply Hx, list_elem_of_In. exact Hin.
Qed.

(** The list of uploads is refused only for a grid without timestamps.
    Otherwise it has one upsert per near-land cell, in the order of the
    grid (latitudes outermost), keyed by the cell; every upsert replaces the
    document of its own key, carries the first timestamp of the grid as a
    datetime (the last whole microsecond at or before it) and one encoded
    value per timestamp. *)
Theorem uploads_shape (invalid_cast : Z) (near_land : Z -> Z -> bool) (ds : Dataset) :
  (build_uploads invalid_cast near_land ds = None <-> time ds = []) /\
  match build_uploads invalid_cast near_land ds with
  | None => True
  | Some ops =>
      map filter_id ops
      = map (fun p : Z * Z => mongo_id p.1 p.2)
            (List.filter (fun p : Z * Z => near_land p.1 p.2)
                         (list_prod (lat ds) (lon ds))) /\
      Forall (fun op =>
                _id (replacement op) = filter_id op /\
                upsert op = true /\
                (exists t0, head (time ds) = Some t0 /\
                   0 <= t0 - 1000 * forecastStart (replacement op) < 1000) /\
                length (tempTimesEncoded (replacement op)) = length (time ds))
             ops
  end.
Proof.
  destruct (time ds) as [|t0 ts] eqn:Ht.
  - unfold build_uploads. rewrite Ht. split; [tauto|exact I].
  - rewrite (build_uploads_cells invalid_cast near_land ds t0 ts Ht).
    split; [split; discriminate|].
    split; [rewrite map_map; reflexivity|].
    apply Forall_forall. intros op Hop.
    apply list_elem_of_In, in_map_iff in Hop as (p & <- & _).
    cbn [replacement _id filter_id upsert forecastStart tempTimesEncoded head].
    split; [reflexivity|]. split; [reflexivity|].
    split; [exists t0; split; [reflexivity|apply to_dict_data_floor]|].
    unfold encoded_series. rewrite length_map, Ht. reflexivity.
Qed.

(** On a grid whose latitudes and longitudes are distinct, no two uploads
    have the same key: no upsert of a batch overwrites another one. *)
Theorem upload_keys_distinct (invalid_cast : Z) (near_land : Z -> Z -> bool)
    (ds : Dataset) (ops : list ReplaceOne) :
  NoDup (lat ds) -> NoDup (lon ds) ->
  build_uploads invalid_cast near_land ds = Some ops ->
  NoDup (map filter_id ops).
Proof.
  intros Hla Hlo Hb.
  destruct (time ds) as [|t0 ts] eqn:Ht.
  { unfold build_uploads in Hb. rewrite Ht in Hb. discriminate. }
  rewrite (build_uploads_cells invalid_cast near_land ds t0 ts Ht) in Hb.
  inversion Hb; subst ops. rewrite map_map. simpl.
  apply NoDup_map_inj.
  - intros [a b] [a' b'] H. simpl in H.
    apply mongo_id_inj in H as [-> ->]. reflexivity.
  - apply NoDup_bool_filter, NoDup_list_prod; assumption.
Qed.

Lemma upload_keys_distinct_witness :
  NoDup (map filter_id
           (default [] (build_uploads (- 2 ^ 31) (fun _ _ => true) Main.sample_wide))).
Proof.
  apply (upload_keys_distinct (- 2 ^ 31) (fun _ _ => true) Main.sample_wide
           (default [] (build_uploads (- 2 ^ 31) (fun _ _ => true) Main.sample_wide))).
  - apply (sorted_lt_NoDup [2500; 2525; 2550]).
    repeat (apply SSorted_cons; [|repeat (apply Forall_cons; split; [reflexivity|]);
                                   apply Forall_nil; exact I]).
    apply SSorted_nil.
  - apply (sorted_lt_NoDup [500; 525; 550; 575]).
    repeat (apply SSorted_cons; [|repeat (apply Forall_cons; split; [reflexivity|]);
                                   apply Forall_nil; exact I]).
    apply SSorted_nil.
  - vm_compute. reflexivity.
Defined.

(** The batch of the witness has the twelve cells of the grid. *)
Example sample_wide_keys :
  map filter_id
      (default [] (build_uploads (- 2 ^ 31) (fun _ _ => true) Main.sample_wide))
  = ["25.00,5.00"; "25.00,5.25"; "25.00,5.50"; "25.00,5.75";
     "25.25,5.00"; "25.25,5.25"; "25.25,5.50"; "25.25,5.75";
     "25.50,5.00"; "25.50,5.25"; "25.50,5.50"; "25.50,5.75"].
Proof. vm_compute. reflexivity. Qed.

End PublishMore.

(** ** Database and upload loop: what reaches the collection *)

Module UploadFacts.
Import Publish Store Orchestrator Main Collection StoreFacts OrchestratorFacts MainFacts.

(** *** Sequences of upserts *)

Lemma apply_ops_app (a b : list ReplaceOne) (c : gmap string Document) :
  apply_ops (a ++ b) c = apply_ops b (apply_ops a c).
Proof. unfold apply_ops. apply foldl_app. Qed.

Lemma lookup_apply_ops (ops : list ReplaceOne) (c : gmap string Document) (k : string) :
  apply_ops ops c !! k
  = match last_write ops k with Some d => Some d | None => c !! k end.
Proof.
  revert c. induction ops as [|op ops IH]; intros c; [reflexivity|].
  change (apply_ops (op :: ops) c) with (apply_ops ops (<[filter_id op := replacement op]> c)).
  rewrite IH. simpl. destruct (last_write ops k); [reflexivity|].
  destruct (decide (filter_id op = k)) as [->|Hne].
  - apply lookup_insert_eq.
  - apply lookup_insert_ne. exact Hne.
Qed.

Lemma last_write_Some_elem (ops : list ReplaceOne) (k : string) (d : Document) :
  last_write ops k = Some d ->
  exists op, op ∈ ops /\ filter_id op = k /\ replacement op = d.
Proof.
  induction ops as [|op ops IH]; simpl; [discriminate|].
  destruct (last_write ops k) as [d'|].
  - intros H. destruct (IH H) as (op' & Hin & Hk & Hd). exists op'.
    split; [right; exact Hin|auto].
  - destruct (decide (filter_id op = k)); [|discriminate].
    intros [= <-]. exists op. split; [left|auto].
Qed.

Lemma last_write_elem_Some (ops : list ReplaceOne) (op : ReplaceOne) :
  op ∈ ops -> is_Some (last_write ops (filter_id op)).
Proof.
  induction ops as [|op' ops IH]; intros Hin; [apply elem_of_nil in Hin; contradiction|].
  simpl. apply elem_of_cons in Hin as [->|Hin].
  - destruct (last_write ops (filter_id op')); [eauto|].
    destruct (decide (filter_id op' = filter_id op')); [eauto|contradiction].
  - destruct (IH Hin) as [d Hd]. rewrite Hd. eauto.
Qed.

(** Upserts of the batch that came before are overwritten by the batch. *)
Lemma apply_ops_absorb (ops sub : list ReplaceOne) (c : gmap string Document) :
  Forall (fun op => op ∈ ops) sub ->
  apply_ops ops (apply_ops sub c) = apply_ops ops c.
Proof.
  intros Hsub. apply map_eq. intros k. rewrite !lookup_apply_ops.
  destruct (last_write ops k) as [d|] eqn:E; [reflexivity|].
  destruct (last_write sub k) as [d|] eqn:E'; [|reflexivity].
  apply last_write_Some_elem in E' as (op & Hin & Hk & _).
  rewrite Forall_forall in Hsub. specialize (Hsub op Hin).
  apply last_write_elem_Some in Hsub as [d' Hd']. congruence.
Qed.

Lemma applied_ops_sub (mask : list bool) (ops : list ReplaceOne) :
  Forall (fun op => op ∈ ops) (applied_ops mask ops).
Proof.
  apply Forall_forall. intros op Hin. unfold applied_ops in Hin.
  apply list_elem_of_In, in_flat_map in Hin as ([op' b] & Hz & Hin).
  simpl in Hin. destruct b; [|destruct Hin]. destruct Hin as [<-|[]].
  apply list_elem_of_In in Hz. apply elem_of_zip_l in Hz. exact Hz.
Qed.

Lemma last_write_NoDup (ops : list ReplaceOne) (op : ReplaceOne) :
  NoDup (map filter_id ops) -> op ∈ ops ->
  last_write ops (filter_id op) = Some (replacement op).
Proof.
  intros Hnd Hin.
  destruct (last_write_elem_Some ops op Hin) as [d Hd]. rewrite Hd. f_equal.
  apply last_write_Some_elem in Hd as (op' & Hin' & Hk & <-).
  f_equal. symmetry.
  apply list_elem_of_In in Hin, Hin'.
  clear -Hnd Hin Hin' Hk. induction ops as [|o ops IH]; [destruct Hin|].
  simpl in Hnd. apply NoDup_cons in Hnd as [Hno Hnd].
  destruct Hin as [->|Hin], Hin' as [->|Hin']; auto.
  - exfalso. apply Hno. rewrite <- Hk. apply list_elem_of_In, in_map. exact Hin'.
  - exfalso. apply Hno. rewrite Hk. apply list_elem_of_In, in_map. exact Hin.
Qed.

(** *** [upserted] *)

Lemma upserted_refl (ops : list ReplaceOne) (w : World) : upserted ops w w.
Proof. repeat split. exists []. split; [constructor|reflexivity]. Qed.

Lemma upserted_trans (ops : list ReplaceOne) (w1 w2 w3 : World) :
  upserted ops w1 w2 -> upserted ops w2 w3 -> upserted ops w1 w3.
Proof.
  intros (S1 & B1 & s1 & F1 & E1) (S2 & B2 & s2 & F2 & E2).
  split; [congruence|]. split; [congruence|].
  exists (s1 ++ s2). split; [apply Forall_app; auto|].
  rewrite E2, E1. symmetry. apply apply_ops_app.
Qed.

Lemma upserted_mono (ops ops' : list ReplaceOne) (w w' : World) :
  (forall op, op ∈ ops -> op ∈ ops') -> upserted ops w w' -> upserted ops' w w'.
Proof.
  intros Hsub (S1 & B1 & s1 & F1 & E1). split; [exact S1|]. split; [exact B1|].
  exists s1. split; [|exact E1]. eapply Forall_impl; [exact F1|]. exact Hsub.
Qed.

Lemma upserted_all (ops : list ReplaceOne) (w w' : World) :
  status w' = status w -> blob w' = blob w ->
  forecasts w' = apply_ops ops (forecasts w) -> upserted ops w w'.
Proof.
  intros S1 B1 E1. split; [exact S1|]. split; [exact B1|].
  exists ops. split; [|exact E1]. apply Forall_forall. auto.
Qed.

(** *** One call of [upload_forecasts] *)

Lemma bulk_write_nonempty (ops : list ReplaceOne) :
  ops <> [] ->
  bulk_write ops
  = (f ← next_fault;
     match f with
     | Some ft =>
         modify_forecasts (apply_ops (applied_ops (applied ft) ops)) ;;
         raise (raised ft)
     | None => modify_forecasts (apply_ops ops) ;; log (EvBulkWrite ops)
     end).
Proof. destruct ops; [contradiction|reflexivity]. Qed.

(** When the method returns, the collection has received exactly the
    upserts of the operation, in order (a reconnect in between changes
    nothing to that); when it raises, some of them at most. *)
Lemma upload_forecasts_outcome (ops : list ReplaceOne) (w : World) :
  match upload_forecasts ops w with
  | (inl _, w') =>
      status w' = status w /\ blob w' = blob w /\
      forecasts w' = apply_ops ops (forecasts w) /\ ops <> []
  | (inr _, w') => upserted ops w w'
  end.
Proof.
  destruct w as [st fc bl fs tr]. unfold upload_forecasts. rewrite retry_step.
  destruct (decide (ops = [])) as [->|Hne]; [apply upserted_refl|].
  rewrite (bulk_write_nonempty ops Hne).
  destruct fs as [|[[[|msg] m]|] rest]; run_calls.
  - repeat split. exact Hne.
  - destruct rest as [|[[e2 m2]|] rest]; run_calls.
    + repeat split; [|exact Hne]. apply apply_ops_absorb, applied_ops_sub.
    + split; [reflexivity|]. split; [reflexivity|].
      exists (applied_ops m ops ++ applied_ops m2 ops).
      split; [apply Forall_app; split; apply applied_ops_sub|].
      simpl. symmetry. apply apply_ops_app.
    + repeat split; [|exact Hne]. apply apply_ops_absorb, applied_ops_sub.
  - split; [reflexivity|]. split; [reflexivity|].
    exists (applied_ops m ops). split; [apply applied_ops_sub|reflexivity].
  - repeat split. exact Hne.
Qed.

(** *** One attempt *)

Lemma for_each_uploads (parts : list (list ReplaceOne)) (w : World) :
  match for_each parts upload_forecasts w with
  | (inl _, w') =>
      status w' = status w /\ blob w' = blob w /\
      forecasts w' = apply_ops (concat parts) (forecasts w) /\
      Forall (fun part => part <> []) parts
  | (inr _, w') => upserted (concat parts) w w'
  end.
Proof.
  revert w. induction parts as [|part parts IH]; intros w.
  - simpl. repeat split. constructor.
  - rewrite for_each_cons.
    pose proof (upload_forecasts_outcome part w) as H1.
    destruct (upload_forecasts part w) as [[u|e] w1].
    + destruct H1 as (S1 & B1 & E1 & N1). specialize (IH w1).
      destruct (for_each parts upload_forecasts w1) as [[u2|e2] w2].
      * destruct IH as (S2 & B2 & E2 & N2).
        split; [congruence|]. split; [congruence|].
        split; [|constructor; assumption].
        simpl. rewrite E2, E1. symmetry. apply apply_ops_app.
      * simpl. apply (upserted_trans _ w w1 w2).
        -- apply (upserted_mono part); [intros op Hop; apply elem_of_app; auto|].
           apply upserted_all; assumption.
        -- apply (upserted_mono (concat parts)); [intros op Hop; apply elem_of_app; auto|].
           exact IH.
    + simpl. apply (upserted_mono part); [intros op Hop; apply elem_of_app; auto|].
      exact H1.
Qed.

Lemma upload_attempt_outcome (uploads : list ReplaceOne) (i : nat) (w : World) :
  (0 < i)%nat ->
  match upload_attempt uploads i w with
  | (inl _, w') =>
      status w' = status w /\ blob w' = blob w /\
      forecasts w' = apply_ops uploads (forecasts w) /\
      Forall (fun part => part <> []) (array_split uploads i)
  | (inr _, w') => upserted uploads w w'
  end.
Proof.
  intros Hi. unfold upload_attempt.
  pose proof (for_each_uploads (array_split uploads i) w) as H.
  destruct (array_split_parts uploads i Hi) as (_ & Hc & _).
  rewrite Hc in H. exact H.
Qed.

(** *** The loop *)

Lemma upload_loop_over_outcome (uploads : list ReplaceOne) (counts : list nat)
    (w : World) :
  Forall (fun i => (0 < i)%nat) counts ->
  let r := upload_loop_over counts uploads w in
  upserted uploads w r.2 /\
  (100%nat ∈ counts -> forall u, r.1 = inl u ->
   forecasts r.2 = apply_ops uploads (forecasts w)).
Proof.
  intros Hpos. revert w. induction Hpos as [|i rest Hi Hpos IH]; intros w.
  - simpl. split; [apply upserted_refl|]. intros H. apply elem_of_nil in H. contradiction.
  - cbv zeta. rewrite upload_loop_over_cons.
    pose proof (upload_attempt_outcome uploads i w Hi) as Ha.
    destruct (upload_attempt uploads i w) as [[u|err] w1].
    + destruct Ha as (S1 & B1 & E1 & _). simpl.
      split; [apply upserted_all; assumption|]. intros _ _ _. exact E1.
    + destruct (Nat.eqb_spec i 100) as [->|Hne]; simpl.
      * split; [exact Ha|]. intros _ u Hu. discriminate Hu.
      * specialize (IH w1). cbv zeta in IH. destruct IH as [IH1 IH2].
        split; [eapply upserted_trans; eassumption|].
        intros Hin u Hu.
        apply elem_of_cons in Hin as [Hin|Hin]; [congruence|].
        rewrite (IH2 Hin u Hu).
        destruct Ha as (_ & _ & sub & Hsub & ->).
        apply apply_ops_absorb. exact Hsub.
Qed.

Lemma candidates_positive : Forall (fun i => (0 < i)%nat) candidates.
Proof. unfold candidates. repeat constructor; lia. Qed.

Lemma upload_loop_upserted (uploads : list ReplaceOne) (w : World) :
  upserted uploads w (upload_loop uploads w).2.
Proof. apply (upload_loop_over_outcome uploads candidates w candidates_positive). Qed.

Lemma upload_loop_success (uploads : list ReplaceOne) (w w' : World) (u : unit) :
  upload_loop uploads w = (inl u, w') ->
  forecasts w' = apply_ops uploads (forecasts w).
Proof.
  intros H.
  destruct (upload_loop_over_outcome uploads candidates w candidates_positive) as [_ H2].
  fold (upload_loop uploads w) in H2. rewrite H in H2. simpl in H2.
  apply (H2 ltac:(unfold candidates; set_unfold; tauto) u eq_refl).
Qed.

(** When the upload loop returns, the collection is what it was with the
    whole batch upserted in order, whatever failed and was retried on the
    way; with distinct keys, every document of the batch is stored under its
    key. *)
Theorem upload_stores_batch (uploads : list ReplaceOne) (w : World) :
  match upload_loop uploads w with
  | (inl _, w') =>
      forecasts w' = apply_ops uploads (forecasts w) /\
      (NoDup (map filter_id uploads) ->
       Forall (fun op => forecasts w' !! filter_id op = Some (replacement op)) uploads)
  | (inr _, _) => True
  end.
Proof.
  destruct (upload_loop uploads w) as [[u|e] w'] eqn:E; [|exact I].
  pose proof (upload_loop_success uploads w w' u E) as Hf.
  split; [exact Hf|]. intros Hnd. apply Forall_forall. intros op Hop.
  rewrite Hf, lookup_apply_ops, (last_write_NoDup uploads op Hnd Hop). reflexivity.
Qed.

(** Whatever the outcome of the upload loop, it leaves the status document
    and the persisted grid alone, does not touch a document whose key is not
    in the batch, and removes no document. *)
Theorem upload_touches_batch_only (uploads : list ReplaceOne) (w : World) :
  let w' := (upload_loop uploads w).2 in
  status w' = status w /\ blob w' = blob w /\
  (forall k, Forall (fun op => filter_id op <> k) uploads ->
     forecasts w' !! k = forecasts w !! k) /\
  (forall k, is_Some (forecasts w !! k) -> is_Some (forecasts w' !! k)).
Proof.
  destruct (upload_loop_upserted uploads w) as (S1 & B1 & sub & Hsub & E).
  cbv zeta. split; [exact S1|]. split; [exact B1|]. rewrite E. split.
  - intros k Hk. rewrite lookup_apply_ops.
    destruct (last_write sub k) as [d|] eqn:El; [|reflexivity].
    apply last_write_Some_elem in El as (op & Hin & Hid & _).
    rewrite Forall_forall in Hsub, Hk. exfalso. apply (Hk op); auto.
  - intros k Hk. rewrite lookup_apply_ops. destruct (last_write sub k); eauto.
Qed.

(** Uploading the same batch again changes nothing: after a second
    successful upload the collection is as after the first. *)
Theorem upload_idempotent (uploads : list ReplaceOne) (w : World) :
  match upload_loop uploads w with
  | (inl _, w1) =>
      match upload_loop uploads w1 with
      | (inl _, w2) => forecasts w2 = forecasts w1
      | (inr _, _) => True
      end
  | (inr _, _) => True
  end.
Proof.
  destruct (upload_loop uploads w) as [[u|e] w1] eqn:E1; [|exact I].
  destruct (upload_loop uploads w1) as [[u2|e2] w2] eqn:E2; [|exact I].
  rewrite (upload_loop_success uploads w1 w2 u2 E2),
    (upload_loop_success uploads w w1 u E1).
  apply apply_ops_absorb. apply Forall_forall. auto.
Qed.

(** *** Batches smaller than the number of parts *)







(** *** A connection without faults *)

Lemma upload_forecasts_fault_free (ops : list ReplaceOne) (w : World) :
  faults w = [] -> ops <> [] ->
  upload_forecasts ops w
  = (inl tt, mkWorld (status w) (apply_ops ops (forecasts w)) (blob w) []
                     (trace w ++ [EvBulkWrite ops])).
Proof.
  intros Hf Hne. destruct w as [st fc bl fs tr]. simpl in Hf. subst fs.
  unfold upload_forecasts. rewrite retry_step, (bulk_write_nonempty ops Hne).
  reflexivity.
Qed.

Lemma for_each_fault_free (parts : list (list ReplaceOne)) (w : World) :
  faults w = [] -> Forall (fun part => part <> []) parts ->
  for_each parts upload_forecasts w
  = (inl tt, mkWorld (status w) (apply_ops (concat parts) (forecasts w)) (blob w) []
                     (trace w ++ map EvBulkWrite parts)).
Proof.
  intros Hf Hne. revert w Hf. induction Hne as [|part parts Hp Hne IH]; intros w Hf.
  - destruct w as [st fc bl fs tr]. simpl in *. subst fs. rewrite app_nil_r. reflexivity.
  - rewrite for_each_cons, (upload_forecasts_fault_free part w Hf Hp).
    rewrite IH by reflexivity. simpl.
    rewrite apply_ops_app, <- app_assoc. reflexivity.
Qed.

Lemma upload_loop_fault_free (uploads : list ReplaceOne) (w : World) :
  faults w = [] -> (12 <= length uploads)%nat ->
  upload_loop uploads w
  = (inl tt, mkWorld (status w) (apply_ops uploads (forecasts w)) (blob w) []
                     (trace w ++ map EvBulkWrite (array_split uploads 12))).
Proof.
  intros Hf Hlen. unfold upload_loop, candidates. rewrite upload_loop_over_cons.
  unfold upload_attempt.
  destruct (array_split_parts uploads 12 ltac:(lia)) as (_ & Hc & Hsz).
  rewrite for_each_fault_free; [rewrite Hc; reflexivity|exact Hf|].
  eapply Forall_impl; [exact Hsz|]. intros part Hp Hnil. subst part. cbn [length] in Hp.
  assert (1 <= length uploads / 12)%nat by (apply Nat.div_le_lower_bound; lia). lia.
Qed.

(** With a connection that does not fail, a batch of at least 12 operations
    goes through at the first attempt: twelve bulk writes, the parts of the
    split in order, and the collection holds the batch. *)
Theorem fault_free_upload (uploads : list ReplaceOne) (w : World) :
  faults w = [] -> (12 <= length uploads)%nat ->
  upload_loop uploads w
  = (inl tt, mkWorld (status w) (apply_ops uploads (forecasts w)) (blob w) []
                     (trace w ++ map EvBulkWrite (array_split uploads 12))).
Proof. apply upload_loop_fault_free. Qed.

Lemma fault_free_upload_witness :
  let uploads := map (fun n => mkReplaceOne (pretty n) (mkDocument (pretty n) 0 [0]) true)
                     (seq 0 12) in
  upload_loop uploads (sample_world [])
  = (inl tt, mkWorld (status (sample_world []))
                     (apply_ops uploads (forecasts (sample_world [])))
                     (blob (sample_world [])) []
                     (trace (sample_world []) ++ map EvBulkWrite (array_split uploads 12))).
Proof.
  apply (fault_free_upload
           (map (fun n => mkReplaceOne (pretty n) (mkDocument (pretty n) 0 [0]) true)
                (seq 0 12))
           (sample_world [])).
  - reflexivity.
  - simpl. lia.
Defined.

(** *** The retry of the methods *)

(** One reconnect error is absorbed by [set_status]: the write is made again
    and succeeds as if nothing had happened. A second reconnect error in a
    row is raised, and an error of another kind is raised at once, without a
    second call. *)
Theorem reconnect_absorbed_once (a : assignment) (st : StatusDocument)
    (fc : gmap string Document) (bl : option Merger.Dataset)
    (fs : list (option fault)) (tr : list event) (m m' : list bool) (msg : string) :
  set_status a (mkWorld st fc bl (Some (mkFault AutoReconnect m) :: None :: fs) tr)
  = (inl tt, mkWorld (apply_set a st) fc bl fs (tr ++ [EvSetStatus a])) /\
  set_status a (mkWorld st fc bl
                  (Some (mkFault AutoReconnect m) :: Some (mkFault AutoReconnect m') :: fs) tr)
  = (inr AutoReconnect, mkWorld st fc bl fs tr) /\
  set_status a (mkWorld st fc bl (Some (mkFault (Error msg) m) :: fs) tr)
  = (inr (Error msg), mkWorld st fc bl fs tr).
Proof. repeat split. Qed.

End UploadFacts.

(** ** The run as a whole (main.py, [main]; utils.py, [Database]) *)

Module RunFacts.
Import Merger Publish Store Orchestrator Main Effects.
Import StoreFacts OrchestratorFacts MainFacts UploadFacts.

(** *** Runs that stop at the checks *)

(** A status read changes nothing but the log. *)
Lemma fetch_status_world (w : World) :
  match fetch_status w with
  | (inl doc, w') =>
      doc = status w /\ status w' = status w /\ forecasts w' = forecasts w
      /\ blob w' = blob w /\ trace w' = trace w ++ [EvFetchStatus (status w)]
  | (inr _, w') =>
      status w' = status w /\ forecasts w' = forecasts w
      /\ blob w' = blob w /\ trace w' = trace w
  end.
Proof.
  destruct w as [st fc bl fs tr]. unfold fetch_status. rewrite retry_step.
  destruct fs as [|[[[|msg] m]|] rest]; run_calls; auto.
  destruct rest as [|[[e2 m2]|] rest]; run_calls; auto.
Qed.

Ltac logged evs :=
  exists evs; split;
  [rewrite <- ?app_assoc; reflexivity
  |repeat (apply Forall_cons; split; [exact I|]); apply Forall_nil; exact I].

Lemma gate_world (env : Env) (w : World) : nothing_written env w (gate env w).2.
Proof.
  unfold gate, nothing_written. rewrite bind_run.
  pose proof (fetch_status_world w) as H1.
  destruct (fetch_status w) as [[d1|e1] w1].
  2:{ destruct H1 as (Hs & Hf & Hb & Ht). simpl. rewrite Hs, Hf, Hb, Ht.
      repeat (split; [auto|]). exists []. rewrite app_nil_r.
      split; [reflexivity|apply Forall_nil; exact I]. }
  destruct H1 as (-> & Hs1 & Hf1 & Hb1 & Ht1).
  destruct (isUpdating (status w)) eqn:Eu.
  { simpl. rewrite Hs1, Hf1, Hb1, Ht1. repeat (split; [auto|]).
    logged [EvFetchStatus (status w)]. }
  destruct (source_override env) as [url|].
  { simpl. rewrite Hs1, Hf1, Hb1, Ht1. repeat (split; [auto|]).
    logged [EvFetchStatus (status w)]. }
  rewrite bind_run. unfold scrape.
  destruct (scraped env) as [data_source|e2]; simpl.
  2:{ rewrite Hs1, Hf1, Hb1, Ht1. repeat (split; [auto|]).
      logged [EvFetchStatus (status w); EvScrape]. }
  destruct (String.eqb data_source (latestSuccessfulUpdateSource (status w))).
  { simpl. rewrite Hs1, Hf1, Hb1, Ht1. repeat (split; [auto|]).
    logged [EvFetchStatus (status w); EvScrape]. }
  rewrite bind_run.
  match goal with |- context [fetch_status ?w2] =>
    pose proof (fetch_status_world w2) as H2;
    destruct (fetch_status w2) as [[d2|e3] w3]
  end; simpl in H2.
  2:{ destruct H2 as (Hs & Hf & Hb & Ht). simpl. rewrite Hs, Hf, Hb, Ht.
      rewrite Hs1, Hf1, Hb1, Ht1. repeat (split; [auto|]).
      logged [EvFetchStatus (status w); EvScrape]. }
  destruct H2 as (-> & Hs & Hf & Hb & Ht). rewrite Hs1 in *.
  assert (Hw3 : forecasts w3 = forecasts w /\ blob w3 = blob w /\
                (status w3 = status w \/ status w3 = concurrent env (status w)) /\
                exists evs, trace w3 = trace w ++ evs /\ reads_only evs).
  { rewrite Hs, Hf, Hb, Ht, Hf1, Hb1, Ht1. repeat (split; [auto|]).
    logged [EvFetchStatus (status w); EvScrape;
            EvFetchStatus (concurrent env (status w))]. }
  destruct (isUpdating (concurrent env (status w))); simpl; exact Hw3.
Qed.

(** A run that stops at the checks before the update (lines 30-75: the
    store says an update is running, no newer source is found, the scraping
    or a read raises) has written nothing: the forecast collection, the
    persisted grid and the status document are as they were, and the run has
    logged reads only. The release of the flag is not run either: the checks
    stand before the [try]. *)
Theorem stopped_run_writes_nothing (env : Env) (w : World) :
  match (gate env w).1 with
  | inl (Some _) => True
  | _ => nothing_written env w (main env w).2
  end.
Proof.
  pose proof (gate_world env w) as H. unfold main. rewrite bind_run.
  destruct (gate env w) as [[[[d s]|]|e] wg]; simpl in *; auto.
Qed.

(** When the status document says that an update is running, the run ends
    after its first read (lines 31-35): it returns normally, does not look
    for a source, and leaves the stores as they are; it raises only if the
    read itself raised. *)
Theorem busy_run_exits (env : Env) (w : World) :
  isUpdating (status w) = true ->
  let r := main env w in
  status r.2 = status w /\ forecasts r.2 = forecasts w /\ blob r.2 = blob w /\
  match r.1 with
  | inl _ => trace r.2 = trace w ++ [EvFetchStatus (status w)]
  | inr _ => trace r.2 = trace w
  end.
Proof.
  intros Hu. unfold main, gate. rewrite !bind_run.
  pose proof (fetch_status_world w) as H1.
  destruct (fetch_status w) as [[d1|e1] w1].
  - destruct H1 as (-> & Hs1 & Hf1 & Hb1 & Ht1). rewrite Hu. simpl. auto.
  - simpl. exact H1.
Qed.

Lemma busy_run_exits_witness :
  let w := mkWorld (mkStatus true sample_previous_source ∅) ∅ None [] [] in
  let r := main (sample_env sample_new None) w in
  status r.2 = status w /\ forecasts r.2 = forecasts w /\ blob r.2 = blob w /\
  match r.1 with
  | inl _ => trace r.2 = trace w ++ [EvFetchStatus (status w)]
  | inr _ => trace r.2 = trace w
  end.
Proof.
  apply (busy_run_exits (sample_env sample_new None)
           (mkWorld (mkStatus true sample_previous_source ∅) ∅ None [] [])).
  reflexivity.
Defined.

(** When the scraping finds the source the store already names as the
    latest (lines 36-66), the run returns without reading the status a
    second time and without writing. *)
Theorem unchanged_source_exits (env : Env) (w : World) (data_source : string) :
  source_override env = None ->
  isUpdating (status w) = false ->
  scraped env = inl data_source ->
  data_source = latestSuccessfulUpdateSource (status w) ->
  let r := main env w in
  forecasts r.2 = forecasts w /\ blob r.2 = blob w /\
  match r.1 with
  | inl _ => status r.2 = concurrent env (status w)
             /\ trace r.2 = trace w ++ [EvFetchStatus (status w); EvScrape]
  | inr _ => status r.2 = status w /\ trace r.2 = trace w
  end.
Proof.
  intros Ho Hu Hsc Hsame. unfold main, gate. rewrite !bind_run.
  pose proof (fetch_status_world w) as H1.
  destruct (fetch_status w) as [[d1|e1] w1].
  - destruct H1 as (-> & Hs1 & Hf1 & Hb1 & Ht1). rewrite Hu, Ho.
    rewrite bind_run. unfold scrape. rewrite Hsc. simpl.
    rewrite Hsame, String.eqb_refl. simpl.
    rewrite Hs1, Hf1, Hb1, Ht1, <- app_assoc. auto.
  - simpl. tauto.
Qed.

Lemma unchanged_source_exits_witness :
  let env := mkEnv None (inl sample_previous_source) (fun doc => doc)
                   (fun _ => inl sample_new) (hour 30) (fun _ _ => true) (- 2 ^ 31)
                   None None (fun _ => None) (fun _ => false) [] in
  let r := main env (sample_world []) in
  forecasts r.2 = forecasts (sample_world []) /\ blob r.2 = blob (sample_world []) /\
  match r.1 with
  | inl _ => status r.2 = concurrent env (status (sample_world []))
             /\ trace r.2 = trace (sample_world [])
                            ++ [EvFetchStatus (status (sample_world [])); EvScrape]
  | inr _ => status r.2 = status (sample_world []) /\ trace r.2 = trace (sample_world [])
  end.
Proof.
  apply (unchanged_source_exits
           (mkEnv None (inl sample_previous_source) (fun doc => doc)
                  (fun _ => inl sample_new) (hour 30) (fun _ _ => true) (- 2 ^ 31)
                  None None (fun _ => None) (fun _ => false) [])
           (sample_world []) sample_previous_source); reflexivity.
Defined.

(** *** What every step of a run keeps *)

Section Steps.
Variable R : World -> World -> Prop.
Hypothesis HR : steps R.

Local Abbreviation S_refl := (steps_refl R HR).
Local Abbreviation S_trans := (steps_trans R HR).
Local Abbreviation S_pop := (steps_pop R HR).
Local Abbreviation S_write := (steps_write R HR).

Lemma keeps_ret {A : Type} (x : A) : preserves R (mret x).
Proof. intros w. apply S_refl. Qed.

Lemma keeps_raise {A : Type} (e : exn) : preserves R (@raise A e).
Proof. intros w. apply S_refl. Qed.

Lemma keeps_bind {A B : Type} (m : M A) (f : A -> M B) :
  preserves R m -> (forall x, preserves R (f x)) -> preserves R (m ≫= f).
Proof.
  intros Hm Hf w. rewrite bind_run. specialize (Hm w).
  destruct (m w) as [[x|e] w1]; simpl in Hm.
  - eapply S_trans; [exact Hm|apply Hf].
  - exact Hm.
Qed.

Lemma keeps_retry {A : Type} (tries : nat) (call : M A) :
  preserves R call -> preserves R (retry tries call).
Proof.
  intros Hc. induction tries as [|t IH]; [exact Hc|].
  destruct t as [|n]; [exact Hc|].
  intros w. rewrite retry_step. specialize (Hc w).
  destruct (call w) as [[x|[|msg]] w1]; simpl in Hc |- *; try exact Hc.
  eapply S_trans; [exact Hc|apply IH].
Qed.

Lemma keeps_for_each {A : Type} (l : list A) (f : A -> M unit) :
  (forall x, preserves R (f x)) -> preserves R (for_each l f).
Proof.
  intros Hf. induction l as [|x l IH]; simpl.
  - apply keeps_ret.
  - apply keeps_bind; [apply Hf|intros _; exact IH].
Qed.

Lemma keeps_finally {A : Type} (body : M A) (cleanup : M unit) :
  preserves R body -> preserves R cleanup -> preserves R (finally body cleanup).
Proof.
  intros Hb Hc w. unfold finally. specialize (Hb w).
  destruct (body w) as [r w1]. simpl in Hb. specialize (Hc w1).
  destruct (cleanup w1) as [[u|e] w2]; simpl in Hc |- *;
    eapply S_trans; eassumption.
Qed.

Lemma keeps_from_option {A : Type} (e : exn) (o : option A) :
  preserves R (from_option e o).
Proof. destruct o; [apply keeps_ret|apply keeps_raise]. Qed.

Lemma keeps_from_result {A : Type} (r : A + exn) : preserves R (from_result r).
Proof. destruct r; [apply keeps_ret|apply keeps_raise]. Qed.

Lemma keeps_next_fault : preserves R next_fault.
Proof.
  intros w. unfold next_fault. destruct (faults w) as [|f fs] eqn:E; simpl.
  - apply S_refl.
  - apply (S_pop w f fs E).
Qed.

Lemma keeps_log (ev : event) : preserves R (log ev).
Proof. intros w. apply S_write. Qed.

Lemma keeps_modify_status (f : StatusDocument -> StatusDocument) :
  preserves R (modify_status f).
Proof. intros w. apply S_write. Qed.

Lemma keeps_modify_forecasts (f : gmap string Document -> gmap string Document) :
  preserves R (modify_forecasts f).
Proof. intros w. apply S_write. Qed.

Lemma keeps_fetch_status : preserves R fetch_status.
Proof.
  apply keeps_retry. apply keeps_bind; [apply keeps_next_fault|].
  intros [ft|]; [apply keeps_raise|].
  intros w. apply (keeps_bind (log _) (fun _ => mret (status w)));
    [apply keeps_log|intros _; apply keeps_ret].
Qed.

Lemma keeps_set_status (a : assignment) : preserves R (set_status a).
Proof.
  apply keeps_retry. apply keeps_bind; [apply keeps_next_fault|].
  intros [ft|]; [apply keeps_raise|].
  apply keeps_bind; [apply keeps_modify_status|intros _; apply keeps_log].
Qed.

Lemma keeps_delete_from_status (date : string) : preserves R (delete_from_status date).
Proof.
  apply keeps_retry. apply keeps_bind; [apply keeps_next_fault|].
  intros [ft|]; [apply keeps_raise|].
  apply keeps_bind; [apply keeps_modify_status|intros _; apply keeps_log].
Qed.

Lemma keeps_upload_forecasts (ops : list ReplaceOne) : preserves R (upload_forecasts ops).
Proof.
  apply keeps_retry. unfold bulk_write.
  destruct ops as [|op ops]; [apply keeps_raise|].
  apply keeps_bind; [apply keeps_next_fault|].
  intros [ft|].
  - apply keeps_bind; [apply keeps_modify_forecasts|intros _; apply keeps_raise].
  - apply keeps_bind; [apply keeps_modify_forecasts|intros _; apply keeps_log].
Qed.

Lemma keeps_upload_loop (uploads : list ReplaceOne) : preserves R (upload_loop uploads).
Proof.
  unfold upload_loop. generalize candidates. intros counts.
  induction counts as [|i rest IH]; [apply keeps_ret|].
  intros w. rewrite upload_loop_over_cons.
  pose proof (keeps_for_each (array_split uploads i) upload_forecasts
                keeps_upload_forecasts w) as Ha.
  fold (upload_attempt uploads i) in Ha.
  destruct (upload_attempt uploads i w) as [[u|err] w1]; simpl in Ha |- *.
  - exact Ha.
  - destruct (i =? 100)%nat; simpl; [exact Ha|].
    eapply S_trans; [exact Ha|apply IH].
Qed.

Lemma keeps_scrape (env : Env) : preserves R (scrape env).
Proof.
  intros w. unfold scrape.
  destruct (scraped env) as [s|e]; simpl; apply S_write.
Qed.

Lemma keeps_gate (env : Env) : preserves R (gate env).
Proof.
  unfold gate. apply keeps_bind; [apply keeps_fetch_status|intros d1].
  destruct (isUpdating d1); [apply keeps_ret|].
  destruct (source_override env); [apply keeps_ret|].
  apply keeps_bind; [apply keeps_scrape|intros s].
  destruct (String.eqb s (latestSuccessfulUpdateSource d1)); [apply keeps_ret|].
  apply keeps_bind; [apply keeps_fetch_status|intros d2].
  destruct (isUpdating d2); apply keeps_ret.
Qed.

Lemma keeps_compute_uploads (env : Env) (data_source : string) :
  preserves R (compute_uploads env data_source).
Proof.
  unfold compute_uploads.
  apply keeps_bind; [apply keeps_from_result|intros ds].
  apply keeps_bind.
  { unfold download_previous. destruct (download_fault env); [apply keeps_raise|].
    intros w. apply keeps_from_option. }
  intros previous.
  apply keeps_bind; [apply keeps_from_option|intros merged].
  apply keeps_bind; [apply keeps_from_option|intros uploads].
  apply keeps_ret.
Qed.

Lemma keeps_save_to_cloud (env : Env) (ds : Dataset) : preserves R (save_to_cloud env ds).
Proof.
  unfold save_to_cloud. destruct (save_fault env); [apply keeps_raise|].
  intros w. apply S_write.
Qed.

Lemma keeps_charting (env : Env) (db_status : StatusDocument) (data_source : string) :
  preserves R (charting env db_status data_source).
Proof.
  unfold charting.
  apply keeps_bind;
    [apply keeps_for_each; intros date; apply keeps_delete_from_status|intros _].
  apply keeps_bind; [apply keeps_from_option|intros label].
  apply keeps_for_each. intros [date [[|]|e]]; simpl.
  - apply keeps_set_status.
  - apply keeps_ret.
  - apply keeps_raise.
Qed.

Lemma keeps_etl (env : Env) (db_status : StatusDocument) (data_source : string) :
  preserves R (etl env db_status data_source).
Proof.
  unfold etl, prepare, after_upload.
  apply keeps_bind.
  { apply keeps_bind; [apply keeps_set_status|intros _; apply keeps_compute_uploads]. }
  intros p. apply keeps_bind; [apply keeps_upload_loop|intros _].
  apply keeps_bind; [apply keeps_set_status|intros _].
  apply keeps_bind; [apply keeps_save_to_cloud|intros _].
  apply keeps_charting.
Qed.

End Steps.

Lemma quiet_steps : steps quiet.
Proof.
  split; unfold quiet.
  - auto.
  - auto.
  - intros w f fs E H. rewrite H in E. discriminate.
  - intros w st fc bl tr H. exact H.
Qed.

(** *** A connection without faults *)

Lemma set_status_settled (a : assignment) (w : World) (st : StatusDocument)
    (fc : gmap string Document) (bl : option Dataset) :
  settled w st fc bl ->
  exists w', set_status a w = (inl tt, w') /\ settled w' (apply_set a st) fc bl.
Proof.
  destruct w as [st0 fc0 bl0 fs tr]. intros (Hf & Hs & Hc & Hb). simpl in *. subst.
  eexists. split; [reflexivity|]. repeat split.
Qed.

(** The flag is released (lines 447-448): when the connection to the
    database does not fail, every run that passes the checks ends with
    [isUpdating] false in the store, whatever raises in between (the field
    pipeline, the download of the persisted grid, the merge, the encoding,
    the blob upload, a chart rendering). *)
Theorem flag_released (env : Env) (w : World) :
  faults w = [] ->
  match (gate env w).1 with
  | inl (Some _) => isUpdating (status (main env w).2) = false
  | _ => True
  end.
Proof.
  intros Hf. unfold main. rewrite bind_run.
  pose proof (keeps_gate quiet quiet_steps env w Hf) as Hg.
  destruct (gate env w) as [[[[d s]|]|e] wg]; simpl in *; auto.
  unfold finally.
  pose proof (keeps_etl quiet quiet_steps env d s wg Hg) as He.
  destruct (etl env d s wg) as [r w1]. simpl in He.
  destruct (set_status_settled (SetIsUpdating false) w1 (status w1) (forecasts w1)
              (blob w1)) as (w2 & E2 & (_ & Hs2 & _)).
  { repeat split. exact He. }
  rewrite E2. simpl. rewrite Hs2. reflexivity.
Qed.

Lemma flag_released_witness :
  match (gate (sample_env sample_new (Some (Error "blob upload failed")))
              (sample_world [])).1 with
  | inl (Some _) =>
      isUpdating (status (main (sample_env sample_new (Some (Error "blob upload failed")))
                               (sample_world [])).2) = false
  | _ => True
  end.
Proof.
  apply (flag_released (sample_env sample_new (Some (Error "blob upload failed")))
           (sample_world [])).
  reflexivity.
Defined.

(** *** A run in which nothing fails *)

Lemma fetch_status_settled (w : World) (st : StatusDocument)
    (fc : gmap string Document) (bl : option Dataset) :
  settled w st fc bl ->
  exists w', fetch_status w = (inl st, w') /\ settled w' st fc bl.
Proof.
  destruct w as [st0 fc0 bl0 fs tr]. intros (Hf & Hs & Hc & Hb). simpl in *. subst.
  eexists. split; [reflexivity|]. repeat split.
Qed.

Lemma delete_from_status_settled (date : string) (w : World) (st : StatusDocument)
    (fc : gmap string Document) (bl : option Dataset) :
  settled w st fc bl ->
  exists w', delete_from_status date w = (inl tt, w')
             /\ settled w' (apply_unset_chart date st) fc bl.
Proof.
  destruct w as [st0 fc0 bl0 fs tr]. intros (Hf & Hs & Hc & Hb). simpl in *. subst.
  eexists. split; [reflexivity|]. repeat split.
Qed.

Lemma upload_loop_settled (uploads : list ReplaceOne) (w : World) (st : StatusDocument)
    (fc : gmap string Document) (bl : option Dataset) :
  settled w st fc bl -> (12 <= length uploads)%nat ->
  exists w', upload_loop uploads w = (inl tt, w')
             /\ settled w' st (apply_ops uploads fc) bl.
Proof.
  intros (Hf & Hs & Hc & Hb) Hlen.
  rewrite (upload_loop_fault_free uploads w Hf Hlen).
  eexists. split; [reflexivity|]. subst. repeat split.
Qed.

Lemma save_to_cloud_settled (env : Env) (ds : Dataset) (w : World) (st : StatusDocument)
    (fc : gmap string Document) (bl : option Dataset) :
  save_fault env = None -> settled w st fc bl ->
  exists w', save_to_cloud env ds w = (inl tt, w') /\ settled w' st fc (Some ds).
Proof.
  intros Hs (Hf & Hst & Hc & Hb). unfold save_to_cloud. rewrite Hs.
  eexists. split; [reflexivity|]. subst. repeat split. exact Hf.
Qed.

Lemma compute_uploads_settled (env : Env) (data_source : string) (w : World)
    (new prior merged : Dataset) (uploads : list ReplaceOne) :
  computed env data_source = inl new ->
  download_fault env = None ->
  blob w = Some prior ->
  merge_step (utc_now env) new prior = Some merged ->
  build_uploads (invalid_cast env) (near_land env) merged = Some uploads ->
  compute_uploads env data_source w = (inl (merged, uploads), w).
Proof.
  intros Hc Hd Hb Hm Hu. unfold compute_uploads, download_previous.
  rewrite Hc, Hd. unfold mbind, M_bind. cbn [from_result mret M_ret].
  rewrite Hb. cbn [from_option mret M_ret]. rewrite Hm. cbn [from_option mret M_ret].
  rewrite Hu. reflexivity.
Qed.

Lemma deletes_settled (dates : list string) (w : World) (u : bool) (l : string)
    (g : gmap string string) (fc : gmap string Document) (bl : option Dataset) :
  settled w (mkStatus u l g) fc bl ->
  exists w', for_each dates delete_from_status w = (inl tt, w')
             /\ settled w' (mkStatus u l (foldl (fun g date => delete date g) g dates))
                        fc bl.
Proof.
  revert w g. induction dates as [|date dates IH]; intros w g Hw.
  - exists w. split; [reflexivity|exact Hw].
  - rewrite for_each_cons.
    destruct (delete_from_status_settled date w _ _ _ Hw) as (w1 & E1 & Hw1).
    rewrite E1. apply (IH w1 (delete date g) Hw1).
Qed.

Lemma charts_settled (label : string) (cs : list (string * (bool + exn))) (w : World)
    (u : bool) (l : string) (g : gmap string string) (fc : gmap string Document)
    (bl : option Dataset) :
  Forall (fun c : string * (bool + exn) =>
            match c.2 with inl _ => True | inr _ => False end) cs ->
  settled w (mkStatus u l g) fc bl ->
  exists w',
    for_each cs (fun chart : string * (bool + exn) =>
      match chart.2 with
      | inr e => raise e
      | inl created =>
          if created then set_status (SetGlobalChart chart.1 label) else mret tt
      end) w = (inl tt, w')
    /\ settled w' (mkStatus u l
                     (foldl (fun g (c : string * (bool + exn)) =>
                               match c.2 with inl true => <[c.1 := label]> g | _ => g end)
                            g cs)) fc bl.
Proof.
  intros Hcs. revert w g. induction Hcs as [|[date [[|]|e]] cs Hc Hcs IH]; intros w g Hw.
  - exists w. split; [reflexivity|exact Hw].
  - rewrite for_each_cons. simpl.
    destruct (set_status_settled (SetGlobalChart date label) w _ _ _ Hw)
      as (w1 & E1 & Hw1).
    rewrite E1. apply (IH w1 _ Hw1).
  - rewrite for_each_cons. simpl. apply (IH w g Hw).
  - destruct Hc.
Qed.

Lemma run_settled (env : Env) (w : World) (data_source label : string)
    (new prior merged : Dataset) (uploads : list ReplaceOne) :
  faults w = [] ->
  source_override env = Some data_source ->
  isUpdating (status w) = false ->
  computed env data_source = inl new ->
  download_fault env = None ->
  blob w = Some prior ->
  merge_step (utc_now env) new prior = Some merged ->
  build_uploads (invalid_cast env) (near_land env) merged = Some uploads ->
  (12 <= length uploads)%nat ->
  save_fault env = None ->
  source_label env data_source = Some label ->
  Forall (fun c : string * (bool + exn) =>
            match c.2 with inl _ => True | inr _ => False end) (charts env) ->
  exists w',
    main env w = (inl tt, w') /\
    settled w'
      (mkStatus false data_source
         (charts_after (stale_chart env) (globalCharts (status w)) label (charts env)
                       (globalCharts (status w))))
      (apply_ops uploads (forecasts w)) (Some merged).
Proof.
  intros Hf Ho Hu Hc Hd Hb Hm Hup Hlen Hsv Hl Hch.
  destruct w as [[u l g] fc bl fs tr]. simpl in Hf, Hu, Hb |- *. subst fs u bl.
  set (w := mkWorld (mkStatus false l g) fc (Some prior) [] tr).
  assert (Hw : settled w (mkStatus false l g) fc (Some prior)) by (repeat split).
  unfold main, gate. rewrite !bind_run.
  destruct (fetch_status_settled w _ _ _ Hw) as (w1 & E1 & Hw1).
  rewrite E1. cbn [isUpdating]. rewrite Ho. cbn [mret M_ret].
  unfold finally, etl, prepare. rewrite !bind_run.
  destruct (set_status_settled (SetIsUpdating true) w1 _ _ _ Hw1) as (w2 & E2 & Hw2).
  rewrite E2. rewrite ?bind_run.
  rewrite (compute_uploads_settled env data_source w2 new prior merged uploads
             Hc Hd (proj2 (proj2 (proj2 Hw2))) Hm Hup).
  cbn [fst snd]. rewrite !bind_run.
  destruct (upload_loop_settled uploads w2 _ _ _ Hw2 Hlen) as (w3 & E3 & Hw3).
  rewrite E3. rewrite ?bind_run. unfold after_upload. rewrite !bind_run.
  destruct (set_status_settled (SetLatestSuccessfulUpdateSource data_source) w3 _ _ _ Hw3)
    as (w4 & E4 & Hw4).
  rewrite E4. rewrite ?bind_run.
  destruct (save_to_cloud_settled env merged w4 _ _ _ Hsv Hw4) as (w5 & E5 & Hw5).
  rewrite E5. rewrite ?bind_run. unfold charting. rewrite !bind_run. cbn [apply_set isUpdating
    latestSuccessfulUpdateSource globalCharts] in Hw5 |- *.
  destruct (deletes_settled
              (filter (fun date => stale_chart env date = true) (map_to_list g).*1)
              w5 _ _ _ _ _ Hw5) as (w6 & E6 & Hw6).
  rewrite E6. rewrite ?bind_run. rewrite Hl. cbn [from_option mret M_ret]. rewrite ?bind_run.
  destruct (charts_settled label (charts env) w6 _ _ _ _ _ Hch Hw6) as (w7 & E7 & Hw7).
  rewrite E7. rewrite ?bind_run.
  destruct (set_status_settled (SetIsUpdating false) w7 _ _ _ Hw7) as (w8 & E8 & Hw8).
  rewrite E8. exists w8. split; [reflexivity|exact Hw8].
Qed.

(** A run in which nothing fails (lines 30-448, with the source given by
    DATA_SOURCE_URL): the run returns normally and leaves the store in the
    state the update is meant to produce: the flag is released,
    [latestSuccessfulUpdateSource] names the new source, the collection
    holds every document of the batch, the persisted grid is the merged
    grid, and the chart entries are those read at the start without the
    stale ones, with one entry for each chart that was uploaded. *)
Theorem successful_run (env : Env) (w : World) (data_source label : string)
    (new prior merged : Dataset) (uploads : list ReplaceOne) :
  faults w = [] ->
  source_override env = Some data_source ->
  isUpdating (status w) = false ->
  computed env data_source = inl new ->
  download_fault env = None ->
  blob w = Some prior ->
  merge_step (utc_now env) new prior = Some merged ->
  build_uploads (invalid_cast env) (near_land env) merged = Some uploads ->
  (12 <= length uploads)%nat ->
  save_fault env = None ->
  source_label env data_source = Some label ->
  Forall (fun c : string * (bool + exn) =>
            match c.2 with inl _ => True | inr _ => False end) (charts env) ->
  exists w',
    main env w = (inl tt, w') /\
    settled w'
      (mkStatus false data_source
         (charts_after (stale_chart env) (globalCharts (status w)) label (charts env)
                       (globalCharts (status w))))
      (apply_ops uploads (forecasts w)) (Some merged).
Proof. apply run_settled. Qed.

Lemma successful_run_witness :
  let env := sample_env sample_wide None in
  let merged := default sample_wide (merge_step (hour 30) sample_wide sample_prior) in
  let uploads := default [] (build_uploads (- 2 ^ 31) (fun _ _ => true) merged) in
  exists w',
    main env (sample_world []) = (inl tt, w') /\
    settled w'
      (mkStatus false sample_source
         (charts_after (stale_chart env) (globalCharts (status (sample_world [])))
                       "2023-01-01_00z" (charts env)
                       (globalCharts (status (sample_world [])))))
      (apply_ops uploads (forecasts (sample_world []))) (Some merged).
Proof.
  apply (successful_run (sample_env sample_wide None) (sample_world [])
           sample_source "2023-01-01_00z" sample_wide sample_prior
           (default sample_wide (merge_step (hour 30) sample_wide sample_prior))
           (default [] (build_uploads (- 2 ^ 31) (fun _ _ => true)
              (default sample_wide (merge_step (hour 30) sample_wide sample_prior))))).
  - reflexivity.
  - reflexivity.
  - reflexivity.
  - reflexivity.
  - reflexivity.
  - reflexivity.
  - vm_compute. reflexivity.
  - vm_compute. reflexivity.
  - vm_compute. lia.
  - reflexivity.
  - reflexivity.
  - apply Forall_cons. split; [exact I|apply Forall_nil; exact I].
Defined.

End RunFacts.
